(** * Hero gradient animator ([setupRandomHeroBg], src/script/Responsive.js)

    A shallow embedding of section 11 of [Responsive.js]: the palette, the
    colour parser, the colour interpolation, the random gradient generator,
    the gradient renderer, the per-frame [animate] callback and the
    [setupRandomHeroBg] entry point.

    Conventions of the embedding.
    - A JavaScript Number is an exact rational ([Q]); [Date.now()] readings
      and colour channels are integers ([Z]).  Rounding of IEEE doubles is
      not modelled: every arithmetic operation is exact.  The progress
      arithmetic alone is also given on doubles ([wrapProgress64]), to
      replay the worked instances.
    - A JavaScript string is a [string] of bytes (the palette is ASCII).
    - The host (DOM, clock, random source, frame scheduler) is an explicit
      [World] threaded through a state-and-error monad. *)

From Stdlib Require Import Ascii String ZArith QArith Qround Qabs Lqa Lia.
From Stdlib Require Import DecimalString PrimFloat.
From stdpp Require Import base strings gmap list.

Local Open Scope string_scope.

(** ** JavaScript built-ins used by the animator *)

Module JS.

(** [\d] of a JavaScript regular expression: the ASCII digits. *)
Definition isDigit (c : ascii) : bool :=
  (48 <=? nat_of_ascii c)%nat && (nat_of_ascii c <=? 57)%nat.

(** The value of a decimal digit. *)
Definition digitValue (c : ascii) : Z := Z.of_nat (nat_of_ascii c) - 48.

(** [s] followed by the character [c]. *)
Definition snoc (s : string) (c : ascii) : string := s +:+ String c "".

(** Scanner state of the global match of [/\d+(\.\d+)?/g]: outside a
    match, inside the integer digits, or inside the fractional digits of
    the match accumulated so far. *)
Inductive scan : Type :=
| Outside
| IntPart (tok : string)
| FracPart (tok : string).

(** The look-ahead [\d] after a dot. *)
Definition startsWithDigit (s : string) : bool :=
  match s with
  | String c _ => isDigit c
  | EmptyString => false
  end.

(** Leftmost, greedy, non-overlapping matches of [/\d+(\.\d+)?/g].  A dot
    belongs to a match only when a digit follows it. *)
Fixpoint matchFrom (st : scan) (s : string) : list string :=
  match s with
  | EmptyString =>
      match st with
      | Outside => []
      | IntPart tok | FracPart tok => [tok]
      end
  | String c rest =>
      match st with
      | Outside =>
          if isDigit c then matchFrom (IntPart (String c "")) rest
          else matchFrom Outside rest
      | IntPart tok =>
          if isDigit c then matchFrom (IntPart (snoc tok c)) rest
          else if Ascii.eqb c "."%char && startsWithDigit rest
               then matchFrom (FracPart (snoc tok c)) rest
               else tok :: matchFrom Outside rest
      | FracPart tok =>
          if isDigit c then matchFrom (FracPart (snoc tok c)) rest
          else tok :: matchFrom Outside rest
      end
  end.

(** [str.match(/\d+(\.\d+)?/g)]; [None] is JavaScript's [null] (no match
    at all). *)
Definition matchNumbers (str : string) : option (list string) :=
  match matchFrom Outside str with
  | [] => None
  | ms => Some ms
  end.

(** A string of decimal digits only. *)
Definition allDigits (s : string) : bool :=
  forallb isDigit (list_ascii_of_string s).

(** Value and length of the longest prefix of decimal digits. *)
Fixpoint digitsPrefix (acc : Z) (n : nat) (s : string) : Z * nat * string :=
  match s with
  | String c rest =>
      if isDigit c then digitsPrefix (acc * 10 + digitValue c) (S n) rest
      else (acc, n, s)
  | EmptyString => (acc, n, s)
  end.

(** [parseInt(s)] on a string without leading blanks, sign or radix
    prefix: the leading decimal digits; [None] is [NaN]. *)
Definition parseInt (s : string) : option Z :=
  match digitsPrefix 0 0 s with
  | (_, O, _) => None
  | (v, _, _) => Some v
  end.

(** [parseFloat(s)] on a string that starts with a digit and has no
    exponent: integer digits, then an optional dot and fractional
    digits; [None] is [NaN]. *)
Definition parseFloat (s : string) : option Q :=
  match digitsPrefix 0 0 s with
  | (_, O, _) => None
  | (v, _, String "." rest) =>
      let '(f, k, _) := digitsPrefix 0 0 rest in
      Some (inject_Z v + inject_Z f / inject_Z (10 ^ Z.of_nat k))%Q
  | (v, _, _) => Some (inject_Z v)
  end.

(** [Math.round]: the nearest integer, ties towards plus infinity. *)
Definition Math_round (x : Q) : Z := Qfloor (x + (1 # 2)).

(** [Math.floor]. *)
Definition Math_floor (x : Q) : Z := Qfloor x.

(** Number-to-string conversion of an integer-valued Number (below 1e21
    in magnitude, where JavaScript prints all the digits). *)
Definition intToString (z : Z) : string :=
  NilZero.string_of_int (Z.to_int z).

(** A number 0..99 printed with two digits. *)
Definition twoDigits (z : Z) : string :=
  (if (z <? 10)%Z then "0" else "") +:+ intToString z.

(** [n] hundredths printed with two fractional digits. *)
Definition hundredths (n : Z) : string :=
  intToString (n / 100) +:+ "." +:+ twoDigits (n mod 100).

(** [x.toFixed(2)]: the integer [n] nearest to [100 * |x|] (the larger
    one on a tie), printed with two fractional digits, after a minus sign
    when [x < 0]. *)
Definition toFixed2 (x : Q) : string :=
  let n := Qfloor (Qabs x * 100 + (1 # 2)) in
  (if Qlt_le_dec x 0 then "-" else "") +:+ hundredths n.

(** [arr[i]] for an index computed as a Number: out of range is
    [undefined] ([None]). *)
Definition arrayGet {A} (arr : list A) (i : Z) : option A :=
  if (i <? 0)%Z then None else arr !! Z.to_nat i.

End JS.

Import JS.

(** ** The host: document, clock, random source, frame scheduler *)

(** The custom properties set on one element ([el.style]). *)
Abbreviation Style := (gmap string string).

(** A host call made by the animator, in the order it was made. *)
Inductive Event : Type :=
| SetProperty (el name value : string)
| RequestAnimationFrame.

(** [document] maps a selector to the style of the element it selects, when
    there is one; an element handle is the selector that found it.
    [clock] is the reading of [Date.now()], [draws] the number of
    [Math.random()] calls made so far. *)
Record World : Type := {
  document : gmap string Style;
  clock : Z;
  draws : nat;
  trace : list Event;
}.

(** The world after the host call [e] is recorded. *)
Definition log (e : Event) (w : World) : World :=
  {| document := document w; clock := clock w; draws := draws w;
     trace := trace w ++ [e] |}.

(** State-and-error monad of the host: [None] is an uncaught exception. *)
Definition M (A : Type) : Type := World → option (A * World).

#[global] Instance M_ret : MRet M := λ A x w, Some (x, w).

#[global] Instance M_bind : MBind M := λ A B f m w,
  match m w with
  | Some (x, w') => f x w'
  | None => None
  end.

(** An uncaught exception. *)
Definition throw {A} : M A := λ _, None.

(** [!el] for a value that is an element handle or [null]. *)
Definition isNull {A} (el : option A) : bool :=
  match el with
  | Some _ => false
  | None => true
  end.

(** [document.querySelector(sel)]: the handle, or [None] for [null]. *)
Definition querySelector (sel : string) : M (option string) := λ w,
  Some (match document w !! sel with Some _ => Some sel | None => None end, w).

(** The document after the custom property [name] of the element [el] is
    set to [value]. *)
Definition writeStyle (el name value : string) (doc : gmap string Style) :
    gmap string Style :=
  alter (λ st : Style, <[name := value]> st) el doc.

(** [el.style.setProperty(name, value)]. *)
Definition setProperty (el name value : string) : M unit := λ w,
  Some (tt, log (SetProperty el name value)
              {| document := writeStyle el name value (document w);
                 clock := clock w; draws := draws w; trace := trace w |}).

(** [el.style.getPropertyValue(name)], for the statements. *)
Definition getProperty (el name : string) (w : World) : option string :=
  document w !! el ≫= λ st : Style, st !! name.

(** [requestAnimationFrame(animate)]: [animate] is the only callback the
    animator ever registers. *)
Definition requestAnimationFrame : M unit := λ w,
  Some (tt, log RequestAnimationFrame w).

(** [Date.now()]. *)
Definition Date_now : M Z := λ w, Some (clock w, w).

(** ** Colours *)

(** The result of [parseColor]. *)
Record Color : Type := { r : Z; g : Z; b : Z; a : Q }.

(** The palette (lines 564-569). *)
Definition colors : list string :=
  [ "rgba(255, 127, 180, 0.55)";
    "rgba(168, 85, 247, 0.55)";
    "rgba(96, 165, 250, 0.55)";
    "rgba(20, 184, 166, 0.55)" ].

(** [parseColor] (lines 572-580).  The argument is a string or [undefined]
    ([None]).  The result is [None] where JavaScript throws a [TypeError]
    ([undefined.match], or [match[0]] on a [null] match) and also where it
    would return a colour with a [NaN] field (fewer than four numbers in
    the string), which a rational cannot hold. *)
Definition parseColor (colorStr : option string) : option Color :=
  str ← colorStr;
  match_ ← matchNumbers str;
  r ← match_ !! 0%nat ≫= parseInt;
  g ← match_ !! 1%nat ≫= parseInt;
  b ← match_ !! 2%nat ≫= parseInt;
  a ← match_ !! 3%nat ≫= parseFloat;
  Some {| r := r; g := g; b := b; a := a |}.

(** The template [`rgba(${r}, ${g}, ${b}, ${a})`] of [lerpColor]. *)
Definition rgba (r g b : Z) (a : string) : string :=
  "rgba(" +:+ intToString r +:+ ", " +:+ intToString g +:+ ", "
          +:+ intToString b +:+ ", " +:+ a +:+ ")".

(** [lerpColor] (lines 583-591). *)
Definition lerpColor (color1 color2 : option string) (t : Q) : option string :=
  c1 ← parseColor color1;
  c2 ← parseColor color2;
  let r := Math_round (inject_Z (r c1) + (inject_Z (r c2) - inject_Z (r c1)) * t) in
  let g := Math_round (inject_Z (g c1) + (inject_Z (g c2) - inject_Z (g c1)) * t) in
  let b := Math_round (inject_Z (b c1) + (inject_Z (b c2) - inject_Z (b c1)) * t) in
  let a := toFixed2 (a c1 + (a c2 - a c1) * t) in
  Some (rgba r g b a).

(** ** Gradients *)

(** The object built by [generateRandomGradient] and by [animate]
    ([interpGrad]): three colours (a string, or [undefined] when the
    palette was indexed out of range) and three positions in percent. *)
Record Gradient : Type := {
  color1 : option string; color2 : option string; color3 : option string;
  pos1X : Q; pos1Y : Q;
  pos2X : Q; pos2Y : Q;
  pos3X : Q; pos3Y : Q;
}.

(** String conversion inside a template literal of a value that is a
    string or [undefined]. *)
Definition strOrUndefined (v : option string) : string :=
  match v with
  | Some s => s
  | None => "undefined"
  end.

(** The line break and the five tabs between two layers in the template
    literal of [gradientToString]. *)
Definition layerBreak : string :=
  String (ascii_of_nat 10)
    (String (ascii_of_nat 9) (String (ascii_of_nat 9) (String (ascii_of_nat 9)
      (String (ascii_of_nat 9) (String (ascii_of_nat 9) ""))))).

(** Closure state of [setupRandomHeroBg] that [animate] reads and
    updates: the two element handles ([None] is [null]) and the five [let]
    variables of lines 616-620. *)
Record Anim : Type := {
  wrapper : option string;
  topbar : option string;
  currentGradient : Gradient;
  targetGradient : Gradient;
  animationProgress : Q;
  animationDuration : Q;
  lastTime : Z;
}.

Section Animator.

(** Number-to-string conversion of a position inside a template
    literal: a built-in of the host, defined on doubles. *)
Variable numberToString : Q → string.

(** The successive results of [Math.random()]. *)
Variable random : nat → Q.

(** [Math.random()]. *)
Definition Math_random : M Q := λ w,
  Some (random (draws w),
        {| document := document w; clock := clock w;
           draws := S (draws w); trace := trace w |}).

(** [colors[Math.floor(Math.random() * colors.length)]]. *)
Definition randomColor : M (option string) :=
  u ← Math_random;
  mret (arrayGet colors (Math_floor (u * inject_Z (Z.of_nat (length colors))))).

(** [generateRandomGradient] (lines 594-607). *)
Definition generateRandomGradient : M Gradient :=
  color1 ← randomColor;
  color2 ← randomColor;
  color3 ← randomColor;
  pos1X ← (u ← Math_random; mret (u * 40 + 10)%Q);
  pos1Y ← (u ← Math_random; mret (u * 40 + 10)%Q);
  pos2X ← (u ← Math_random; mret (u * 40 + 60)%Q);
  pos2Y ← (u ← Math_random; mret (u * 40 + 20)%Q);
  pos3X ← (u ← Math_random; mret (u * 40 + 40)%Q);
  pos3Y ← (u ← Math_random; mret (u * 40 + 60)%Q);
  mret {| color1 := color1; color2 := color2; color3 := color3;
          pos1X := pos1X; pos1Y := pos1Y; pos2X := pos2X; pos2Y := pos2Y;
          pos3X := pos3X; pos3Y := pos3Y |}.

(** One layer of the template literal of [gradientToString]. *)
Definition layer (x y : Q) (color : option string) (stop : string) : string :=
  "radial-gradient(circle at " +:+ numberToString x +:+ "% "
    +:+ numberToString y +:+ "%, " +:+ strOrUndefined color
    +:+ ", transparent " +:+ stop +:+ ")".

(** [gradientToString] (lines 610-614). *)
Definition gradientToString (grad : Gradient) : string :=
  layer (pos1X grad) (pos1Y grad) (color1 grad) "35%" +:+ "," +:+ layerBreak
    +:+ layer (pos2X grad) (pos2Y grad) (color2 grad) "38%" +:+ "," +:+ layerBreak
    +:+ layer (pos3X grad) (pos3Y grad) (color3 grad) "42%".

(** A pure computation that may throw, run inside the host monad. *)
Definition orThrow {A} (o : option A) : M A :=
  match o with
  | Some x => mret x
  | None => throw
  end.

(** [animate] (lines 623-660), one frame callback. *)
Definition animate (st : Anim) : M Anim :=
  now ← Date_now;
  let elapsed := (now - lastTime st)%Z in
  let animationProgress :=
    (animationProgress st + inject_Z elapsed / animationDuration st)%Q in
  '(animationProgress, currentGradient, targetGradient) ←
    (if Qle_bool 1 animationProgress
     then
       fresh ← generateRandomGradient;
       mret ((animationProgress - 1)%Q, targetGradient st, fresh)
     else
       mret (animationProgress, currentGradient st, targetGradient st));
  let t := animationProgress in
  c1 ← orThrow (lerpColor (color1 currentGradient) (color1 targetGradient) t);
  c2 ← orThrow (lerpColor (color2 currentGradient) (color2 targetGradient) t);
  c3 ← orThrow (lerpColor (color3 currentGradient) (color3 targetGradient) t);
  let interpGrad :=
    {| color1 := Some c1; color2 := Some c2; color3 := Some c3;
       pos1X := pos1X currentGradient + (pos1X targetGradient - pos1X currentGradient) * t;
       pos1Y := pos1Y currentGradient + (pos1Y targetGradient - pos1Y currentGradient) * t;
       pos2X := pos2X currentGradient + (pos2X targetGradient - pos2X currentGradient) * t;
       pos2Y := pos2Y currentGradient + (pos2Y targetGradient - pos2Y currentGradient) * t;
       pos3X := pos3X currentGradient + (pos3X targetGradient - pos3X currentGradient) * t;
       pos3Y := pos3Y currentGradient + (pos3Y targetGradient - pos3Y currentGradient) * t
    |}%Q in
  _ ← match wrapper st with
      | Some el => setProperty el "--hero-bg" (gradientToString interpGrad)
      | None => mret tt
      end;
  _ ← match topbar st with
      | Some el => setProperty el "--topbar-bg" (gradientToString interpGrad)
      | None => mret tt
      end;
  _ ← requestAnimationFrame;
  mret {| wrapper := wrapper st; topbar := topbar st;
          currentGradient := currentGradient;
          targetGradient := targetGradient;
          animationProgress := animationProgress;
          animationDuration := animationDuration st;
          lastTime := now |}.

(** [setupRandomHeroBg] (lines 556-672).  The result is the closure
    state handed to the first frame, or [None] after the early return. *)
Definition setupRandomHeroBg : M (option Anim) :=
  wrapper ← querySelector ".hero-wrapper";
  topbar ← querySelector ".topbar";
  if isNull wrapper && isNull topbar
  then mret None
  else
    currentGradient ← generateRandomGradient;
    targetGradient ← generateRandomGradient;
    let animationProgress := 0%Q in
    let animationDuration := 6000%Q in
    lastTime ← Date_now;
    _ ← match wrapper with
        | Some el => setProperty el "--hero-bg" (gradientToString currentGradient)
        | None => mret tt
        end;
    _ ← match topbar with
        | Some el => setProperty el "--topbar-bg" (gradientToString currentGradient)
        | None => mret tt
        end;
    _ ← requestAnimationFrame;
    mret (Some {| wrapper := wrapper; topbar := topbar;
                  currentGradient := currentGradient;
                  targetGradient := targetGradient;
                  animationProgress := animationProgress;
                  animationDuration := animationDuration;
                  lastTime := lastTime |}).

(** The host between two frames: [dt] milliseconds pass. *)
Definition tick (dt : Z) : M unit := λ w,
  Some (tt, {| document := document w; clock := clock w + dt;
               draws := draws w; trace := trace w |}).

(** The frame loop: the host runs the callback that
    [requestAnimationFrame] registered, once per frame; [gaps] are the
    times between consecutive frames. *)
Fixpoint frames (gaps : list Z) (st : Anim) : M Anim :=
  match gaps with
  | [] => mret st
  | dt :: rest =>
      _ ← tick dt;
      st' ← animate st;
      frames rest st'
  end.

(** *** Notions used in the statements *)

(** The world after [k] more calls of [Math.random()]. *)
Definition afterDraws (k : nat) (w : World) : World :=
  {| document := document w; clock := clock w;
     draws := k + draws w; trace := trace w |}.

(** The palette entry selected by the draw number [n]. *)
Definition colorAt (n : nat) : option string :=
  arrayGet colors (Math_floor (random n * inject_Z (Z.of_nat (length colors)))).

(** The gradient that [generateRandomGradient] builds from the nine
    draws numbered [n], ..., [n + 8]. *)
Definition gradientAt (n : nat) : Gradient :=
  {| color1 := colorAt n; color2 := colorAt (1 + n); color3 := colorAt (2 + n);
     pos1X := random (3 + n) * 40 + 10; pos1Y := random (4 + n) * 40 + 10;
     pos2X := random (5 + n) * 40 + 60; pos2Y := random (6 + n) * 40 + 20;
     pos3X := random (7 + n) * 40 + 40; pos3Y := random (8 + n) * 40 + 60 |}%Q.

(** The progress before the wrap test of [animate] (line 627). *)
Definition rawProgress (st : Anim) (w : World) : Q :=
  animationProgress st + inject_Z (clock w - lastTime st) / animationDuration st.

(** Whether the wrap test of [animate] (line 629) succeeds. *)
Definition rotates (st : Anim) (w : World) : bool :=
  Qle_bool 1 (rawProgress st w).

(** The closure state that one frame leaves behind. *)
Definition nextAnim (st : Anim) (w : World) : Anim :=
  if rotates st w
  then {| wrapper := wrapper st; topbar := topbar st;
          currentGradient := targetGradient st;
          targetGradient := gradientAt (draws w);
          animationProgress := rawProgress st w - 1;
          animationDuration := animationDuration st;
          lastTime := clock w |}
  else {| wrapper := wrapper st; topbar := topbar st;
          currentGradient := currentGradient st;
          targetGradient := targetGradient st;
          animationProgress := rawProgress st w;
          animationDuration := animationDuration st;
          lastTime := clock w |}.

(** [interpGrad] of [animate] for the closure variables as they are
    after the wrap test, given the three interpolated colours. *)
Definition interpGrad (st : Anim) (c1 c2 c3 : string) : Gradient :=
  let cur := currentGradient st in
  let tgt := targetGradient st in
  let t := animationProgress st in
  {| color1 := Some c1; color2 := Some c2; color3 := Some c3;
     pos1X := pos1X cur + (pos1X tgt - pos1X cur) * t;
     pos1Y := pos1Y cur + (pos1Y tgt - pos1Y cur) * t;
     pos2X := pos2X cur + (pos2X tgt - pos2X cur) * t;
     pos2Y := pos2Y cur + (pos2Y tgt - pos2Y cur) * t;
     pos3X := pos3X cur + (pos3X tgt - pos3X cur) * t;
     pos3Y := pos3Y cur + (pos3Y tgt - pos3Y cur) * t |}%Q.

(** The style writes of one frame that renders [s]. *)
Definition frameWrites (st : Anim) (s : string) : list Event :=
  match wrapper st with Some el => [SetProperty el "--hero-bg" s] | None => [] end
  ++ match topbar st with Some el => [SetProperty el "--topbar-bg" s] | None => [] end.

(** The document after the style writes of one frame that renders [s]. *)
Definition frameStyles (st : Anim) (s : string) (doc : gmap string Style) :
    gmap string Style :=
  let doc := match wrapper st with
             | Some el => writeStyle el "--hero-bg" s doc
             | None => doc
             end in
  match topbar st with
  | Some el => writeStyle el "--topbar-bg" s doc
  | None => doc
  end.

(** The world that one frame leaves behind when it renders [s]. *)
Definition nextWorld (st : Anim) (s : string) (w : World) : World :=
  {| document := frameStyles st s (document w);
     clock := clock w;
     draws := (if rotates st w then 9 else 0) + draws w;
     trace := trace w ++ frameWrites st s ++ [RequestAnimationFrame] |}.

End Animator.

(** Channels in 0..255 and alpha in [0,1]. *)
Definition validColor (c : Color) : Prop :=
  (0 ≤ r c ≤ 255)%Z ∧ (0 ≤ g c ≤ 255)%Z ∧ (0 ≤ b c ≤ 255)%Z ∧ (0 <= a c <= 1)%Q.

(** A colour field that holds an entry of the palette. *)
Definition inPalette (c : option string) : Prop :=
  match c with
  | Some s => s ∈ colors
  | None => False
  end.

(** A gradient whose three colours are entries of the palette. *)
Definition paletteGradient (grad : Gradient) : Prop :=
  inPalette (color1 grad) ∧ inPalette (color2 grad) ∧ inPalette (color3 grad).

(** The closure states that [setupRandomHeroBg] and [animate] produce:
    both gradients hold palette colours. *)
Definition wfAnim (st : Anim) : Prop :=
  paletteGradient (currentGradient st) ∧ paletteGradient (targetGradient st).

(** The three stops of a gradient: colour, x and y. *)
Definition stops (grad : Gradient) : list (option string * Q * Q) :=
  [ (color1 grad, pos1X grad, pos1Y grad);
    (color2 grad, pos2X grad, pos2Y grad);
    (color3 grad, pos3X grad, pos3Y grad) ].

(** The colour that [lerpColor] prints for a parsed colour taken as it
    is. *)
Definition printColor (c : Color) : string :=
  rgba (r c) (g c) (b c) (toFixed2 (a c)).

(** The colour half-way between two parsed colours, as [lerpColor] prints
    it: rounded channel midpoints and the midpoint alpha. *)
Definition midColor (c1 c2 : Color) : string :=
  rgba (Math_round ((inject_Z (r c1) + inject_Z (r c2)) / 2))
       (Math_round ((inject_Z (g c1) + inject_Z (g c2)) / 2))
       (Math_round ((inject_Z (b c1) + inject_Z (b c2)) / 2))
       (toFixed2 ((a c1 + a c2) / 2)).

(** [m] is the colour half-way between what the colour fields [cur] and
    [tgt] parse to. *)
Definition stopMid (cur tgt : option string) (m : string) : Prop :=
  ∃ k k' : Color,
    parseColor cur = Some k ∧ parseColor tgt = Some k' ∧ m = midColor k k'.

(** [x] occurs in [s]. *)
Definition occursIn (x s : string) : Prop :=
  ∃ pre post : string, s = pre +:+ x +:+ post.

(** ** The wrap arithmetic on doubles *)

(** Lines 627-630 of [animate] on IEEE binary64 numbers, the Numbers of
    JavaScript: the progress that a step leaves.  It serves to replay the
    worked instances of the progress without the idealisation of exact
    arithmetic. *)
Definition wrapProgress64 (animationProgress elapsed animationDuration : float) :
    float :=
  let animationProgress :=
    (animationProgress + elapsed / animationDuration)%float in
  if (1 <=? animationProgress)%float
  then (animationProgress - 1)%float
  else animationProgress.

(** ** Sample data for the worked instances *)

(** A number printer for the instances: two decimals. *)
Definition sampleNumberToString (x : Q) : string := toFixed2 x.

(** A random source for the instances: 0, 0.7, 0.4, 0.1, 0.8, ... *)
Definition sampleRandom (n : nat) : Q := Z.of_nat (n * 7 mod 10) # 10.

(** A gradient with the palette entries number [i], [j] and [k]. *)
Definition sampleGradient (i j k : nat) : Gradient :=
  {| color1 := colors !! i; color2 := colors !! j; color3 := colors !! k;
     pos1X := 20; pos1Y := 30; pos2X := 80; pos2Y := 40;
     pos3X := 50; pos3Y := 90 |}.

(** A closure state with both surfaces, a period of 6000 ms, the given
    progress and the given time of the last frame. *)
Definition sampleAnim (progress : Q) (last : Z) : Anim :=
  {| wrapper := Some ".hero-wrapper"; topbar := Some ".topbar";
     currentGradient := sampleGradient 0 1 2;
     targetGradient := sampleGradient 3 0 1;
     animationProgress := progress;
     animationDuration := 6000;
     lastTime := last |}.

(** A page with both surfaces, after the eighteen draws of the entry
    point. *)
Definition sampleWorld (now : Z) : World :=
  {| document := {[ ".hero-wrapper" := ∅; ".topbar" := ∅ ]};
     clock := now; draws := 18; trace := [] |}.

(** A page with neither surface. *)
Definition emptyPage (now : Z) : World :=
  {| document := ∅; clock := now; draws := 0; trace := [] |}.


(** * The rest of [Responsive.js] *)

(** ** The image carousel ([moveCarousel], lines 522-552) *)

(** The class list of an element ([el.classList]). *)
Abbreviation ClassList := (gset string).

(** [img.classList.contains('active')]. *)
Definition containsActive (img : ClassList) : bool :=
  bool_decide ("active" ∈ img).

(** The [forEach] of lines 531-535, from the image number [index] on: the
    index of the last image that carries [active], or [currentIndex] when
    none does. *)
Fixpoint findActive (index : nat) (images : list ClassList) (currentIndex : Z) : Z :=
  match images with
  | [] => currentIndex
  | img :: rest =>
      findActive (S index) rest
        (if containsActive img then Z.of_nat index else currentIndex)
  end.

(** [moveCarousel] (lines 522-552).  The page maps an element id to the
    class lists of the [.carousel-image] descendants of that element, in
    document order; an id without an entry has no element.  [direction] is
    an integer.  The result is [None] where JavaScript throws a
    [TypeError] (the [classList] of an [images[i]] that is [undefined]). *)
Definition moveCarousel (carouselId : string) (direction : Z)
    (page : gmap string (list ClassList)) : option (gmap string (list ClassList)) :=
  match page !! carouselId with
  | None => Some page
  | Some images =>
      if (Z.of_nat (length images) =? 0)%Z then Some page
      else
        let currentIndex := findActive 0 images (-1) in
        let newIndex := (currentIndex + direction)%Z in
        let newIndex :=
          if (newIndex <? 0)%Z then (Z.of_nat (length images) - 1)%Z
          else if (Z.of_nat (length images) <=? newIndex)%Z then 0%Z
          else newIndex in
        images ← (if (0 <=? currentIndex)%Z
                  then img ← arrayGet images currentIndex;
                       Some (<[Z.to_nat currentIndex := img ∖ {["active"]}]> images)
                  else Some images);
        img ← arrayGet images newIndex;
        Some (<[carouselId := <[Z.to_nat newIndex := img ∪ {["active"]}]> images]> page)
  end.

(** [k] calls of [moveCarousel] with the same arguments. *)
Fixpoint moveCarouselTimes (k : nat) (carouselId : string) (direction : Z)
    (page : gmap string (list ClassList)) : option (gmap string (list ClassList)) :=
  match k with
  | O => Some page
  | S k => page ← moveCarousel carouselId direction page;
           moveCarouselTimes k carouselId direction page
  end.

(** The indexes of the images that carry [active]. *)
Definition activeIndexes (images : list ClassList) : list nat :=
  List.filter
    (λ k : nat, match images !! k with
                | Some img => containsActive img
                | None => false
                end)
    (seq 0 (length images)).

(** The images with [active] taken off every one of them, and with
    [active] put on the image number [i]. *)
Definition withoutActive (images : list ClassList) : list ClassList :=
  (λ img : ClassList, img ∖ {["active"]}) <$> images.

Definition activateAt (i : nat) (images : list ClassList) : list ClassList :=
  match images !! i with
  | Some img => <[i := img ∪ {["active"]}]> images
  | None => images
  end.

(** The index that a step of [direction] from the active image [i] of [n]
    images leads to: past either end it is the other end. *)
Definition carouselTarget (n : nat) (i : Z) (direction : Z) : nat :=
  if (i + direction <? 0)%Z then (n - 1)%nat
  else if (Z.of_nat n <=? i + direction)%Z then 0%nat
  else Z.to_nat (i + direction).

(** Sample carousel: three images, the second one active. *)
Definition sampleCarousel : gmap string (list ClassList) :=
  {[ "gallery" := [ {["carousel-image"]};
                    {["carousel-image"; "active"]};
                    {["carousel-image"; "wide"]} ] ]}.

(** ** The theme toggle ([setupThemeToggle], lines 64-107) *)

(** The toggle button: its class list and its attributes. *)
Record Button : Type := {
  btnClasses : ClassList;
  btnAttributes : gmap string string;
}.

(** What [setupThemeToggle] and its listeners read and write.
    [toggleBtn] is [document.getElementById('theme-toggle')] ([None] for
    [null]); [prefersDarkQuery] is [None] when [window.matchMedia] is
    missing and otherwise the [matches] of the dark colour scheme query;
    [timeouts] are the pending timeouts set by the closure (identifier to
    due time), [pageTime] the time in milliseconds.  Storage accesses are
    taken to succeed. *)
Record ThemePage : Type := {
  bodyClasses : ClassList;
  toggleBtn : option Button;
  localStorage : gmap string string;
  prefersDarkQuery : option bool;
  timeouts : gmap nat Z;
  nextTimeout : nat;
  pageTime : Z;
}.

Definition setBodyClasses (f : ClassList → ClassList) (p : ThemePage) : ThemePage :=
  {| bodyClasses := f (bodyClasses p); toggleBtn := toggleBtn p;
     localStorage := localStorage p; prefersDarkQuery := prefersDarkQuery p;
     timeouts := timeouts p; nextTimeout := nextTimeout p; pageTime := pageTime p |}.

Definition setToggleBtn (f : Button → Button) (p : ThemePage) : ThemePage :=
  {| bodyClasses := bodyClasses p; toggleBtn := f <$> toggleBtn p;
     localStorage := localStorage p; prefersDarkQuery := prefersDarkQuery p;
     timeouts := timeouts p; nextTimeout := nextTimeout p; pageTime := pageTime p |}.

(** [localStorage.setItem(key, value)]. *)
Definition setItem (key value : string) (p : ThemePage) : ThemePage :=
  {| bodyClasses := bodyClasses p; toggleBtn := toggleBtn p;
     localStorage := <[key := value]> (localStorage p);
     prefersDarkQuery := prefersDarkQuery p;
     timeouts := timeouts p; nextTimeout := nextTimeout p; pageTime := pageTime p |}.

(** [clearTimeout(id)]; an identifier that is [undefined] or not pending
    clears nothing. *)
Definition clearTimeout (id : option nat) (p : ThemePage) : ThemePage :=
  {| bodyClasses := bodyClasses p; toggleBtn := toggleBtn p;
     localStorage := localStorage p; prefersDarkQuery := prefersDarkQuery p;
     timeouts := match id with
                 | Some id => delete id (timeouts p)
                 | None => timeouts p
                 end;
     nextTimeout := nextTimeout p; pageTime := pageTime p |}.

(** [window.setTimeout(callback, delay)]: the new identifier and the page
    with the timeout pending. *)
Definition setTimeout (delay : Z) (p : ThemePage) : nat * ThemePage :=
  (nextTimeout p,
   {| bodyClasses := bodyClasses p; toggleBtn := toggleBtn p;
      localStorage := localStorage p; prefersDarkQuery := prefersDarkQuery p;
      timeouts := <[nextTimeout p := (pageTime p + delay)%Z]> (timeouts p);
      nextTimeout := S (nextTimeout p); pageTime := pageTime p |}).

(** [btn.setAttribute(name, value)], [btn.classList.add] and
    [btn.classList.remove]. *)
Definition setAttribute (name value : string) (btn : Button) : Button :=
  {| btnClasses := btnClasses btn;
     btnAttributes := <[name := value]> (btnAttributes btn) |}.

Definition btnClassAdd (c : string) (btn : Button) : Button :=
  {| btnClasses := btnClasses btn ∪ {[c]}; btnAttributes := btnAttributes btn |}.

Definition btnClassRemove (c : string) (btn : Button) : Button :=
  {| btnClasses := btnClasses btn ∖ {[c]}; btnAttributes := btnAttributes btn |}.

(** [applyTheme] (lines 81-95). *)
Definition applyTheme (isDark : bool) (p : ThemePage) : ThemePage :=
  if isDark
  then
    let p := setBodyClasses (λ cl, cl ∪ {["theme-dark"]}) p in
    let p := setToggleBtn (btnClassAdd "is-on") p in
    let p := setToggleBtn (setAttribute "aria-pressed" "true") p in
    let p := setToggleBtn (setAttribute "aria-label" "Activer le mode clair") p in
    setItem "site-theme" "dark" p
  else
    let p := setBodyClasses (λ cl, cl ∖ {["theme-dark"]}) p in
    let p := setToggleBtn (btnClassRemove "is-on") p in
    let p := setToggleBtn (setAttribute "aria-pressed" "false") p in
    let p := setToggleBtn (setAttribute "aria-label" "Activer le mode sombre") p in
    setItem "site-theme" "light" p.

(** [playFade] (lines 75-79) on the closure variable [fadeTimer]. *)
Definition playFade (fadeTimer : option nat) (p : ThemePage) : option nat * ThemePage :=
  let p := clearTimeout fadeTimer p in
  let p := setBodyClasses (λ cl, cl ∪ {["theme-fade"]}) p in
  let '(id, p) := setTimeout 1100 p in
  (Some id, p).

(** The click listener of the button (lines 102-106). *)
Definition themeClick (fadeTimer : option nat) (p : ThemePage) : option nat * ThemePage :=
  let isDark := negb (bool_decide ("theme-dark" ∈ bodyClasses p)) in
  let '(fadeTimer, p) := playFade fadeTimer p in
  (fadeTimer, applyTheme isDark p).

(** Truth value of a value that is [undefined] or a boolean. *)
Definition truthy (v : option bool) : bool :=
  match v with
  | Some b => b
  | None => false
  end.

(** [setupThemeToggle] (lines 64-107): the page it leaves, and the closure
    variable [fadeTimer] of the listener it registered, or [None] when it
    registered none. *)
Definition setupThemeToggle (p : ThemePage) : ThemePage * option (option nat) :=
  match toggleBtn p with
  | None => (p, None)
  | Some _ =>
      let prefersDark := prefersDarkQuery p in
      let savedTheme := localStorage p !! "site-theme" in
      let fadeTimer : option nat := None in
      let initialDark :=
        match savedTheme with
        | Some s => if String.eqb s "" then prefersDark else Some (String.eqb s "dark")
        | None => prefersDark
        end in
      (applyTheme (truthy initialDark) p, Some fadeTimer)
  end.

(** The host lets [dt] milliseconds pass and runs the timeouts that are
    due; each of them takes [theme-fade] off the body (line 78). *)
Definition themeWait (dt : Z) (p : ThemePage) : ThemePage :=
  let now := (pageTime p + dt)%Z in
  let due := filter (λ kv : nat * Z, (kv.2 ≤ now)%Z) (timeouts p) in
  {| bodyClasses := if bool_decide (due = ∅) then bodyClasses p
                    else bodyClasses p ∖ {["theme-fade"]};
     toggleBtn := toggleBtn p; localStorage := localStorage p;
     prefersDarkQuery := prefersDarkQuery p;
     timeouts := filter (λ kv : nat * Z, ¬ (kv.2 ≤ now)%Z) (timeouts p);
     nextTimeout := nextTimeout p; pageTime := now |}.

(** What happens on the page after the set-up. *)
Inductive ThemeEvent : Type :=
| Click
| Wait (dt : Z).

Definition themeStep (e : ThemeEvent) (s : option nat * ThemePage) : option nat * ThemePage :=
  match e with
  | Click => themeClick s.1 s.2
  | Wait dt => (s.1, themeWait dt s.2)
  end.

Definition themeRun (events : list ThemeEvent) (s : option nat * ThemePage) :
    option nat * ThemePage :=
  foldl (λ s e, themeStep e s) s events.

(** The frame callback that the click listener of [optimizeThemeToggle]
    requests (optimized.js, lines 94-100):
    [body.classList.toggle('theme-dark')]. *)
Definition optimizedThemeFrame (p : ThemePage) : ThemePage :=
  setBodyClasses
    (λ cl, if bool_decide ("theme-dark" ∈ cl)
           then cl ∖ {["theme-dark"]} else cl ∪ {["theme-dark"]}) p.

(** The theme [isDark] is shown and stored consistently: body class,
    button class, both button attributes and the stored value agree. *)
Definition themeSynced (isDark : bool) (p : ThemePage) : Prop :=
  bool_decide ("theme-dark" ∈ bodyClasses p) = isDark
  ∧ localStorage p !! "site-theme" = Some (if isDark then "dark" else "light")
  ∧ ∃ btn : Button,
      toggleBtn p = Some btn
      ∧ bool_decide ("is-on" ∈ btnClasses btn) = isDark
      ∧ btnAttributes btn !! "aria-pressed" = Some (if isDark then "true" else "false")
      ∧ btnAttributes btn !! "aria-label"
        = Some (if isDark then "Activer le mode clair" else "Activer le mode sombre").

(** The number of clicks among the events. *)
Definition clicks (events : list ThemeEvent) : nat :=
  length (List.filter (λ e, match e with Click => true | Wait _ => false end) events).

(** A first visit in light system colours: a button, nothing stored. *)
Definition sampleThemePage : ThemePage :=
  {| bodyClasses := {["home"]};
     toggleBtn := Some {| btnClasses := {["toggle"]}; btnAttributes := ∅ |};
     localStorage := ∅; prefersDarkQuery := Some false;
     timeouts := ∅; nextTimeout := 1; pageTime := 0 |}.

(** The same page loaded again after the theme was switched to dark. *)
Definition reloadedThemePage : ThemePage :=
  {| bodyClasses := {["home"]};
     toggleBtn := Some {| btnClasses := {["toggle"]}; btnAttributes := ∅ |};
     localStorage := {["site-theme" := "dark"]}; prefersDarkQuery := Some false;
     timeouts := ∅; nextTimeout := 1; pageTime := 0 |}.

(** ** More notions for the gradient animator *)

(** The positions of a gradient lie in the windows that
    [generateRandomGradient] draws them from (lines 599-604). *)
Definition inWindows (grad : Gradient) : Prop :=
  (10 <= pos1X grad)%Q ∧ (pos1X grad <= 50)%Q
  ∧ (10 <= pos1Y grad)%Q ∧ (pos1Y grad <= 50)%Q
  ∧ (60 <= pos2X grad)%Q ∧ (pos2X grad <= 100)%Q
  ∧ (20 <= pos2Y grad)%Q ∧ (pos2Y grad <= 60)%Q
  ∧ (40 <= pos3X grad)%Q ∧ (pos3X grad <= 80)%Q
  ∧ (60 <= pos3Y grad)%Q ∧ (pos3Y grad <= 100)%Q.

(** A colour string that [parseColor] reads as a valid colour. *)
Definition validColorString (s : string) : Prop :=
  ∃ c : Color, parseColor (Some s) = Some c ∧ validColor c.

(** ** The active navigation link ([setupActiveNavHighlight], lines 243-271) *)

(** The ids of the four sections (lines 244-249); the link of a section
    is the element that [a[href="#id"]] selects. *)
Definition sectionIds : list string := ["hero"; "projects"; "about"; "contact"].

(** [navLinks] (line 250): the sections whose link exists.  The page maps
    a section id to the class list of its link. *)
Definition navLinksOf (links : gmap string ClassList) : list string :=
  List.filter (λ id : string, bool_decide (is_Some (links !! id))) sectionIds.

(** [navLinks.forEach((s) => s.el.classList.remove('active'))]. *)
Definition clearActive (navLinks : list string) (links : gmap string ClassList) :
    gmap string ClassList :=
  foldl (λ ls id, alter (λ cl : ClassList, cl ∖ {["active"]}) id ls) links navLinks.

(** The observer callback on one entry (lines 256-261): the id of the
    target and whether it intersects. *)
Definition navEntry (navLinks : list string) (entry : string * bool)
    (links : gmap string ClassList) : gmap string ClassList :=
  match List.find (λ id : string, String.eqb id entry.1) navLinks with
  | None => links
  | Some match_ =>
      if entry.2
      then alter (λ cl : ClassList, cl ∪ {["active"]}) match_ (clearActive navLinks links)
      else links
  end.

(** The observer callback on a batch of entries (lines 254-263). *)
Definition navCallback (navLinks : list string) (entries : list (string * bool))
    (links : gmap string ClassList) : gmap string ClassList :=
  foldl (λ ls entry, navEntry navLinks entry ls) links entries.

(** [setupActiveNavHighlight]: the [navLinks] of the observer it creates,
    or [None] after the early return of line 251. *)
Definition setupActiveNavHighlight (links : gmap string ClassList) : option (list string) :=
  let navLinks := navLinksOf links in
  if (length navLinks =? 0)%nat then None else Some navLinks.

(** The target of the last entry that intersects and has a link. *)
Definition lastShown (navLinks : list string) (entries : list (string * bool)) :
    option string :=
  last (List.filter (λ id : string, bool_decide (id ∈ navLinks))
          (fst <$> List.filter (λ entry : string * bool, entry.2) entries)).

(** A navigation bar without a link to the hero section. *)
Definition sampleNavLinks : gmap string ClassList :=
  {[ "projects" := {["nav-link"; "active"]};
     "about" := {["nav-link"]};
     "contact" := {["nav-link"; "cta"]} ]}.

(** ** The hero parallax ([setupHeroParallax], lines 172-194) *)

(** The closure state of [setupHeroParallax] and the style it writes:
    [rafPending] is the scroll position captured by the frame callback that
    is pending ([rafId] is set exactly while one is), [lastScrollY] the
    closure variable, [bgTransform] the value of [bg.style.transform]
    ([None] before the first write). *)
Record Parallax : Type := {
  rafPending : option Q;
  lastScrollY : Q;
  bgTransform : option string;
}.

(** What the page does to the parallax: a scroll event at position
    [window.scrollY], or the next animation frame. *)
Inductive ParallaxEvent : Type :=
| Scroll (scrollY : Q)
| Frame.

(** [Math.min] on two numbers. *)
Definition Math_min (a b : Q) : Q := if Qlt_le_dec b a then b else a.

Section Parallax.

Variable numberToString : Q → string.

(** The state after [setupHeroParallax] found the [.hero-bg] element. *)
Definition parallaxStart : Parallax :=
  {| rafPending := None; lastScrollY := 0; bgTransform := None |}.

(** [onScroll] (lines 178-192), up to the frame request; [window.scrollY || 0]
    is the scroll position itself, as it is a number. *)
Definition onScroll (scrollY : Q) (s : Parallax) : Parallax :=
  let currentScrollY := scrollY in
  if Qlt_le_dec (Qabs (currentScrollY - lastScrollY s)) 2 then s
  else match rafPending s with
       | Some _ => s
       | None => {| rafPending := Some currentScrollY;
                    lastScrollY := lastScrollY s;
                    bgTransform := bgTransform s |}
       end.

(** The template [`translate3d(0, ${translate}px, 0)`]. *)
Definition translate3d (translate : Q) : string :=
  "translate3d(0, " +:+ numberToString translate +:+ "px, 0)".

(** The frame callback (lines 184-191), when one is pending. *)
Definition parallaxFrame (s : Parallax) : Parallax :=
  match rafPending s with
  | None => s
  | Some currentScrollY =>
      let y := currentScrollY in
      let translate := Math_min 16 (y * 0.04) in
      {| rafPending := None; lastScrollY := y;
         bgTransform := Some (translate3d translate) |}
  end.

Definition parallaxStep (e : ParallaxEvent) (s : Parallax) : Parallax :=
  match e with
  | Scroll scrollY => onScroll scrollY s
  | Frame => parallaxFrame s
  end.

Definition parallaxRun (events : list ParallaxEvent) (s : Parallax) : Parallax :=
  foldl (λ s e, parallaxStep e s) s events.

End Parallax.

(** ** The card tilt ([setupCardTilt], lines 198-239) *)

(** A [DOMRect], as far as the tilt reads it. *)
Record Rect : Type := {
  rectLeft : Q;
  rectTop : Q;
  rectWidth : Q;
  rectHeight : Q;
}.

Record MouseEvent : Type := {
  clientX : Q;
  clientY : Q;
}.

(** One card with the closure state of its three listeners: [rect] and
    [rafId] are the closure variables ([rafId] is a request id, which is
    never zero, or [null]: only its truthiness is read), [tiltFrames] the
    mouse events captured by the frame callbacks that are requested and not
    yet run, and the three style properties that the listeners write. *)
Record Card : Type := {
  rect : option Rect;
  rafId : bool;
  tiltFrames : list MouseEvent;
  transform : option string;
  transition : option string;
  willChange : option string;
}.

Inductive CardEvent : Type :=
| MouseEnter (boundingClientRect : Rect)
| MouseMove (e : MouseEvent)
| MouseLeave
| AnimationFrame.

Definition maxTilt : Q := 6.

(** [onEnter] (lines 207-211). *)
Definition onEnter (boundingClientRect : Rect) (card : Card) : Card :=
  {| rect := Some boundingClientRect; rafId := rafId card;
     tiltFrames := tiltFrames card; transform := transform card;
     transition := Some "transform 120ms ease";
     willChange := Some "transform" |}.

(** [onMove] (lines 213-227), up to the frame request. *)
Definition onMove (e : MouseEvent) (card : Card) : Card :=
  if isNull (rect card) || rafId card then card
  else {| rect := rect card; rafId := true;
          tiltFrames := (tiltFrames card ++ [e])%list;
          transform := transform card; transition := transition card;
          willChange := willChange card |}.

(** [onLeave] (lines 229-233): the frame that is pending stays requested. *)
Definition onLeave (card : Card) : Card :=
  {| rect := rect card; rafId := false; tiltFrames := tiltFrames card;
     transform := Some "perspective(700px) rotateX(0deg) rotateY(0deg)";
     transition := transition card; willChange := Some "auto" |}.

(** Lines 216-223 before [toFixed]: the two angles [-dy * maxTilt] and
    [dx * maxTilt].  A rectangle without width or height makes the
    divisions give [NaN] or an infinity, which are outside the model:
    [None]. *)
Definition tiltAngles (r : Rect) (e : MouseEvent) : option (Q * Q) :=
  let x := (clientX e - rectLeft r)%Q in
  let y := (clientY e - rectTop r)%Q in
  let cx := (rectWidth r / 2)%Q in
  let cy := (rectHeight r / 2)%Q in
  if Qeq_bool cx 0 || Qeq_bool cy 0 then None
  else
    let dx := ((x - cx) / cx)%Q in
    let dy := ((y - cy) / cy)%Q in
    Some ((- dy * maxTilt)%Q, (dx * maxTilt)%Q).

(** The template of line 224 on the two printed angles. *)
Definition tiltTransform (rx ry : string) : string :=
  "perspective(700px) rotateX(" +:+ rx +:+ "deg) rotateY(" +:+ ry +:+ "deg)".

(** The frame callback (lines 215-226) for the mouse event it captured.
    [None]: [rect] is [null] (a [TypeError]), or the angles are not
    finite. *)
Definition tiltCallback (e : MouseEvent) (card : Card) : option Card :=
  r ← rect card;
  '(rx, ry) ← tiltAngles r e;
  Some {| rect := rect card; rafId := false; tiltFrames := tiltFrames card;
          transform := Some (tiltTransform (toFixed2 rx) (toFixed2 ry));
          transition := transition card; willChange := willChange card |}.

(** An animation frame runs the callbacks requested since the last one, in
    the order of the requests. *)
Definition tiltFrame (card : Card) : option Card :=
  foldl (λ acc e, acc ≫= tiltCallback e)
    (Some {| rect := rect card; rafId := rafId card; tiltFrames := [];
             transform := transform card; transition := transition card;
             willChange := willChange card |})
    (tiltFrames card).

Definition cardStep (ev : CardEvent) (card : Card) : option Card :=
  match ev with
  | MouseEnter boundingClientRect => Some (onEnter boundingClientRect card)
  | MouseMove e => Some (onMove e card)
  | MouseLeave => Some (onLeave card)
  | AnimationFrame => tiltFrame card
  end.

Definition cardRun (events : list CardEvent) (card : Card) : option Card :=
  foldl (λ acc ev, acc ≫= cardStep ev) (Some card) events.

(** A card before any of its listeners ran. *)
Definition cardStart : Card :=
  {| rect := None; rafId := false; tiltFrames := [];
     transform := None; transition := None; willChange := None |}.

Definition sampleRect : Rect :=
  {| rectLeft := 100; rectTop := 50; rectWidth := 300; rectHeight := 200 |}.

(** ** The counters ([animateCounters], lines 403-432) *)

(** What [element.textContent] holds: the text of the page, or the Number
    that a tick assigned last ([None] is [NaN]), which the element shows as
    its decimal string. *)
Inductive TextContent : Type :=
| PageText (text : string)
| Assigned (n : option Z).

(** One counter that came into view: the constant [target] ([None] when
    [parseInt] gave [NaN]), the closure variable [current] ([None] is
    [NaN]), the element's text and whether the interval [timer] is still
    set. *)
Record Counter : Type := {
  target : option Z;
  current : option Q;
  textContent : TextContent;
  timer : bool;
}.

(** The observer callback on an intersecting entry (lines 410-414), with
    [target] the result of [parseInt] on the [data-count] attribute. *)
Definition counterStart (target : option Z) (text : string) : Counter :=
  {| target := target; current := Some 0%Q; textContent := PageText text;
     timer := true |}.

(** One run of the interval callback (lines 416-424); a cleared interval
    does not run.  A comparison with [NaN] is false, and [Math.floor(NaN)]
    is [NaN]. *)
Definition counterTick (c : Counter) : Counter :=
  if timer c then
    let duration := 2000%Q in
    let step := t ← target c; Some (inject_Z t / (duration / 16))%Q in
    let current' := a ← current c; s ← step; Some (a + s)%Q in
    match current', target c with
    | Some cur, Some t =>
        if Qle_bool (inject_Z t) cur
        then {| target := target c; current := current';
                textContent := Assigned (Some t); timer := false |}
        else {| target := target c; current := current';
                textContent := Assigned (Some (Math_floor cur)); timer := true |}
    | _, _ => {| target := target c; current := current';
                 textContent := Assigned None; timer := true |}
    end
  else c.

(** The counter after [k] periods of the interval. *)
Definition counterTicks (k : nat) (c : Counter) : Counter :=
  Nat.iter k counterTick c.

(** ** The rate limiters of [optimized.js] ([debounce], lines 7-17, and
    [throttle], lines 20-29) *)

(** What happens to a wrapped function: a call with its arguments, or
    [dt] milliseconds that pass, after which the timeouts that are due
    have run. *)
Inductive LimiterEvent (A : Type) : Type :=
| Call (args : A)
| Elapse (dt : nat).

Arguments Call {A} args.
Arguments Elapse {A} dt.

(** The closure of [debounce(func, wait)]: the timer that [timeout] names
    while it is pending, with the time it is due and the arguments that
    its [later] captured; the clock; the arguments of the calls of [func]
    so far. *)
Record Debounce (A : Type) : Type := {
  timeout : option (nat * A);
  debounceNow : nat;
  debounceCalls : list A;
}.

Arguments timeout {A} d.
Arguments debounceNow {A} d.
Arguments debounceCalls {A} d.

(** The closure of [throttle(func, limit)]: the flag, the times at which
    the pending timeouts that reset it are due, the clock, and the calls of
    [func] so far, each with the time it was made at. *)
Record Throttle (A : Type) : Type := {
  inThrottle : bool;
  throttleTimers : list nat;
  throttleNow : nat;
  throttleCalls : list (nat * A);
}.

Arguments inThrottle {A} t.
Arguments throttleTimers {A} t.
Arguments throttleNow {A} t.
Arguments throttleCalls {A} t.

Section Limiters.

Context {A : Type}.

(** [debounce(func, wait)] before the first call. *)
Definition debounce : Debounce A :=
  {| timeout := None; debounceNow := 0; debounceCalls := [] |}.

(** [executedFunction(...args)] (lines 9-16): the pending timer is
    cleared and a new one set. *)
Definition executedFunction (wait : nat) (args : A) (d : Debounce A) : Debounce A :=
  {| timeout := Some (debounceNow d + wait, args);
     debounceNow := debounceNow d; debounceCalls := debounceCalls d |}.

(** Time passes; a timer that is due runs [later] (lines 10-13). *)
Definition debounceElapse (dt : nat) (d : Debounce A) : Debounce A :=
  let now := debounceNow d + dt in
  match timeout d with
  | Some (due, args) =>
      if (due <=? now)%nat
      then {| timeout := None; debounceNow := now;
              debounceCalls := (debounceCalls d ++ [args])%list |}
      else {| timeout := timeout d; debounceNow := now;
              debounceCalls := debounceCalls d |}
  | None => {| timeout := None; debounceNow := now;
               debounceCalls := debounceCalls d |}
  end.

Definition debounceStep (wait : nat) (ev : LimiterEvent A) (d : Debounce A) : Debounce A :=
  match ev with
  | Call args => executedFunction wait args d
  | Elapse dt => debounceElapse dt d
  end.

Definition debounceRun (wait : nat) (events : list (LimiterEvent A)) (d : Debounce A) : Debounce A :=
  foldl (λ d ev, debounceStep wait ev d) d events.

(** A burst: calls, each followed by the pause before the next one. *)
Definition burst (calls : list (A * nat)) : list (LimiterEvent A) :=
  flat_map (λ c : A * nat, [Call c.1; Elapse c.2]) calls.

(** [throttle(func, limit)] before the first call ([inThrottle] is
    [undefined]). *)
Definition throttle : Throttle A :=
  {| inThrottle := false; throttleTimers := []; throttleNow := 0;
     throttleCalls := [] |}.

(** The function that [throttle] returns (lines 22-28). *)
Definition throttled (limit : nat) (args : A) (t : Throttle A) : Throttle A :=
  if negb (inThrottle t)
  then {| inThrottle := true;
          throttleTimers := (throttleTimers t ++ [throttleNow t + limit])%list;
          throttleNow := throttleNow t;
          throttleCalls := (throttleCalls t ++ [(throttleNow t, args)])%list |}
  else t.

(** Time passes; the timeouts that are due reset the flag (line 26). *)
Definition throttleElapse (dt : nat) (t : Throttle A) : Throttle A :=
  let now := throttleNow t + dt in
  let due := filter (λ due : nat, (due ≤ now)%nat) (throttleTimers t) in
  {| inThrottle := if bool_decide (due = []) then inThrottle t else false;
     throttleTimers := filter (λ due : nat, ¬ (due ≤ now)%nat) (throttleTimers t);
     throttleNow := now; throttleCalls := throttleCalls t |}.

Definition throttleStep (limit : nat) (ev : LimiterEvent A) (t : Throttle A) : Throttle A :=
  match ev with
  | Call args => throttled limit args t
  | Elapse dt => throttleElapse dt t
  end.

Definition throttleRun (limit : nat) (events : list (LimiterEvent A)) (t : Throttle A) : Throttle A :=
  foldl (λ t ev, throttleStep limit ev t) t events.

End Limiters.

(** ** The click animation of links and social cards
    ([setupClickAnimations], lines 288-325) *)

(** What a timeout set by the click listener does when it runs: remove
    the ripple it was created for (line 317), or take the two classes off
    (lines 320-323). *)
Inductive ClickTimer : Type :=
| RemoveRipple (ripple : nat)
| RemoveClasses.

(** One [.project-link] or [.social-card] element: its class list, its
    inline [position], the ripple spans among its children (each with the
    number of the click that created it and its [left] and [top] in
    pixels), the pending timeouts with the time they are due, and the
    clock. *)
Record Clickable : Type := {
  clickClasses : ClassList;
  stylePosition : string;
  ripples : list (nat * (Q * Q));
  clickTimers : list (nat * ClickTimer);
  clickCount : nat;
  clickNow : nat;
}.

Inductive ClickEvent : Type :=
| Clicked (e : MouseEvent) (boundingClientRect : Rect)
| Passed (dt : nat).

(** The click listener (lines 289-324). *)
Definition onClick (e : MouseEvent) (boundingClientRect : Rect) (el : Clickable) : Clickable :=
  let rect := boundingClientRect in
  let x := (clientX e - rectLeft rect)%Q in
  let y := (clientY e - rectTop rect)%Q in
  let ripple := clickCount el in
  {| clickClasses := clickClasses el ∪ {["clicked"]} ∪ {["glow-click"]};
     stylePosition := if decide (stylePosition el = "static") then "relative"
                      else stylePosition el;
     ripples := (ripples el ++ [(ripple, (x, y))])%list;
     clickTimers := (clickTimers el
                     ++ [((clickNow el + 600)%nat, RemoveRipple ripple);
                         ((clickNow el + 500)%nat, RemoveClasses)])%list;
     clickCount := S (clickCount el);
     clickNow := clickNow el |}.

(** A timeout of the listener runs. *)
Definition runClickTimer (timer : ClickTimer) (el : Clickable) : Clickable :=
  match timer with
  | RemoveRipple ripple =>
      {| clickClasses := clickClasses el; stylePosition := stylePosition el;
         ripples := filter (λ r : nat * (Q * Q), r.1 ≠ ripple) (ripples el);
         clickTimers := clickTimers el; clickCount := clickCount el;
         clickNow := clickNow el |}
  | RemoveClasses =>
      {| clickClasses := clickClasses el ∖ {["clicked"]} ∖ {["glow-click"]};
         stylePosition := stylePosition el; ripples := ripples el;
         clickTimers := clickTimers el; clickCount := clickCount el;
         clickNow := clickNow el |}
  end.

(** [dt] milliseconds pass and the timeouts that are due run. *)
Definition clickElapse (dt : nat) (el : Clickable) : Clickable :=
  let now := (clickNow el + dt)%nat in
  let due := filter (λ t : nat * ClickTimer, (t.1 ≤ now)%nat) (clickTimers el) in
  foldl (λ el t, runClickTimer t.2 el)
    {| clickClasses := clickClasses el; stylePosition := stylePosition el;
       ripples := ripples el;
       clickTimers := filter (λ t : nat * ClickTimer, ¬ (t.1 ≤ now)%nat) (clickTimers el);
       clickCount := clickCount el; clickNow := now |}
    due.

Definition clickStep (ev : ClickEvent) (el : Clickable) : Clickable :=
  match ev with
  | Clicked e boundingClientRect => onClick e boundingClientRect el
  | Passed dt => clickElapse dt el
  end.

Definition clickRun (events : list ClickEvent) (el : Clickable) : Clickable :=
  foldl (λ el ev, clickStep ev el) el events.

(** An element that was not clicked yet. *)
Definition clickable (classes : ClassList) (position : string) : Clickable :=
  {| clickClasses := classes; stylePosition := position; ripples := [];
     clickTimers := []; clickCount := 0; clickNow := 0 |}.

Definition hasClick (events : list ClickEvent) : bool :=
  existsb (λ ev, if ev is Clicked _ _ then true else false) events.

(** What holds of a clicked element at every moment: every pending
    timeout is due within 600 ms, every ripple has its removal pending,
    the two animation classes are on only while their removal is pending,
    and the other classes are those of the page. *)
Definition clickInvariant (classes : ClassList) (clicked : bool) (el : Clickable) : Prop :=
  (∀ (due : nat) (timer : ClickTimer),
     (due, timer) ∈ clickTimers el → (due ≤ clickNow el + 600)%nat)
  ∧ (∀ r : nat * (Q * Q), r ∈ ripples el →
       ∃ due : nat, (due, RemoveRipple r.1) ∈ clickTimers el)
  ∧ (∀ c : string, c = "clicked" ∨ c = "glow-click" → c ∈ clickClasses el →
       clicked = false ∨ ∃ due : nat, (due, RemoveClasses) ∈ clickTimers el)
  ∧ (∀ c : string, c ≠ "clicked" → c ≠ "glow-click" →
       (c ∈ clickClasses el ↔ c ∈ classes))
  ∧ (clicked = false →
       clickClasses el = classes ∧ ripples el = [] ∧ clickTimers el = []).

(** ** The card parallax ([setupCardParallax], lines 436-450) *)

(** The offset that the scroll listener computes for one card (lines
    442-445) from [rect.top] and [window.innerHeight]; [None] when the
    card is left as it is.  A window without height makes [scrollPercent]
    an infinity or [NaN], for which the test of line 444 is false. *)
Definition cardParallaxOffset (top innerHeight : Q) : option Q :=
  if Qeq_bool innerHeight 0 then None
  else
    let scrollPercent := (top / innerHeight)%Q in
    if Qlt_le_dec (-0.5) scrollPercent
    then if Qlt_le_dec scrollPercent 1
         then let translateY := ((scrollPercent - 0.5) * 20)%Q in Some translateY
         else None
    else None.

Section CardParallax.

Variable numberToString : Q → string.

(** The body of the [forEach] (lines 441-448) on the [transform] of one
    card. *)
Definition cardParallax (top innerHeight : Q) (transform : option string) : option string :=
  match cardParallaxOffset top innerHeight with
  | Some translateY => Some ("translateY(" +:+ numberToString translateY +:+ "px)")
  | None => transform
  end.

End CardParallax.
(** ** Facts about the built-ins *)

Lemma Math_round_Qeq (x y : Q) : x == y → Math_round x = Math_round y.
Proof. intros E. unfold Math_round. apply Qfloor_comp. now rewrite E. Qed.

Lemma Math_round_inject (z : Z) : Math_round (inject_Z z) = z.
Proof.
  unfold Math_round.
  pose proof (Qfloor_le (inject_Z z + (1 # 2))) as Hle.
  pose proof (Qlt_floor (inject_Z z + (1 # 2))) as Hlt.
  set (F := Qfloor _) in *.
  assert (inject_Z F < inject_Z (z + 1))%Q as H1
    by (rewrite inject_Z_plus; change (inject_Z 1) with 1%Q; lra).
  assert (inject_Z z < inject_Z (F + 1))%Q as H2 by lra.
  rewrite <- Zlt_Qlt in H1, H2. lia.
Qed.

(** Rounding keeps a value between two integer bounds. *)
Lemma Math_round_between (lo hi : Z) (x : Q) :
  (inject_Z lo <= x)%Q → (x <= inject_Z hi)%Q →
  (lo ≤ Math_round x ≤ hi)%Z.
Proof.
  intros Hlo Hhi. rewrite <- (Math_round_inject lo), <- (Math_round_inject hi).
  unfold Math_round. split; apply Qfloor_resp_le; lra.
Qed.

Lemma toFixed2_Qeq (x y : Q) : x == y → toFixed2 x = toFixed2 y.
Proof.
  intros E. unfold toFixed2.
  assert (Qfloor (Qabs x * 100 + (1 # 2)) = Qfloor (Qabs y * 100 + (1 # 2))) as ->
    by (apply Qfloor_comp; now rewrite E).
  destruct (Qlt_le_dec x 0), (Qlt_le_dec y 0); try reflexivity; lra.
Qed.

(** An alpha in [0,1] is printed as a whole number of hundredths between
    0 and 100, the nearest one. *)
Lemma toFixed2_unit (x : Q) :
  (0 <= x)%Q → (x <= 1)%Q →
  ∃ n : Z, toFixed2 x = hundredths n ∧ (0 ≤ n ≤ 100)%Z
           ∧ (inject_Z n <= x * 100 + (1 # 2))%Q
           ∧ (x * 100 + (1 # 2) < inject_Z n + 1)%Q.
Proof.
  intros H0 H1. exists (Math_round (x * 100)). unfold toFixed2.
  assert (Qabs x == x) as E by (apply Qabs_pos; exact H0).
  assert (Qfloor (Qabs x * 100 + (1 # 2)) = Math_round (x * 100)) as ->
    by (unfold Math_round; apply Qfloor_comp; now rewrite E).
  destruct (Qlt_le_dec x 0) as [Hneg | _]; [lra |].
  split; [reflexivity |]. split.
  - apply Math_round_between; [change (inject_Z 0) with 0%Q
                              | change (inject_Z 100) with 100%Q]; lra.
  - unfold Math_round. split; [apply Qfloor_le |].
    pose proof (Qlt_floor (x * 100 + (1 # 2))) as Hlt.
    rewrite inject_Z_plus in Hlt. exact Hlt.
Qed.

(** The hundredths 0..100 are read back by [parseFloat] as [n / 100]. *)
Lemma parseFloat_hundredths (n : Z) :
  (0 ≤ n ≤ 100)%Z →
  ∃ q : Q, parseFloat (hundredths n) = Some q ∧ q == inject_Z n / 100.
Proof.
  intros Hn.
  assert (forallb (λ k : nat,
            match parseFloat (hundredths (Z.of_nat k)) with
            | Some q => Qeq_bool q (inject_Z (Z.of_nat k) / 100)
            | None => false
            end) (seq 0 101) = true) as Hall by (vm_compute; reflexivity).
  rewrite forallb_forall in Hall.
  specialize (Hall (Z.to_nat n)).
  rewrite Z2Nat.id in Hall by lia.
  destruct (parseFloat (hundredths n)) as [q |].
  - exists q. split; [reflexivity |]. apply Qeq_bool_iff, Hall.
    apply in_seq. lia.
  - discriminate Hall. apply in_seq. lia.
Qed.

(** ** Facts about the number scanner *)

Lemma string_app_assoc (s1 s2 s3 : string) :
  (s1 +:+ s2) +:+ s3 = s1 +:+ (s2 +:+ s3).
Proof.
  induction s1 as [| c s1 IH]; [reflexivity |].
  change (String c ((s1 +:+ s2) +:+ s3) = String c (s1 +:+ (s2 +:+ s3))).
  f_equal. exact IH.
Qed.

Lemma string_app_nil_r (s : string) : s +:+ "" = s.
Proof.
  induction s as [| c s IH]; [reflexivity |].
  change (String c (s +:+ "") = String c s). f_equal. exact IH.
Qed.

Lemma matchFrom_int_run (ds tok : string) (c : ascii) (rest : string) :
  allDigits ds = true → isDigit c = false → c ≠ "."%char →
  matchFrom (IntPart tok) (ds +:+ String c rest)
  = (tok +:+ ds) :: matchFrom Outside rest.
Proof.
  revert tok. induction ds as [| d ds IH]; intros tok Hds Hc Hdot.
  - rewrite string_app_nil_r. change ("" +:+ String c rest) with (String c rest).
    cbn [matchFrom]. rewrite Hc.
    apply Ascii.eqb_neq in Hdot. rewrite Hdot. reflexivity.
  - unfold allDigits in Hds. cbn in Hds. apply andb_true_iff in Hds as [Hd Hds].
    change (String d ds +:+ String c rest) with (String d (ds +:+ String c rest)).
    cbn [matchFrom]. rewrite Hd. rewrite IH by assumption.
    unfold snoc. rewrite string_app_assoc. reflexivity.
Qed.

Lemma matchFrom_channel (d : ascii) (ds rest : string) :
  allDigits (String d ds) = true →
  matchFrom Outside (String d ds +:+ ", " +:+ rest)
  = String d ds :: matchFrom Outside rest.
Proof.
  intros Hds. unfold allDigits in Hds. cbn in Hds.
  apply andb_true_iff in Hds as [Hd Hds].
  change (String d ds +:+ ", " +:+ rest)
    with (String d (ds +:+ String "," (String " " rest))).
  cbn [matchFrom]. rewrite Hd.
  rewrite matchFrom_int_run by (assumption || reflexivity || discriminate).
  reflexivity.
Qed.

Lemma intToString_channel (z : Z) :
  (0 ≤ z ≤ 255)%Z →
  ∃ (d : ascii) (ds : string),
    intToString z = String d ds ∧ allDigits (String d ds) = true
    ∧ parseInt (String d ds) = Some z.
Proof.
  intros Hz.
  assert (forallb (λ k : nat,
            match intToString (Z.of_nat k) with
            | String d ds =>
                allDigits (String d ds)
                && match parseInt (String d ds) with
                   | Some v => (v =? Z.of_nat k)%Z
                   | None => false
                   end
            | EmptyString => false
            end) (seq 0 256) = true) as Hall by (vm_compute; reflexivity).
  rewrite forallb_forall in Hall. specialize (Hall (Z.to_nat z)).
  rewrite Z2Nat.id in Hall by lia.
  assert (In (Z.to_nat z) (seq 0 256)) as Hin by (apply in_seq; lia).
  specialize (Hall Hin).
  destruct (intToString z) as [| d ds]; [discriminate |].
  apply andb_true_iff in Hall as [Hd Hp].
  exists d, ds. split; [reflexivity |]. split; [exact Hd |].
  destruct (parseInt (String d ds)) as [v |]; [| discriminate].
  apply Z.eqb_eq in Hp. now subst.
Qed.

Lemma hundredths_token (n : Z) :
  (0 ≤ n ≤ 100)%Z →
  matchFrom Outside (hundredths n +:+ ")") = [hundredths n].
Proof.
  intros Hn.
  assert (forallb (λ k : nat,
            bool_decide (matchFrom Outside (hundredths (Z.of_nat k) +:+ ")")
                         = [hundredths (Z.of_nat k)])) (seq 0 101) = true)
    as Hall by (vm_compute; reflexivity).
  rewrite forallb_forall in Hall. specialize (Hall (Z.to_nat n)).
  rewrite Z2Nat.id in Hall by lia.
  apply bool_decide_eq_true in Hall; [exact Hall |]. apply in_seq. lia.
Qed.

Lemma matchFrom_rgba (d1 d2 d3 : ascii) (ds1 ds2 ds3 : string) (n : Z) :
  allDigits (String d1 ds1) = true → allDigits (String d2 ds2) = true →
  allDigits (String d3 ds3) = true → (0 ≤ n ≤ 100)%Z →
  matchFrom Outside
    ("rgba(" +:+ String d1 ds1 +:+ ", " +:+ String d2 ds2 +:+ ", "
       +:+ String d3 ds3 +:+ ", " +:+ hundredths n +:+ ")")
  = [String d1 ds1; String d2 ds2; String d3 ds3; hundredths n].
Proof.
  intros A1 A2 A3 Hn.
  change (matchFrom Outside ("rgba(" +:+ ?x)) with (matchFrom Outside x).
  rewrite !matchFrom_channel by assumption.
  rewrite (hundredths_token n Hn). reflexivity.
Qed.

(** A printed colour with channels in 0..255 and an alpha of 0..100
    hundredths is read back by [parseColor] as that colour. *)
Lemma parseColor_rgba (r' g' b' n : Z) :
  (0 ≤ r' ≤ 255)%Z → (0 ≤ g' ≤ 255)%Z → (0 ≤ b' ≤ 255)%Z → (0 ≤ n ≤ 100)%Z →
  ∃ alpha : Q,
    parseColor (Some (rgba r' g' b' (hundredths n)))
    = Some {| r := r'; g := g'; b := b'; a := alpha |}
    ∧ parseFloat (hundredths n) = Some alpha
    ∧ alpha == inject_Z n / 100.
Proof.
  intros Hr Hg Hb Hn.
  destruct (intToString_channel r' Hr) as (d1 & ds1 & E1 & A1 & P1).
  destruct (intToString_channel g' Hg) as (d2 & ds2 & E2 & A2 & P2).
  destruct (intToString_channel b' Hb) as (d3 & ds3 & E3 & A3 & P3).
  destruct (parseFloat_hundredths n Hn) as (alpha & Pa & Ea).
  exists alpha. split; [| split; assumption].
  unfold parseColor, rgba. rewrite E1, E2, E3.
  cbn [mbind option_bind]. unfold matchNumbers.
  rewrite (matchFrom_rgba _ _ _ _ _ _ n A1 A2 A3 Hn).
  cbn [mbind option_bind lookup list_lookup].
  rewrite P1, P2, P3, Pa. reflexivity.
Qed.

(** ** Facts about colours *)

Lemma lerpColor_parsed (s1 s2 : option string) (c1 c2 : Color) (t : Q) :
  parseColor s1 = Some c1 → parseColor s2 = Some c2 →
  lerpColor s1 s2 t =
    Some (rgba
      (Math_round (inject_Z (r c1) + (inject_Z (r c2) - inject_Z (r c1)) * t))
      (Math_round (inject_Z (g c1) + (inject_Z (g c2) - inject_Z (g c1)) * t))
      (Math_round (inject_Z (b c1) + (inject_Z (b c2) - inject_Z (b c1)) * t))
      (toFixed2 (a c1 + (a c2 - a c1) * t))).
Proof. intros H1 H2. unfold lerpColor. rewrite H1, H2. reflexivity. Qed.

(** [lerpColor] depends on the value of [t] only. *)
Lemma lerpColor_Qeq (s1 s2 : option string) (t t' : Q) :
  t == t' → lerpColor s1 s2 t = lerpColor s1 s2 t'.
Proof.
  intros E.
  destruct (parseColor s1) as [c1 |] eqn:P1;
    [| unfold lerpColor; rewrite P1; reflexivity].
  destruct (parseColor s2) as [c2 |] eqn:P2;
    [| unfold lerpColor; rewrite P1, P2; reflexivity].
  rewrite !(lerpColor_parsed _ _ _ _ _ P1 P2). f_equal.
  rewrite (toFixed2_Qeq (a c1 + (a c2 - a c1) * t) (a c1 + (a c2 - a c1) * t'))
    by (now rewrite E).
  f_equal; apply Math_round_Qeq; now rewrite E.
Qed.

(** Rewrite the first rounded channel whose argument has the value of the
    integer [z] into [z]. *)
Ltac round_to z :=
  rewrite (Math_round_Qeq _ (inject_Z z)) by ring;
  rewrite (Math_round_inject z).

Lemma lerpColor_start (s1 s2 : option string) (c1 c2 : Color) :
  parseColor s1 = Some c1 → parseColor s2 = Some c2 →
  lerpColor s1 s2 0 = Some (printColor c1).
Proof.
  intros H1 H2. rewrite (lerpColor_parsed _ _ _ _ _ H1 H2). unfold printColor.
  round_to (r c1). round_to (g c1). round_to (b c1).
  rewrite (toFixed2_Qeq (a c1 + (a c2 - a c1) * 0) (a c1)) by ring. reflexivity.
Qed.

Lemma lerpColor_end (s1 s2 : option string) (c1 c2 : Color) :
  parseColor s1 = Some c1 → parseColor s2 = Some c2 →
  lerpColor s1 s2 1 = Some (printColor c2).
Proof.
  intros H1 H2. rewrite (lerpColor_parsed _ _ _ _ _ H1 H2). unfold printColor.
  round_to (r c2). round_to (g c2). round_to (b c2).
  rewrite (toFixed2_Qeq (a c1 + (a c2 - a c1) * 1) (a c2)) by ring. reflexivity.
Qed.

Lemma lerpColor_same (s : option string) (c : Color) (t : Q) :
  parseColor s = Some c → lerpColor s s t = Some (printColor c).
Proof.
  intros H. rewrite (lerpColor_parsed _ _ _ _ _ H H). unfold printColor.
  round_to (r c). round_to (g c). round_to (b c).
  rewrite (toFixed2_Qeq (a c + (a c - a c) * t) (a c)) by ring. reflexivity.
Qed.

(** Case analysis on a membership in the palette. *)
Ltac palette_cases H :=
  unfold colors in H;
  repeat (apply elem_of_cons in H as [-> | H]);
  [.. | apply elem_of_nil in H; destruct H].

(** Close a membership of a literal in the palette. *)
Ltac palette_member :=
  unfold colors;
  repeat first [apply list_elem_of_here | apply list_elem_of_further].

(** Every palette entry parses to a valid colour and is printed back
    unchanged. *)
Lemma palette_parse (s : string) :
  s ∈ colors →
  ∃ c : Color, parseColor (Some s) = Some c ∧ validColor c ∧ printColor c = s.
Proof.
  intros H. palette_cases H; eexists; (split; [vm_compute; reflexivity |]);
    (split; [| vm_compute; reflexivity]);
    unfold validColor; cbn; repeat split; try lia; lra.
Qed.

Lemma inPalette_parse (c : option string) :
  inPalette c → ∃ s col, c = Some s ∧ s ∈ colors
                         ∧ parseColor c = Some col ∧ validColor col
                         ∧ printColor col = s.
Proof.
  destruct c as [s |]; [| intros []]. cbn. intros H.
  destruct (palette_parse s H) as (col & Hp & Hv & Hs). eauto 10.
Qed.

Lemma lerpColor_palette (c1 c2 : option string) (t : Q) :
  inPalette c1 → inPalette c2 → is_Some (lerpColor c1 c2 t).
Proof.
  intros H1 H2.
  destruct (inPalette_parse _ H1) as (? & k1 & _ & _ & P1 & _).
  destruct (inPalette_parse _ H2) as (? & k2 & _ & _ & P2 & _).
  rewrite (lerpColor_parsed _ _ _ _ t P1 P2). eauto.
Qed.

(** ** Facts about the generator *)

Section GeneratorFacts.

Variable random : nat → Q.

Lemma generateRandomGradient_run (w : World) :
  generateRandomGradient random w
  = Some (gradientAt random (draws w), afterDraws 9 w).
Proof. reflexivity. Qed.

Hypothesis random_range : ∀ n : nat, (0 <= random n)%Q ∧ (random n < 1)%Q.

Lemma colorAt_palette (n : nat) : inPalette (colorAt random n).
Proof.
  destruct (random_range n) as [H0 H1]. unfold colorAt, Math_floor.
  change (inject_Z (Z.of_nat (length colors))) with 4%Q.
  assert (0 ≤ Qfloor (random n * 4) ≤ 3)%Z as Hi.
  { split.
    - rewrite <- (Qfloor_Z 0). apply Qfloor_resp_le.
      change (inject_Z 0) with 0%Q. lra.
    - pose proof (Qfloor_le (random n * 4)) as Hle.
      assert (inject_Z (Qfloor (random n * 4)) < inject_Z 4)%Q as Hlt
        by (change (inject_Z 4) with 4%Q; lra).
      rewrite <- Zlt_Qlt in Hlt. lia. }
  set (i := Qfloor (random n * 4)) in *.
  assert (i = 0 ∨ i = 1 ∨ i = 2 ∨ i = 3)%Z as [-> | [-> | [-> | ->]]] by lia;
    cbn; palette_member.
Qed.

Lemma gradientAt_palette (n : nat) : paletteGradient (gradientAt random n).
Proof. repeat split; apply colorAt_palette. Qed.

End GeneratorFacts.

(** ** One frame of [animate] *)

Section FrameFacts.

Variable numberToString : Q → string.
Variable random : nat → Q.
Hypothesis random_range : ∀ n : nat, (0 <= random n)%Q ∧ (random n < 1)%Q.

Lemma nextAnim_wf (st : Anim) (w : World) :
  wfAnim st → wfAnim (nextAnim random st w).
Proof.
  intros [Hc Ht]. unfold nextAnim. destruct (rotates st w); split; cbn;
    try assumption. apply gradientAt_palette, random_range.
Qed.

(** After the colours are known, the rest of a frame: both optional
    writes and the next frame request. *)
Ltac finish_frame st :=
  unfold orThrow, mret, M_ret; cbv beta iota;
  match goal with |- context [gradientToString ?f ?x] =>
    generalize (gradientToString f x) end;
  intros ?; clear;
  unfold frameWrites, frameStyles, setProperty, requestAnimationFrame, log,
    afterDraws;
  destruct (wrapper st), (topbar st);
  cbn [document clock draws trace]; cbv beta iota;
  cbn [document clock draws trace];
  rewrite <- ?app_assoc; reflexivity.

(** [animate] never throws on a well-formed closure state, and it leaves
    [nextAnim] and [nextWorld] behind. *)
Lemma animate_run (st : Anim) (w : World) :
  wfAnim st →
  ∃ c1 c2 c3 : string,
    let st' := nextAnim random st w in
    lerpColor (color1 (currentGradient st')) (color1 (targetGradient st'))
              (animationProgress st') = Some c1
    ∧ lerpColor (color2 (currentGradient st')) (color2 (targetGradient st'))
                (animationProgress st') = Some c2
    ∧ lerpColor (color3 (currentGradient st')) (color3 (targetGradient st'))
                (animationProgress st') = Some c3
    ∧ animate numberToString random st w
      = Some (st', nextWorld st
                     (gradientToString numberToString (interpGrad st' c1 c2 c3)) w).
Proof.
  intros Hwf.
  pose proof (nextAnim_wf st w Hwf) as [(C1 & C2 & C3) (T1 & T2 & T3)].
  set (st' := nextAnim random st w) in *.
  destruct (lerpColor_palette _ _ (animationProgress st') C1 T1) as [c1 H1].
  destruct (lerpColor_palette _ _ (animationProgress st') C2 T2) as [c2 H2].
  destruct (lerpColor_palette _ _ (animationProgress st') C3 T3) as [c3 H3].
  exists c1, c2, c3. cbv zeta. repeat (split; [assumption |]).
  subst st'. unfold nextWorld, interpGrad, nextAnim in *.
  unfold animate, mbind, M_bind, Date_now.
  cbv beta iota.
  fold (rawProgress st w). fold (rotates st w).
  destruct (rotates st w);
    cbn [currentGradient targetGradient animationProgress animationDuration
         lastTime wrapper topbar] in *.
  - rewrite generateRandomGradient_run. unfold mret, M_ret. cbv beta iota.
    rewrite H1, H2, H3. finish_frame st.
  - unfold mret, M_ret. cbv beta iota.
    rewrite H1, H2, H3. finish_frame st.
Qed.

End FrameFacts.

(** ** Interpolation of colours: end points, range, identity *)

(** C3: for every pair of palette colours, [lerpColor] at [t = 0] returns
    the first colour and at [t = 1] the second one; on the palette the
    rounding of the channels and the two-decimal printing of the alpha
    change nothing, so the strings are equal. *)
Theorem lerpColor_endpoints (s1 s2 : string) :
  s1 ∈ colors → s2 ∈ colors →
  lerpColor (Some s1) (Some s2) 0 = Some s1
  ∧ lerpColor (Some s1) (Some s2) 1 = Some s2.
Proof.
  intros H1 H2.
  destruct (palette_parse s1 H1) as (c1 & P1 & _ & E1).
  destruct (palette_parse s2 H2) as (c2 & P2 & _ & E2).
  rewrite (lerpColor_start _ _ _ _ P1 P2), (lerpColor_end _ _ _ _ P1 P2).
  rewrite E1, E2. split; reflexivity.
Qed.

Lemma lerpColor_endpoints_witness :
  "rgba(255, 127, 180, 0.55)" ∈ colors
  ∧ "rgba(20, 184, 166, 0.55)" ∈ colors
  ∧ lerpColor (Some "rgba(255, 127, 180, 0.55)")
              (Some "rgba(20, 184, 166, 0.55)") 0
    = Some "rgba(255, 127, 180, 0.55)"
  ∧ lerpColor (Some "rgba(255, 127, 180, 0.55)")
              (Some "rgba(20, 184, 166, 0.55)") 1
    = Some "rgba(20, 184, 166, 0.55)".
Proof.
  assert ("rgba(255, 127, 180, 0.55)" ∈ colors) as H1 by palette_member.
  assert ("rgba(20, 184, 166, 0.55)" ∈ colors) as H2 by palette_member.
  split; [exact H1 |]. split; [exact H2 |].
  exact (lerpColor_endpoints _ _ H1 H2).
Defined.

(** A channel interpolated between two channels in 0..255 at a parameter
    in [0,1] rounds to an integer in 0..255. *)
Lemma channel_range (x y : Z) (t : Q) :
  (0 ≤ x ≤ 255)%Z → (0 ≤ y ≤ 255)%Z → (0 <= t)%Q → (t <= 1)%Q →
  (0 ≤ Math_round (inject_Z x + (inject_Z y - inject_Z x) * t) ≤ 255)%Z.
Proof.
  intros [Hx0 Hx1] [Hy0 Hy1] Ht0 Ht1.
  rewrite Zle_Qle in Hx0, Hx1, Hy0, Hy1.
  change (inject_Z 0) with 0%Q in *. change (inject_Z 255) with 255%Q in *.
  apply Math_round_between;
    [change (inject_Z 0) with 0%Q | change (inject_Z 255) with 255%Q]; nra.
Qed.

(** C4: for valid colours and [t] in [0,1], [lerpColor] returns a colour
    that [parseColor] reads back as a valid one: three integer channels in
    0..255, the rounded interpolations, and an alpha in [0,1] with two
    decimals, namely [n / 100] for the whole number [n] of hundredths
    nearest to the interpolated alpha. *)
Theorem lerpColor_range (s1 s2 : option string) (c1 c2 : Color) (t : Q) :
  parseColor s1 = Some c1 → parseColor s2 = Some c2 →
  validColor c1 → validColor c2 →
  (0 <= t)%Q → (t <= 1)%Q →
  ∃ (out : string) (c : Color) (n : Z),
    lerpColor s1 s2 t = Some out
    ∧ parseColor (Some out) = Some c
    ∧ validColor c
    ∧ r c = Math_round (inject_Z (r c1) + (inject_Z (r c2) - inject_Z (r c1)) * t)
    ∧ g c = Math_round (inject_Z (g c1) + (inject_Z (g c2) - inject_Z (g c1)) * t)
    ∧ b c = Math_round (inject_Z (b c1) + (inject_Z (b c2) - inject_Z (b c1)) * t)
    ∧ out = rgba (r c) (g c) (b c) (hundredths n)
    ∧ (0 ≤ n ≤ 100)%Z
    ∧ a c == inject_Z n / 100
    ∧ (inject_Z n <= (a c1 + (a c2 - a c1) * t) * 100 + (1 # 2))%Q
    ∧ ((a c1 + (a c2 - a c1) * t) * 100 + (1 # 2) < inject_Z n + 1)%Q.
Proof.
  intros P1 P2 (R1 & G1 & B1 & A1) (R2 & G2 & B2 & A2) Ht0 Ht1.
  destruct (toFixed2_unit (a c1 + (a c2 - a c1) * t)) as (n & En & Hn & Hlo & Hhi);
    [nra | nra |].
  pose proof (channel_range _ _ t R1 R2 Ht0 Ht1) as Hr.
  pose proof (channel_range _ _ t G1 G2 Ht0 Ht1) as Hg.
  pose proof (channel_range _ _ t B1 B2 Ht0 Ht1) as Hb.
  destruct (parseColor_rgba _ _ _ n Hr Hg Hb Hn) as (alpha & Hp & _ & Ea).
  eexists. eexists. exists n.
  split; [rewrite (lerpColor_parsed _ _ _ _ t P1 P2), En; reflexivity |].
  split; [exact Hp |]. cbn [r g b a].
  assert ((0 <= alpha)%Q ∧ (alpha <= 1)%Q) as Halpha.
  { destruct Hn as [Hn0 Hn1]. rewrite Zle_Qle in Hn0, Hn1.
    change (inject_Z 0) with 0%Q in Hn0. change (inject_Z 100) with 100%Q in Hn1.
    rewrite Ea. split; [apply Qle_shift_div_l | apply Qle_shift_div_r]; lra. }
  split; [unfold validColor; cbn [r g b a]; tauto |].
  do 4 (split; [reflexivity |]).
  split; [exact Hn |]. split; [exact Ea |]. split; assumption.
Qed.

Lemma lerpColor_range_witness :
  parseColor (Some "rgba(255, 127, 180, 0.55)")
  = Some {| r := 255; g := 127; b := 180; a := 0.55 |}
  ∧ parseColor (Some "rgba(20, 184, 166, 0.55)")
    = Some {| r := 20; g := 184; b := 166; a := 0.55 |}
  ∧ validColor {| r := 255; g := 127; b := 180; a := 0.55 |}
  ∧ validColor {| r := 20; g := 184; b := 166; a := 0.55 |}
  ∧ (0 <= 1 # 3)%Q ∧ (1 # 3 <= 1)%Q
  ∧ ∃ (out : string) (c : Color) (n : Z),
      lerpColor (Some "rgba(255, 127, 180, 0.55)")
                (Some "rgba(20, 184, 166, 0.55)") (1 # 3) = Some out
      ∧ parseColor (Some out) = Some c
      ∧ validColor c
      ∧ r c = Math_round (inject_Z 255 + (inject_Z 20 - inject_Z 255) * (1 # 3))
      ∧ g c = Math_round (inject_Z 127 + (inject_Z 184 - inject_Z 127) * (1 # 3))
      ∧ b c = Math_round (inject_Z 180 + (inject_Z 166 - inject_Z 180) * (1 # 3))
      ∧ out = rgba (r c) (g c) (b c) (hundredths n)
      ∧ (0 ≤ n ≤ 100)%Z
      ∧ a c == inject_Z n / 100
      ∧ (inject_Z n <= (0.55 + (0.55 - 0.55) * (1 # 3)) * 100 + (1 # 2))%Q
      ∧ ((0.55 + (0.55 - 0.55) * (1 # 3)) * 100 + (1 # 2) < inject_Z n + 1)%Q.
Proof.
  assert (parseColor (Some "rgba(255, 127, 180, 0.55)")
          = Some {| r := 255; g := 127; b := 180; a := 0.55 |}) as P1
    by (vm_compute; reflexivity).
  assert (parseColor (Some "rgba(20, 184, 166, 0.55)")
          = Some {| r := 20; g := 184; b := 166; a := 0.55 |}) as P2
    by (vm_compute; reflexivity).
  assert (validColor {| r := 255; g := 127; b := 180; a := 0.55 |}) as V1
    by (unfold validColor; cbn; repeat split; try lia; lra).
  assert (validColor {| r := 20; g := 184; b := 166; a := 0.55 |}) as V2
    by (unfold validColor; cbn; repeat split; try lia; lra).
  assert (0 <= 1 # 3)%Q as T0 by lra.
  assert (1 # 3 <= 1)%Q as T1 by lra.
  do 6 (split; [assumption |]).
  exact (lerpColor_range _ _ _ _ (1 # 3) P1 P2 V1 V2 T0 T1).
Defined.

(** C10: interpolating a colour with itself returns that colour for every
    [t]: the parsed channels unchanged and the alpha printed with two
    decimals; for a palette colour the result is the very same string, so
    a stop whose current and target colours coincide keeps its colour. *)
Theorem lerpColor_identity (s : option string) (c : Color) (t : Q) :
  parseColor s = Some c →
  lerpColor s s t = Some (printColor c)
  ∧ (inPalette s → lerpColor s s t = s).
Proof.
  intros P. rewrite (lerpColor_same s c t P). split; [reflexivity |].
  intros Hs. destruct (inPalette_parse s Hs) as (x & k & -> & _ & Pk & _ & E).
  rewrite P in Pk. injection Pk as <-. now rewrite E.
Qed.

Lemma lerpColor_identity_witness :
  parseColor (Some "rgba(96, 165, 250, 0.55)")
  = Some {| r := 96; g := 165; b := 250; a := 0.55 |}
  ∧ lerpColor (Some "rgba(96, 165, 250, 0.55)")
              (Some "rgba(96, 165, 250, 0.55)") (7 # 10)
    = Some (printColor {| r := 96; g := 165; b := 250; a := 0.55 |})
  ∧ (inPalette (Some "rgba(96, 165, 250, 0.55)") →
     lerpColor (Some "rgba(96, 165, 250, 0.55)")
               (Some "rgba(96, 165, 250, 0.55)") (7 # 10)
     = Some "rgba(96, 165, 250, 0.55)").
Proof.
  assert (parseColor (Some "rgba(96, 165, 250, 0.55)")
          = Some {| r := 96; g := 165; b := 250; a := 0.55 |}) as P
    by (vm_compute; reflexivity).
  split; [exact P |].
  exact (lerpColor_identity _ _ (7 # 10) P).
Defined.

(** ** The generator and the entry point *)

Section SetupFacts.

Variable numberToString : Q → string.
Variable random : nat → Q.

(** C8: when neither [.hero-wrapper] nor [.topbar] is in the document,
    [setupRandomHeroBg] returns normally without a closure state and
    leaves the world as it was: no style write, no frame request (so no
    animation loop), no random draw. *)
Theorem setup_without_surfaces (w : World) :
  document w !! ".hero-wrapper" = None →
  document w !! ".topbar" = None →
  setupRandomHeroBg numberToString random w = Some (None, w).
Proof.
  intros Hh Ht. unfold setupRandomHeroBg, mbind, M_bind, querySelector.
  cbv beta iota. rewrite Hh. cbv beta iota. rewrite Ht. reflexivity.
Qed.

Hypothesis random_range : ∀ n : nat, (0 <= random n)%Q ∧ (random n < 1)%Q.

(** C5: [generateRandomGradient] always returns, with exactly three
    stops; every colour is an entry of the four-colour palette and every
    position lies in the 40-point window of its stop: stop 1 in
    [10,50] x [10,50] (top left), stop 2 in [60,100] x [20,60] (top
    right), stop 3 in [40,80] x [60,100] (bottom centre); no window is
    the whole span 0..100. *)
Theorem generateRandomGradient_stops (w : World) :
  ∃ (grad : Gradient) (w' : World),
    generateRandomGradient random w = Some (grad, w')
    ∧ length (stops grad) = 3%nat
    ∧ length colors = 4%nat
    ∧ Forall (λ stop, inPalette stop.1.1) (stops grad)
    ∧ (10 <= pos1X grad)%Q ∧ (pos1X grad <= 50)%Q
    ∧ (10 <= pos1Y grad)%Q ∧ (pos1Y grad <= 50)%Q
    ∧ (60 <= pos2X grad)%Q ∧ (pos2X grad <= 100)%Q
    ∧ (20 <= pos2Y grad)%Q ∧ (pos2Y grad <= 60)%Q
    ∧ (40 <= pos3X grad)%Q ∧ (pos3X grad <= 80)%Q
    ∧ (60 <= pos3Y grad)%Q ∧ (pos3Y grad <= 100)%Q.
Proof.
  exists (gradientAt random (draws w)), (afterDraws 9 w).
  split; [apply generateRandomGradient_run |].
  split; [reflexivity |]. split; [reflexivity |].
  split.
  { destruct (gradientAt_palette random random_range (draws w)) as (H1 & H2 & H3).
    repeat constructor; assumption. }
  cbn [gradientAt pos1X pos1Y pos2X pos2Y pos3X pos3Y].
  pose proof (random_range (3 + draws w)) as [].
  pose proof (random_range (4 + draws w)) as [].
  pose proof (random_range (5 + draws w)) as [].
  pose proof (random_range (6 + draws w)) as [].
  pose proof (random_range (7 + draws w)) as [].
  pose proof (random_range (8 + draws w)) as [].
  repeat split; lra.
Qed.

(** With a surface in the document the entry point draws the two
    gradients, writes the first one to every surface present and requests
    the first frame; the closure state it leaves is well formed. *)
Lemma setup_with_surface (w : World) :
  is_Some (document w !! ".hero-wrapper") ∨ is_Some (document w !! ".topbar") →
  ∃ (st : Anim) (w' : World),
    setupRandomHeroBg numberToString random w = Some (Some st, w')
    ∧ wfAnim st
    ∧ wrapper st = (if document w !! ".hero-wrapper" is Some _
                    then Some ".hero-wrapper" else None)
    ∧ topbar st = (if document w !! ".topbar" is Some _
                   then Some ".topbar" else None)
    ∧ currentGradient st = gradientAt random (draws w)
    ∧ targetGradient st = gradientAt random (9 + draws w)
    ∧ animationProgress st = 0%Q
    ∧ animationDuration st = 6000%Q
    ∧ lastTime st = clock w
    ∧ clock w' = clock w
    ∧ draws w' = (18 + draws w)%nat
    ∧ trace w' = (trace w
                  ++ frameWrites st (gradientToString numberToString (currentGradient st))
                  ++ [RequestAnimationFrame])%list.
Proof.
  intros Hsome.
  unfold setupRandomHeroBg, mbind, M_bind, querySelector. cbv beta iota.
  assert (∀ n, paletteGradient (gradientAt random n)) as Hpal
    by (intros n; apply gradientAt_palette, random_range).
  destruct (document w !! ".hero-wrapper") as [hs |] eqn:Eh;
    destruct (document w !! ".topbar") as [ts |] eqn:Et;
    cbv beta iota; cbn [isNull andb];
    try (destruct Hsome as [[? Hx] | [? Hx]]; discriminate Hx).
  all: rewrite generateRandomGradient_run; cbv beta iota;
    rewrite generateRandomGradient_run; cbv beta iota;
    unfold Date_now, setProperty, requestAnimationFrame, log, mret, M_ret,
      afterDraws, frameWrites;
    cbv beta iota; cbn [document clock draws trace wrapper topbar];
    eexists; eexists; split; [reflexivity |];
    cbn [document clock draws trace wrapper topbar currentGradient
         targetGradient animationProgress animationDuration lastTime];
    split; [split; apply Hpal |];
    rewrite <- ?app_assoc; repeat split; reflexivity.
Qed.

End SetupFacts.

Lemma sampleRandom_range (n : nat) :
  (0 <= sampleRandom n)%Q ∧ (sampleRandom n < 1)%Q.
Proof.
  unfold sampleRandom.
  pose proof (Nat.mod_upper_bound (n * 7) 10 ltac:(discriminate)) as Hlt.
  unfold Qle, Qlt. cbn [Qnum Qden]. lia.
Qed.

Lemma generateRandomGradient_stops_witness :
  (∀ n : nat, (0 <= sampleRandom n)%Q ∧ (sampleRandom n < 1)%Q)
  ∧ ∃ (grad : Gradient) (w' : World),
      generateRandomGradient sampleRandom (emptyPage 0) = Some (grad, w')
      ∧ length (stops grad) = 3%nat
      ∧ length colors = 4%nat
      ∧ Forall (λ stop, inPalette stop.1.1) (stops grad)
      ∧ (10 <= pos1X grad)%Q ∧ (pos1X grad <= 50)%Q
      ∧ (10 <= pos1Y grad)%Q ∧ (pos1Y grad <= 50)%Q
      ∧ (60 <= pos2X grad)%Q ∧ (pos2X grad <= 100)%Q
      ∧ (20 <= pos2Y grad)%Q ∧ (pos2Y grad <= 60)%Q
      ∧ (40 <= pos3X grad)%Q ∧ (pos3X grad <= 80)%Q
      ∧ (60 <= pos3Y grad)%Q ∧ (pos3Y grad <= 100)%Q.
Proof.
  split; [exact sampleRandom_range |].
  exact (generateRandomGradient_stops sampleRandom sampleRandom_range (emptyPage 0)).
Defined.

Lemma setup_without_surfaces_witness :
  document (emptyPage 0) !! ".hero-wrapper" = None
  ∧ document (emptyPage 0) !! ".topbar" = None
  ∧ setupRandomHeroBg sampleNumberToString sampleRandom (emptyPage 0)
    = Some (None, emptyPage 0).
Proof.
  assert (document (emptyPage 0) !! ".hero-wrapper" = None) as Hh by reflexivity.
  assert (document (emptyPage 0) !! ".topbar" = None) as Ht by reflexivity.
  split; [exact Hh |]. split; [exact Ht |].
  exact (setup_without_surfaces sampleNumberToString sampleRandom _ Hh Ht).
Defined.

(** ** The wrap test *)

Lemma rotates_true (st : Anim) (w : World) :
  rotates st w = true ↔ (1 <= rawProgress st w)%Q.
Proof. unfold rotates. apply Qle_bool_iff. Qed.

Lemma rotates_false (st : Anim) (w : World) :
  rotates st w = false ↔ (rawProgress st w < 1)%Q.
Proof.
  rewrite <- not_true_iff_false, rotates_true. split.
  - apply Qnot_le_lt.
  - intros H1 H2. lra.
Qed.

(** The share of the period that a non-negative elapsed time adds. *)
Lemma elapsed_share_nonneg (e : Z) (d : Q) :
  (0 ≤ e)%Z → (0 < d)%Q → (0 <= inject_Z e / d)%Q.
Proof.
  intros He Hd. rewrite Zle_Qle in He. change (inject_Z 0) with 0%Q in He.
  apply Qle_shift_div_l; [exact Hd | lra].
Qed.

(** ** Rendering *)

Lemma lerpColor_half (s1 s2 : option string) (c1 c2 : Color) (t : Q) :
  parseColor s1 = Some c1 → parseColor s2 = Some c2 → t == 1 # 2 →
  lerpColor s1 s2 t = Some (midColor c1 c2).
Proof.
  intros P1 P2 E. rewrite (lerpColor_parsed _ _ _ _ t P1 P2). unfold midColor.
  rewrite (Math_round_Qeq
             (inject_Z (r c1) + (inject_Z (r c2) - inject_Z (r c1)) * t)
             ((inject_Z (r c1) + inject_Z (r c2)) / 2)) by (rewrite E; field).
  rewrite (Math_round_Qeq
             (inject_Z (g c1) + (inject_Z (g c2) - inject_Z (g c1)) * t)
             ((inject_Z (g c1) + inject_Z (g c2)) / 2)) by (rewrite E; field).
  rewrite (Math_round_Qeq
             (inject_Z (b c1) + (inject_Z (b c2) - inject_Z (b c1)) * t)
             ((inject_Z (b c1) + inject_Z (b c2)) / 2)) by (rewrite E; field).
  rewrite (toFixed2_Qeq (a c1 + (a c2 - a c1) * t) ((a c1 + a c2) / 2))
    by (rewrite E; field).
  reflexivity.
Qed.

Section RenderFacts.

Variable numberToString : Q → string.

(** The three colours of a gradient occur in its rendering, one in each
    of the three layers. *)
Lemma gradientToString_occurs (grad : Gradient) :
  occursIn (strOrUndefined (color1 grad)) (gradientToString numberToString grad)
  ∧ occursIn (strOrUndefined (color2 grad)) (gradientToString numberToString grad)
  ∧ occursIn (strOrUndefined (color3 grad)) (gradientToString numberToString grad).
Proof.
  unfold gradientToString, occursIn.
  set (l1 := layer numberToString (pos1X grad) (pos1Y grad) (color1 grad) "35%").
  set (l2 := layer numberToString (pos2X grad) (pos2Y grad) (color2 grad) "38%").
  set (l3 := layer numberToString (pos3X grad) (pos3Y grad) (color3 grad) "42%").
  assert (∀ x y c stop, ∃ p q, layer numberToString x y c stop
                               = p +:+ strOrUndefined c +:+ q) as Hlayer.
  { intros x y c stop.
    exists ("radial-gradient(circle at " +:+ numberToString x +:+ "% "
              +:+ numberToString y +:+ "%, "),
           (", transparent " +:+ stop +:+ ")").
    unfold layer. rewrite !string_app_assoc. reflexivity. }
  destruct (Hlayer (pos1X grad) (pos1Y grad) (color1 grad) "35%") as (p1 & q1 & E1).
  destruct (Hlayer (pos2X grad) (pos2Y grad) (color2 grad) "38%") as (p2 & q2 & E2).
  destruct (Hlayer (pos3X grad) (pos3Y grad) (color3 grad) "42%") as (p3 & q3 & E3).
  fold l1 in E1. fold l2 in E2. fold l3 in E3.
  split; [| split].
  - exists p1, (q1 +:+ "," +:+ layerBreak +:+ l2 +:+ "," +:+ layerBreak +:+ l3).
    rewrite E1, !string_app_assoc. reflexivity.
  - exists (l1 +:+ "," +:+ layerBreak +:+ p2), (q2 +:+ "," +:+ layerBreak +:+ l3).
    rewrite E2, !string_app_assoc. reflexivity.
  - exists (l1 +:+ "," +:+ layerBreak +:+ l2 +:+ "," +:+ layerBreak +:+ p3), q3.
    rewrite E3, !string_app_assoc. reflexivity.
Qed.

End RenderFacts.

(** ** Writes to the document *)

Lemma getProperty_writeStyle (el name value : string) (w w' : World) :
  is_Some (document w !! el) →
  document w' = writeStyle el name value (document w) →
  getProperty el name w' = Some value.
Proof.
  intros [st Hst] E. unfold getProperty. rewrite E. unfold writeStyle.
  rewrite lookup_alter_eq, Hst. cbn. apply lookup_insert_eq.
Qed.

Lemma getProperty_writeStyle_other (el el' name name' value : string)
    (w w' : World) :
  name ≠ name' →
  document w' = writeStyle el' name' value (document w) →
  getProperty el name w' = getProperty el name w.
Proof.
  intros Hne E. unfold getProperty. rewrite E. unfold writeStyle.
  rewrite lookup_alter. destruct (decide (el' = el)) as [-> |]; [| reflexivity].
  destruct (document w !! el) as [st |]; cbn; [| reflexivity].
  now apply lookup_insert_ne.
Qed.

(** The progress left by a step whose raw progress is in [0,2). *)
Lemma nextAnim_progress (random : nat → Q) (st : Anim) (w : World) :
  (0 <= rawProgress st w)%Q → (rawProgress st w < 2)%Q →
  (0 <= animationProgress (nextAnim random st w))%Q
  ∧ (animationProgress (nextAnim random st w) < 1)%Q.
Proof.
  intros H0 H2. unfold nextAnim.
  destruct (rotates st w) eqn:Hr; cbn [animationProgress].
  - apply rotates_true in Hr. split; lra.
  - apply rotates_false in Hr. split; lra.
Qed.

Lemma nextAnim_fields (random : nat → Q) (st : Anim) (w : World) :
  animationDuration (nextAnim random st w) = animationDuration st
  ∧ lastTime (nextAnim random st w) = clock w
  ∧ wrapper (nextAnim random st w) = wrapper st
  ∧ topbar (nextAnim random st w) = topbar st.
Proof. unfold nextAnim. destruct (rotates st w); repeat split; reflexivity. Qed.

(** ** The update step *)

Section StepFacts.

Variable numberToString : Q → string.
Variable random : nat → Q.
Hypothesis random_range : ∀ n : nat, (0 <= random n)%Q ∧ (random n < 1)%Q.

(** C1, amended: when the elapsed time is non-negative and carries the
    progress to less than 2, the progress left by the step is in [0,1):
    the raw progress itself below 1, and the raw progress minus 1, taken
    off in that same step, from 1 on. *)
Theorem animate_progress_wraps (st : Anim) (w : World) :
  wfAnim st →
  (0 < animationDuration st)%Q →
  (0 <= animationProgress st)%Q → (animationProgress st < 1)%Q →
  (0 ≤ clock w - lastTime st)%Z →
  (rawProgress st w < 2)%Q →
  ∃ (st' : Anim) (w' : World),
    animate numberToString random st w = Some (st', w')
    ∧ (0 <= animationProgress st')%Q ∧ (animationProgress st' < 1)%Q
    ∧ ((1 <= rawProgress st w)%Q →
       animationProgress st' = (rawProgress st w - 1)%Q)
    ∧ ((rawProgress st w < 1)%Q →
       animationProgress st' = rawProgress st w).
Proof.
  intros Hwf Hd Hp0 Hp1 He Hraw.
  destruct (animate_run numberToString random random_range st w Hwf)
    as (c1 & c2 & c3 & _ & _ & _ & Hrun).
  eexists. eexists. split; [exact Hrun |].
  pose proof (elapsed_share_nonneg _ _ He Hd) as Hshare.
  assert (0 <= rawProgress st w)%Q as Hraw0 by (unfold rawProgress; lra).
  destruct (nextAnim_progress random st w Hraw0 Hraw) as [H0 H1].
  split; [exact H0 |]. split; [exact H1 |].
  unfold nextAnim. split; intros Hr.
  - apply rotates_true in Hr. rewrite Hr. reflexivity.
  - apply rotates_false in Hr. rewrite Hr. reflexivity.
Qed.

(** C2: in a step whose raw progress reaches 1, whatever the elapsed
    time, the new current gradient is the old target, the new target is
    the gradient that [generateRandomGradient] returns in the world of
    the step, that call is the only one (nine draws are consumed), and 1
    is taken off the progress once. *)
Theorem animate_rotation (st : Anim) (w : World) :
  wfAnim st →
  (1 <= rawProgress st w)%Q →
  ∃ (st' : Anim) (w' : World),
    animate numberToString random st w = Some (st', w')
    ∧ currentGradient st' = targetGradient st
    ∧ generateRandomGradient random w = Some (targetGradient st', afterDraws 9 w)
    ∧ draws w' = (9 + draws w)%nat
    ∧ animationProgress st' = (rawProgress st w - 1)%Q.
Proof.
  intros Hwf Hraw.
  destruct (animate_run numberToString random random_range st w Hwf)
    as (c1 & c2 & c3 & _ & _ & _ & Hrun).
  eexists. eexists. split; [exact Hrun |].
  apply rotates_true in Hraw. unfold nextAnim, nextWorld. rewrite Hraw.
  cbn [currentGradient targetGradient animationProgress draws].
  repeat split; reflexivity.
Qed.

(** C6: from progress 0.9, a step that carries the raw progress to 1.3
    leaves progress 0.3, makes the old target the current gradient, and
    generates exactly one new target. *)
Theorem animate_scenario_wrap (st : Anim) (w : World) :
  wfAnim st →
  animationProgress st == 9 # 10 →
  rawProgress st w == 13 # 10 →
  ∃ (st' : Anim) (w' : World),
    animate numberToString random st w = Some (st', w')
    ∧ animationProgress st' == 3 # 10
    ∧ currentGradient st' = targetGradient st
    ∧ targetGradient st' = gradientAt random (draws w)
    ∧ draws w' = (9 + draws w)%nat.
Proof.
  intros Hwf _ Hraw.
  destruct (animate_run numberToString random random_range st w Hwf)
    as (c1 & c2 & c3 & _ & _ & _ & Hrun).
  eexists. eexists. split; [exact Hrun |].
  assert (rotates st w = true) as Hr by (apply rotates_true; lra).
  unfold nextAnim, nextWorld. rewrite Hr.
  cbn [currentGradient targetGradient animationProgress draws].
  repeat split; try reflexivity. lra.
Qed.

(** C7: with a duration of 6000 ms and progress 0, a step after 3000 ms
    leaves progress 0.5 without rotating, and the string it writes is the
    rendering of three stops whose colours are the rounded channel
    midpoints of the current and target colours; each of the three
    colours occurs in the string. *)
Theorem animate_scenario_half (st : Anim) (w : World) :
  wfAnim st →
  animationDuration st == 6000 →
  animationProgress st == 0 →
  (clock w - lastTime st = 3000)%Z →
  ∃ (st' : Anim) (w' : World) (m1 m2 m3 s : string),
    animate numberToString random st w = Some (st', w')
    ∧ animationProgress st' == 1 # 2
    ∧ currentGradient st' = currentGradient st
    ∧ targetGradient st' = targetGradient st
    ∧ draws w' = draws w
    ∧ stopMid (color1 (currentGradient st)) (color1 (targetGradient st)) m1
    ∧ stopMid (color2 (currentGradient st)) (color2 (targetGradient st)) m2
    ∧ stopMid (color3 (currentGradient st)) (color3 (targetGradient st)) m3
    ∧ s = gradientToString numberToString (interpGrad st' m1 m2 m3)
    ∧ trace w' = (trace w ++ frameWrites st s ++ [RequestAnimationFrame])%list
    ∧ occursIn m1 s ∧ occursIn m2 s ∧ occursIn m3 s.
Proof.
  intros Hwf Hd Hp He.
  destruct (animate_run numberToString random random_range st w Hwf)
    as (c1 & c2 & c3 & H1 & H2 & H3 & Hrun).
  assert (rawProgress st w == 1 # 2) as Hraw.
  { unfold rawProgress. rewrite He, Hp, Hd. reflexivity. }
  assert (rotates st w = false) as Hr by (apply rotates_false; lra).
  cbv zeta in H1, H2, H3. unfold nextAnim, nextWorld in *. rewrite Hr in *.
  cbn [currentGradient targetGradient animationProgress] in *.
  destruct Hwf as [(C1 & C2 & C3) (T1 & T2 & T3)].
  destruct (inPalette_parse _ C1) as (? & k1 & _ & _ & P1 & _).
  destruct (inPalette_parse _ C2) as (? & k2 & _ & _ & P2 & _).
  destruct (inPalette_parse _ C3) as (? & k3 & _ & _ & P3 & _).
  destruct (inPalette_parse _ T1) as (? & k1' & _ & _ & P1' & _).
  destruct (inPalette_parse _ T2) as (? & k2' & _ & _ & P2' & _).
  destruct (inPalette_parse _ T3) as (? & k3' & _ & _ & P3' & _).
  rewrite (lerpColor_half _ _ _ _ _ P1 P1' Hraw) in H1.
  rewrite (lerpColor_half _ _ _ _ _ P2 P2' Hraw) in H2.
  rewrite (lerpColor_half _ _ _ _ _ P3 P3' Hraw) in H3.
  injection H1 as <-. injection H2 as <-. injection H3 as <-.
  eexists. eexists.
  exists (midColor k1 k1'), (midColor k2 k2'), (midColor k3 k3').
  eexists. split; [exact Hrun |].
  cbn [currentGradient targetGradient animationProgress draws trace].
  split; [exact Hraw |].
  do 3 (split; [reflexivity |]).
  split; [exists k1, k1'; auto |].
  split; [exists k2, k2'; auto |].
  split; [exists k3, k3'; auto |].
  split; [reflexivity |]. split; [reflexivity |].
  apply (gradientToString_occurs numberToString
           (interpGrad _ (midColor k1 k1') (midColor k2 k2') (midColor k3 k3'))).
Qed.

(** C9: in a step with both surfaces present, one rendered string is
    written to [--hero-bg] of the hero surface and to [--topbar-bg] of
    the navigation bar, and both properties hold it afterwards. *)
Theorem animate_surfaces_in_sync (st : Anim) (w : World) (hero bar : string) :
  wfAnim st →
  wrapper st = Some hero → topbar st = Some bar →
  is_Some (document w !! hero) → is_Some (document w !! bar) →
  ∃ (st' : Anim) (w' : World) (c1 c2 c3 s : string),
    animate numberToString random st w = Some (st', w')
    ∧ s = gradientToString numberToString (interpGrad st' c1 c2 c3)
    ∧ trace w' = (trace w ++ [SetProperty hero "--hero-bg" s;
                              SetProperty bar "--topbar-bg" s;
                              RequestAnimationFrame])%list
    ∧ getProperty hero "--hero-bg" w' = Some s
    ∧ getProperty bar "--topbar-bg" w' = Some s.
Proof.
  intros Hwf Hh Hb Hhero Hbar.
  destruct (animate_run numberToString random random_range st w Hwf)
    as (c1 & c2 & c3 & _ & _ & _ & Hrun).
  eexists. eexists. exists c1, c2, c3. eexists.
  split; [exact Hrun |]. split; [reflexivity |].
  set (s := gradientToString _ _).
  unfold nextWorld, frameWrites, frameStyles. rewrite Hh, Hb.
  split; [reflexivity |].
  set (w1 := {| document := writeStyle hero "--hero-bg" s (document w);
                clock := clock w; draws := draws w; trace := trace w |}).
  assert (getProperty hero "--hero-bg" w1 = Some s) as G1
    by (apply (getProperty_writeStyle _ _ _ w); [exact Hhero | reflexivity]).
  split.
  - rewrite <- G1.
    apply (getProperty_writeStyle_other _ bar _ "--topbar-bg" s w1);
      [discriminate | reflexivity].
  - apply (getProperty_writeStyle _ _ _ w1); [| reflexivity].
    cbn [document w1]. unfold writeStyle. rewrite lookup_alter.
    destruct (decide (hero = bar)) as [-> |]; [| exact Hbar].
    destruct Hbar as [x ->]. cbn. eauto.
Qed.

End StepFacts.

(** ** Worked instances *)

Lemma sampleAnim_wf (progress : Q) (last : Z) : wfAnim (sampleAnim progress last).
Proof. repeat split; cbn; palette_member. Qed.

Lemma sampleWorld_hero (now : Z) :
  is_Some (document (sampleWorld now) !! ".hero-wrapper").
Proof. exists ∅. reflexivity. Qed.

Lemma sampleWorld_topbar (now : Z) :
  is_Some (document (sampleWorld now) !! ".topbar").
Proof. exists ∅. reflexivity. Qed.

(** C1 as stated fails: from progress 0, a step after 12000 ms (two
    periods of 6000 ms) carries the raw progress to 2 and takes 1 off
    once, so the progress left by the step is 1, outside [0,1). *)
Lemma animate_progress_overshoot :
  (∀ n : nat, (0 <= sampleRandom n)%Q ∧ (sampleRandom n < 1)%Q)
  ∧ wfAnim (sampleAnim 0 0)
  ∧ (0 < animationDuration (sampleAnim 0 0))%Q
  ∧ (0 <= animationProgress (sampleAnim 0 0))%Q
  ∧ (animationProgress (sampleAnim 0 0) < 1)%Q
  ∧ (0 ≤ clock (sampleWorld 12000) - lastTime (sampleAnim 0 0))%Z
  ∧ ∃ (st' : Anim) (w' : World),
      animate sampleNumberToString sampleRandom (sampleAnim 0 0) (sampleWorld 12000)
      = Some (st', w')
      ∧ animationProgress st' == 1
      ∧ ¬ (animationProgress st' < 1)%Q.
Proof.
  split; [exact sampleRandom_range |].
  split; [apply sampleAnim_wf |].
  split; [reflexivity |]. split; [discriminate |]. split; [reflexivity |].
  split; [discriminate |].
  destruct (animate_run sampleNumberToString sampleRandom sampleRandom_range
              (sampleAnim 0 0) (sampleWorld 12000) (sampleAnim_wf 0 0))
    as (c1 & c2 & c3 & _ & _ & _ & Hrun).
  eexists. eexists. split; [exact Hrun |].
  split; [reflexivity | intros H; discriminate H].
Qed.

Lemma animate_progress_wraps_witness :
  (∀ n : nat, (0 <= sampleRandom n)%Q ∧ (sampleRandom n < 1)%Q)
  ∧ wfAnim (sampleAnim (1 # 2) 0)
  ∧ (0 < animationDuration (sampleAnim (1 # 2) 0))%Q
  ∧ (0 <= animationProgress (sampleAnim (1 # 2) 0))%Q
  ∧ (animationProgress (sampleAnim (1 # 2) 0) < 1)%Q
  ∧ (0 ≤ clock (sampleWorld 4000) - lastTime (sampleAnim (1 # 2) 0))%Z
  ∧ (rawProgress (sampleAnim (1 # 2) 0) (sampleWorld 4000) < 2)%Q
  ∧ ∃ (st' : Anim) (w' : World),
      animate sampleNumberToString sampleRandom (sampleAnim (1 # 2) 0) (sampleWorld 4000)
      = Some (st', w')
      ∧ (0 <= animationProgress st')%Q ∧ (animationProgress st' < 1)%Q
      ∧ ((1 <= rawProgress (sampleAnim (1 # 2) 0) (sampleWorld 4000))%Q →
         animationProgress st'
         = (rawProgress (sampleAnim (1 # 2) 0) (sampleWorld 4000) - 1)%Q)
      ∧ ((rawProgress (sampleAnim (1 # 2) 0) (sampleWorld 4000) < 1)%Q →
         animationProgress st'
         = rawProgress (sampleAnim (1 # 2) 0) (sampleWorld 4000)).
Proof.
  assert (0 < animationDuration (sampleAnim (1 # 2) 0))%Q as Hd by reflexivity.
  assert (0 <= animationProgress (sampleAnim (1 # 2) 0))%Q as Hp0 by discriminate.
  assert (animationProgress (sampleAnim (1 # 2) 0) < 1)%Q as Hp1 by reflexivity.
  assert (0 ≤ clock (sampleWorld 4000) - lastTime (sampleAnim (1 # 2) 0))%Z as He
    by discriminate.
  assert (rawProgress (sampleAnim (1 # 2) 0) (sampleWorld 4000) < 2)%Q as Hraw
    by reflexivity.
  split; [exact sampleRandom_range |].
  split; [apply sampleAnim_wf |].
  split; [exact Hd |]. split; [exact Hp0 |]. split; [exact Hp1 |].
  split; [exact He |]. split; [exact Hraw |].
  exact (animate_progress_wraps sampleNumberToString sampleRandom
           sampleRandom_range _ _ (sampleAnim_wf (1 # 2) 0) Hd Hp0 Hp1 He Hraw).
Defined.

Lemma animate_rotation_witness :
  (∀ n : nat, (0 <= sampleRandom n)%Q ∧ (sampleRandom n < 1)%Q)
  ∧ wfAnim (sampleAnim (1 # 2) 0)
  ∧ (1 <= rawProgress (sampleAnim (1 # 2) 0) (sampleWorld 60000))%Q
  ∧ ∃ (st' : Anim) (w' : World),
      animate sampleNumberToString sampleRandom (sampleAnim (1 # 2) 0) (sampleWorld 60000)
      = Some (st', w')
      ∧ currentGradient st' = targetGradient (sampleAnim (1 # 2) 0)
      ∧ generateRandomGradient sampleRandom (sampleWorld 60000)
        = Some (targetGradient st', afterDraws 9 (sampleWorld 60000))
      ∧ draws w' = (9 + draws (sampleWorld 60000))%nat
      ∧ animationProgress st'
        = (rawProgress (sampleAnim (1 # 2) 0) (sampleWorld 60000) - 1)%Q.
Proof.
  assert (1 <= rawProgress (sampleAnim (1 # 2) 0) (sampleWorld 60000))%Q as Hraw
    by discriminate.
  split; [exact sampleRandom_range |].
  split; [apply sampleAnim_wf |]. split; [exact Hraw |].
  exact (animate_rotation sampleNumberToString sampleRandom sampleRandom_range
           _ _ (sampleAnim_wf (1 # 2) 0) Hraw).
Defined.

Lemma animate_scenario_wrap_witness :
  (∀ n : nat, (0 <= sampleRandom n)%Q ∧ (sampleRandom n < 1)%Q)
  ∧ wfAnim (sampleAnim (9 # 10) 1000)
  ∧ animationProgress (sampleAnim (9 # 10) 1000) == 9 # 10
  ∧ rawProgress (sampleAnim (9 # 10) 1000) (sampleWorld 3400) == 13 # 10
  ∧ ∃ (st' : Anim) (w' : World),
      animate sampleNumberToString sampleRandom (sampleAnim (9 # 10) 1000) (sampleWorld 3400)
      = Some (st', w')
      ∧ animationProgress st' == 3 # 10
      ∧ currentGradient st' = targetGradient (sampleAnim (9 # 10) 1000)
      ∧ targetGradient st' = gradientAt sampleRandom (draws (sampleWorld 3400))
      ∧ draws w' = (9 + draws (sampleWorld 3400))%nat.
Proof.
  assert (animationProgress (sampleAnim (9 # 10) 1000) == 9 # 10) as Hp
    by reflexivity.
  assert (rawProgress (sampleAnim (9 # 10) 1000) (sampleWorld 3400) == 13 # 10)
    as Hraw by reflexivity.
  split; [exact sampleRandom_range |].
  split; [apply sampleAnim_wf |]. split; [exact Hp |]. split; [exact Hraw |].
  exact (animate_scenario_wrap sampleNumberToString sampleRandom sampleRandom_range
           _ _ (sampleAnim_wf (9 # 10) 1000) Hp Hraw).
Defined.

Lemma animate_scenario_half_witness :
  (∀ n : nat, (0 <= sampleRandom n)%Q ∧ (sampleRandom n < 1)%Q)
  ∧ wfAnim (sampleAnim 0 1000)
  ∧ animationDuration (sampleAnim 0 1000) == 6000
  ∧ animationProgress (sampleAnim 0 1000) == 0
  ∧ (clock (sampleWorld 4000) - lastTime (sampleAnim 0 1000) = 3000)%Z
  ∧ ∃ (st' : Anim) (w' : World) (m1 m2 m3 s : string),
      animate sampleNumberToString sampleRandom (sampleAnim 0 1000) (sampleWorld 4000)
      = Some (st', w')
      ∧ animationProgress st' == 1 # 2
      ∧ currentGradient st' = currentGradient (sampleAnim 0 1000)
      ∧ targetGradient st' = targetGradient (sampleAnim 0 1000)
      ∧ draws w' = draws (sampleWorld 4000)
      ∧ stopMid (color1 (currentGradient (sampleAnim 0 1000)))
                (color1 (targetGradient (sampleAnim 0 1000))) m1
      ∧ stopMid (color2 (currentGradient (sampleAnim 0 1000)))
                (color2 (targetGradient (sampleAnim 0 1000))) m2
      ∧ stopMid (color3 (currentGradient (sampleAnim 0 1000)))
                (color3 (targetGradient (sampleAnim 0 1000))) m3
      ∧ s = gradientToString sampleNumberToString (interpGrad st' m1 m2 m3)
      ∧ trace w' = (trace (sampleWorld 4000) ++ frameWrites (sampleAnim 0 1000) s
                      ++ [RequestAnimationFrame])%list
      ∧ occursIn m1 s ∧ occursIn m2 s ∧ occursIn m3 s.
Proof.
  assert (animationDuration (sampleAnim 0 1000) == 6000) as Hd by reflexivity.
  assert (animationProgress (sampleAnim 0 1000) == 0) as Hp by reflexivity.
  assert (clock (sampleWorld 4000) - lastTime (sampleAnim 0 1000) = 3000)%Z
    as He by reflexivity.
  split; [exact sampleRandom_range |].
  split; [apply sampleAnim_wf |].
  split; [exact Hd |]. split; [exact Hp |]. split; [exact He |].
  exact (animate_scenario_half sampleNumberToString sampleRandom sampleRandom_range
           _ _ (sampleAnim_wf 0 1000) Hd Hp He).
Defined.

Lemma animate_surfaces_in_sync_witness :
  (∀ n : nat, (0 <= sampleRandom n)%Q ∧ (sampleRandom n < 1)%Q)
  ∧ wfAnim (sampleAnim (1 # 4) 0)
  ∧ wrapper (sampleAnim (1 # 4) 0) = Some ".hero-wrapper"
  ∧ topbar (sampleAnim (1 # 4) 0) = Some ".topbar"
  ∧ is_Some (document (sampleWorld 16) !! ".hero-wrapper")
  ∧ is_Some (document (sampleWorld 16) !! ".topbar")
  ∧ ∃ (st' : Anim) (w' : World) (c1 c2 c3 s : string),
      animate sampleNumberToString sampleRandom (sampleAnim (1 # 4) 0) (sampleWorld 16)
      = Some (st', w')
      ∧ s = gradientToString sampleNumberToString (interpGrad st' c1 c2 c3)
      ∧ trace w' = (trace (sampleWorld 16)
                      ++ [SetProperty ".hero-wrapper" "--hero-bg" s;
                          SetProperty ".topbar" "--topbar-bg" s;
                          RequestAnimationFrame])%list
      ∧ getProperty ".hero-wrapper" "--hero-bg" w' = Some s
      ∧ getProperty ".topbar" "--topbar-bg" w' = Some s.
Proof.
  split; [exact sampleRandom_range |].
  split; [apply sampleAnim_wf |].
  split; [reflexivity |]. split; [reflexivity |].
  split; [apply sampleWorld_hero |]. split; [apply sampleWorld_topbar |].
  exact (animate_surfaces_in_sync sampleNumberToString sampleRandom
           sampleRandom_range _ _ _ _ (sampleAnim_wf (1 # 4) 0)
           eq_refl eq_refl (sampleWorld_hero 16) (sampleWorld_topbar 16)).
Defined.

(** ** The frame loop *)

Section LoopFacts.

Variable numberToString : Q → string.
Variable random : nat → Q.
Hypothesis random_range : ∀ n : nat, (0 <= random n)%Q ∧ (random n < 1)%Q.

(** Along a run of frames that are each less than one period apart, the
    progress observed after every frame is in [0,1), and the closure state
    stays well formed. *)
Lemma frames_progress (gaps : list Z) (st : Anim) (w : World) :
  wfAnim st →
  (0 < animationDuration st)%Q →
  (0 <= animationProgress st)%Q → (animationProgress st < 1)%Q →
  lastTime st = clock w →
  Forall (λ dt : Z, (0 ≤ dt)%Z ∧ (inject_Z dt < animationDuration st)%Q) gaps →
  ∃ (st' : Anim) (w' : World),
    frames numberToString random gaps st w = Some (st', w')
    ∧ wfAnim st'
    ∧ (0 <= animationProgress st')%Q ∧ (animationProgress st' < 1)%Q
    ∧ lastTime st' = clock w'.
Proof.
  revert st w. induction gaps as [| dt gaps IH]; intros st w Hwf Hd Hp0 Hp1 Hlast Hgaps.
  - exists st, w. split; [reflexivity |]. auto.
  - apply Forall_cons in Hgaps as [[Hdt0 Hdt1] Hgaps].
    set (w1 := {| document := document w; clock := clock w + dt;
                  draws := draws w; trace := trace w |}).
    destruct (animate_run numberToString random random_range st w1 Hwf)
      as (c1 & c2 & c3 & _ & _ & _ & Hrun).
    set (s := gradientToString _ _) in Hrun.
    destruct (nextAnim_fields random st w1) as (Ed & El & _ & _).
    assert (clock w1 - lastTime st = dt)%Z as He
      by (rewrite Hlast; cbn [clock w1]; lia).
    assert (0 <= inject_Z dt / animationDuration st)%Q as Hs0
      by (apply elapsed_share_nonneg; assumption).
    assert (inject_Z dt / animationDuration st < 1)%Q as Hs1
      by (apply Qlt_shift_div_r; [assumption | lra]).
    assert (0 <= rawProgress st w1)%Q as Hr0
      by (unfold rawProgress; rewrite He; lra).
    assert (rawProgress st w1 < 2)%Q as Hr2
      by (unfold rawProgress; rewrite He; lra).
    destruct (nextAnim_progress random st w1 Hr0 Hr2) as [Hq0 Hq1].
    destruct (IH (nextAnim random st w1) (nextWorld st s w1))
      as (st' & w' & Hfr & Hwf' & H0 & H1 & Hl).
    + apply nextAnim_wf; assumption.
    + rewrite Ed. exact Hd.
    + exact Hq0.
    + exact Hq1.
    + rewrite El. reflexivity.
    + rewrite Ed. exact Hgaps.
    + exists st', w'. split.
      * cbn [frames]. unfold mbind, M_bind, tick. cbv beta iota.
        fold w1. rewrite Hrun. exact Hfr.
      * auto.
Qed.

(** From the entry point on: on a page with a surface, frames that are
    each less than the period of 6000 ms apart leave a progress in [0,1)
    after every one of them. *)
Lemma setup_frames_progress (gaps : list Z) (w : World) :
  is_Some (document w !! ".hero-wrapper") ∨ is_Some (document w !! ".topbar") →
  Forall (λ dt : Z, (0 ≤ dt < 6000)%Z) gaps →
  ∃ (st0 st' : Anim) (w0 w' : World),
    setupRandomHeroBg numberToString random w = Some (Some st0, w0)
    ∧ frames numberToString random gaps st0 w0 = Some (st', w')
    ∧ wfAnim st'
    ∧ (0 <= animationProgress st')%Q ∧ (animationProgress st' < 1)%Q.
Proof.
  intros Hsurf Hgaps.
  destruct (setup_with_surface numberToString random random_range w Hsurf)
    as (st0 & w0 & Hsetup & Hwf & _ & _ & _ & _ & Hp & Hd & Hl & Hc & _).
  destruct (frames_progress gaps st0 w0) as (st' & w' & Hfr & Hwf' & H0 & H1 & _).
  - exact Hwf.
  - rewrite Hd. reflexivity.
  - rewrite Hp. discriminate.
  - rewrite Hp. reflexivity.
  - rewrite Hl, Hc. reflexivity.
  - rewrite Hd. eapply Forall_impl; [exact Hgaps |].
    intros dt [Hdt0 Hdt1]. split; [exact Hdt0 |].
    rewrite Zlt_Qlt in Hdt1. exact Hdt1.
  - exists st0, st', w0, w'. auto.
Qed.

End LoopFacts.

(** ** Evaluations *)

Example matchNumbers_rose :
  matchNumbers "rgba(255, 127, 180, 0.55)" = Some ["255"; "127"; "180"; "0.55"].
Proof. vm_compute. reflexivity. Qed.

Example matchFrom_mixed :
  matchFrom Outside "a1.5.7b 12. 3 .4 007.250x"
  = ["1.5"; "7"; "12"; "3"; "4"; "007.250"].
Proof. vm_compute. reflexivity. Qed.

Example parseColor_without_numbers :
  parseColor (Some "transparent") = None ∧ parseColor None = None
  ∧ parseColor (Some "rgb(1, 2, 3)") = None.
Proof. vm_compute. auto. Qed.

Example toFixed2_samples :
  toFixed2 (1 # 8) = "0.13" ∧ toFixed2 (3 # 4) = "0.75"
  ∧ toFixed2 (5 # 2) = "2.50" ∧ toFixed2 (-1 # 1024) = "-0.00".
Proof. vm_compute. auto. Qed.

Example lerpColor_half_way :
  lerpColor (Some "rgba(255, 127, 180, 0.55)") (Some "rgba(20, 184, 166, 0.55)")
            (1 # 2)
  = Some "rgba(138, 156, 173, 0.55)".
Proof. vm_compute. reflexivity. Qed.

(** Beyond [t = 1] the interpolation extrapolates: the channels leave
    0..255. *)
Example lerpColor_beyond_one :
  lerpColor (Some "rgba(255, 127, 180, 0.55)") (Some "rgba(20, 184, 166, 0.55)") 2
  = Some "rgba(-215, 241, 152, 0.55)".
Proof. vm_compute. reflexivity. Qed.

(** The frame of the half-way scenario on the sample state: what is
    written, and where. *)
Example animate_half_way :
  ∃ (st' : Anim) (w' : World),
    animate sampleNumberToString sampleRandom (sampleAnim 0 1000) (sampleWorld 4000)
    = Some (st', w')
    ∧ (let s :=
         "radial-gradient(circle at 20.00% 30.00%, rgba(138, 156, 173, 0.55), transparent 35%),"
           +:+ layerBreak
           +:+ "radial-gradient(circle at 80.00% 40.00%, rgba(212, 106, 214, 0.55), transparent 38%),"
           +:+ layerBreak
           +:+ "radial-gradient(circle at 50.00% 90.00%, rgba(132, 125, 249, 0.55), transparent 42%)"
       in
       trace w' = [SetProperty ".hero-wrapper" "--hero-bg" s;
                   SetProperty ".topbar" "--topbar-bg" s;
                   RequestAnimationFrame]
       ∧ getProperty ".hero-wrapper" "--hero-bg" w' = Some s
       ∧ getProperty ".topbar" "--topbar-bg" w' = Some s)
    ∧ Qred (animationProgress st') = 1 # 2
    ∧ lastTime st' = 4000%Z
    ∧ draws w' = 18%nat.
Proof.
  eexists. eexists. split; [vm_compute; reflexivity |].
  vm_compute. auto 10.
Qed.

(** From the entry point through three frames 2000, 3000 and 2000 ms
    apart: the third frame wraps 7/6 to 1/6 and draws one new target. *)
Example frames_from_setup :
  ∃ (st : Anim) (w : World),
    (st0 ← setupRandomHeroBg sampleNumberToString sampleRandom;
     match st0 with
     | Some st0 => frames sampleNumberToString sampleRandom [2000; 3000; 2000]%Z st0
     | None => throw
     end) (sampleWorld 0)
    = Some (st, w)
    ∧ Qred (animationProgress st) = 1 # 6
    ∧ lastTime st = 7000%Z
    ∧ draws w = (18 + 18 + 9)%nat
    ∧ length (trace w) = 12%nat.
Proof.
  eexists. eexists. split; [vm_compute; reflexivity |].
  vm_compute. auto.
Qed.

(** The worked instances of the progress on doubles: two periods from 0
    leave exactly 1; 0.9 carried to 1.3 leaves 0.3 up to 1e-15; half a
    period from 0 leaves exactly 0.5. *)
Example wrapProgress64_samples :
  wrapProgress64 0 12000 6000 = 1%float
  ∧ (abs (wrapProgress64 (9 / 10) 2400 6000 - 3 / 10) <? 1 / 1000000000000000)%float
    = true
  ∧ wrapProgress64 0 3000 6000 = (1 / 2)%float.
Proof. vm_compute. auto. Qed.

(** * The rest of [Responsive.js]: facts *)

(** ** The image carousel *)

Example moveCarousel_sample :
  (page ← moveCarousel "gallery" 1 sampleCarousel;
   activeIndexes <$> page !! "gallery") = Some [2%nat]
  ∧ (page ← moveCarouselTimes 2 "gallery" 1 sampleCarousel;
     activeIndexes <$> page !! "gallery") = Some [0%nat]
  ∧ (page ← moveCarousel "gallery" 5 sampleCarousel;
     activeIndexes <$> page !! "gallery") = Some [0%nat]
  ∧ (page ← moveCarousel "gallery" (-7) sampleCarousel;
     activeIndexes <$> page !! "gallery") = Some [2%nat].
Proof. vm_compute. auto. Qed.

Lemma containsActive_true (img : ClassList) :
  containsActive img = true ↔ "active" ∈ img.
Proof. unfold containsActive. apply bool_decide_eq_true. Qed.

Lemma containsActive_false (img : ClassList) :
  containsActive img = false ↔ "active" ∉ img.
Proof. unfold containsActive. apply bool_decide_eq_false. Qed.

(** The scan finds the only active image, when its index is in the part
    scanned. *)
Lemma findActive_only (images : list ClassList) (index i : nat) (currentIndex : Z) :
  (∀ (k : nat) (img : ClassList),
     images !! k = Some img → containsActive img = bool_decide (index + k = i)%nat) →
  findActive index images currentIndex
  = if bool_decide (index ≤ i < index + length images)%nat
    then Z.of_nat i else currentIndex.
Proof.
  revert index currentIndex.
  induction images as [| img rest IH]; intros index cur Hall.
  - cbn. rewrite bool_decide_eq_false_2 by lia. reflexivity.
  - cbn [findActive length]. rewrite IH.
    + rewrite (Hall 0%nat img eq_refl).
      repeat case_bool_decide; try reflexivity; try lia.
    + intros k img' Hk. rewrite (Hall (S k) img' Hk).
      apply bool_decide_ext. lia.
Qed.

Lemma findActive_none (images : list ClassList) (index : nat) (currentIndex : Z) :
  (∀ (k : nat) (img : ClassList), images !! k = Some img → containsActive img = false) →
  findActive index images currentIndex = currentIndex.
Proof.
  revert index currentIndex.
  induction images as [| img rest IH]; intros index cur Hall; [reflexivity |].
  cbn [findActive]. rewrite (Hall 0%nat img eq_refl). apply IH.
  intros k img' Hk. exact (Hall (S k) img' Hk).
Qed.

Lemma filter_index_seq (i a n : nat) :
  List.filter (λ k : nat, bool_decide (k = i)) (seq a n)
  = if bool_decide (a ≤ i < a + n)%nat then [i] else [].
Proof.
  revert a. induction n as [| n IH]; intros a.
  - cbn. rewrite bool_decide_eq_false_2 by lia. reflexivity.
  - cbn [seq List.filter]. rewrite IH.
    repeat case_bool_decide; subst; try reflexivity; lia.
Qed.

(** Exactly one active image, as a list of indexes and image by image. *)
Lemma activeIndexes_one (images : list ClassList) (i : nat) :
  activeIndexes images = [i]
  ↔ (i < length images)%nat
    ∧ ∀ (k : nat) (img : ClassList),
        images !! k = Some img → containsActive img = bool_decide (k = i).
Proof.
  unfold activeIndexes. split.
  - intros Hf.
    assert (∀ k : nat, In k (seq 0 (length images)) →
              match images !! k with
              | Some img => containsActive img
              | None => false
              end = bool_decide (k = i)) as Hk.
    { intros k Hin. case_bool_decide as Hki.
      - subst k. assert (In i [i]) as Hi by (left; reflexivity).
        rewrite <- Hf in Hi. apply filter_In in Hi. apply Hi.
      - apply not_true_is_false. intros Ht.
        assert (In k [i]) as Hi by (rewrite <- Hf; apply filter_In; auto).
        destruct Hi as [-> | []]. congruence. }
    assert (In i (seq 0 (length images))) as Hi.
    { assert (In i [i]) as Hi by (left; reflexivity).
      rewrite <- Hf in Hi. apply filter_In in Hi. apply Hi. }
    split; [apply in_seq in Hi; lia |].
    intros k img Hlk. specialize (Hk k). rewrite Hlk in Hk. apply Hk.
    apply in_seq. apply lookup_lt_Some in Hlk. lia.
  - intros [Hi Hall].
    rewrite (filter_ext_in _ (λ k : nat, bool_decide (k = i))).
    + rewrite filter_index_seq. rewrite bool_decide_eq_true_2 by lia. reflexivity.
    + intros k Hin. apply in_seq in Hin.
      destruct (images !! k) as [img |] eqn:Hlk; [exact (Hall k img Hlk) |].
      apply lookup_ge_None in Hlk. lia.
Qed.

Lemma activeIndexes_nil (images : list ClassList) :
  activeIndexes images = []
  ↔ ∀ (k : nat) (img : ClassList), images !! k = Some img → containsActive img = false.
Proof.
  unfold activeIndexes. split.
  - intros Hf k img Hlk. apply not_true_is_false. intros Ht.
    assert (In k []) as Hin; [| destruct Hin].
    rewrite <- Hf. apply filter_In. split.
    + apply in_seq. apply lookup_lt_Some in Hlk. lia.
    + rewrite Hlk. exact Ht.
  - intros Hall. induction (seq 0 (length images)) as [| k ks IH]; [reflexivity |].
    cbn [List.filter]. destruct (images !! k) as [img |] eqn:Hlk.
    + rewrite (Hall k img Hlk). exact IH.
    + exact IH.
Qed.

Lemma withoutActive_lookup (images : list ClassList) (k : nat) :
  withoutActive images !! k = (λ img : ClassList, img ∖ {["active"]}) <$> images !! k.
Proof. unfold withoutActive. apply list_lookup_fmap. Qed.

Lemma withoutActive_clean (images : list ClassList) :
  Forall (λ img : ClassList, "active" ∉ img) (withoutActive images).
Proof.
  unfold withoutActive. apply Forall_fmap, Forall_forall.
  intros img _. cbn. set_solver.
Qed.

(** A list with exactly one active image is its own stripped list with
    that image activated; a list with no active image is its stripped
    list. *)
Lemma activateAt_withoutActive (images : list ClassList) (i : nat) :
  activeIndexes images = [i] → images = activateAt i (withoutActive images).
Proof.
  intros [Hi Hall]%activeIndexes_one. unfold activateAt.
  rewrite withoutActive_lookup.
  destruct (lookup_lt_is_Some_2 images i Hi) as [img Hlk]. rewrite Hlk. cbn.
  apply list_eq. intros k. destruct (decide (k = i)) as [-> | Hne].
  - rewrite list_lookup_insert_eq by (unfold withoutActive; rewrite length_fmap; lia).
    rewrite Hlk. f_equal.
    pose proof (Hall i img Hlk) as Ha. rewrite bool_decide_eq_true_2 in Ha by reflexivity.
    apply containsActive_true in Ha. apply set_eq. intros c.
    destruct (decide (c = "active")) as [-> |]; set_solver.
  - rewrite list_lookup_insert_ne by congruence. rewrite withoutActive_lookup.
    destruct (images !! k) as [img' |] eqn:Hlk'; [| reflexivity]. cbn. f_equal.
    pose proof (Hall k img' Hlk') as Ha. rewrite bool_decide_eq_false_2 in Ha by congruence.
    apply containsActive_false in Ha. set_solver.
Qed.

Lemma withoutActive_id (images : list ClassList) :
  activeIndexes images = [] → images = withoutActive images.
Proof.
  intros Hall. apply list_eq. intros k. rewrite withoutActive_lookup.
  destruct (images !! k) as [img |] eqn:Hlk; [| reflexivity]. cbn. f_equal.
  pose proof (proj1 (activeIndexes_nil images) Hall k img Hlk) as Ha.
  apply containsActive_false in Ha. set_solver.
Qed.

Lemma activateAt_length (i : nat) (images : list ClassList) :
  length (activateAt i images) = length images.
Proof.
  unfold activateAt. destruct (images !! i); [apply length_insert | reflexivity].
Qed.

(** On clean images, activating the image number [i] leaves exactly that
    one active. *)
Lemma activeIndexes_activateAt (i : nat) (base : list ClassList) :
  Forall (λ img : ClassList, "active" ∉ img) base → (i < length base)%nat →
  activeIndexes (activateAt i base) = [i].
Proof.
  intros Hclean Hi. apply activeIndexes_one. rewrite activateAt_length.
  split; [exact Hi |]. intros k img Hlk. unfold activateAt in Hlk.
  destruct (lookup_lt_is_Some_2 base i Hi) as [bi Hbi]. rewrite Hbi in Hlk.
  case_bool_decide as Hk.
  - subst k. rewrite list_lookup_insert_eq in Hlk by exact Hi.
    injection Hlk as <-. apply containsActive_true. set_solver.
  - rewrite list_lookup_insert_ne in Hlk by congruence.
    apply containsActive_false.
    rewrite Forall_lookup in Hclean. exact (Hclean k img Hlk).
Qed.

(** Case analysis on the two tests of the target index. *)
Ltac carousel_cases :=
  unfold carouselTarget;
  repeat match goal with
         | |- context [(?x <? ?y)%Z] => destruct (Z.ltb_spec x y)
         | |- context [(?x <=? ?y)%Z] => destruct (Z.leb_spec x y)
         end.

Lemma carouselTarget_lt (n : nat) (i direction : Z) :
  (0 < n)%nat → (carouselTarget n i direction < n)%nat.
Proof. intros Hn. unfold carouselTarget. repeat case_match; lia. Qed.

Lemma arrayGet_of_nat {A} (arr : list A) (i : nat) :
  arrayGet arr (Z.of_nat i) = arr !! i.
Proof.
  unfold arrayGet. destruct (Z.ltb_spec (Z.of_nat i) 0) as [Hneg | _]; [lia |].
  now rewrite Nat2Z.id.
Qed.

Lemma carouselTarget_next (n i : nat) :
  (i < n)%nat →
  carouselTarget n (Z.of_nat i) 1 = if decide (i + 1 = n)%nat then 0%nat else (i + 1)%nat.
Proof. intros Hi. carousel_cases; case_decide; lia. Qed.

Lemma carouselTarget_previous (n i : nat) :
  (i < n)%nat →
  carouselTarget n (Z.of_nat i) (-1) = if decide (i = 0)%nat then (n - 1)%nat else (i - 1)%nat.
Proof. intros Hi. carousel_cases; case_decide; lia. Qed.

(** The last two lines of [moveCarousel] on clean images: the image at
    the new index exists and is activated. *)
Lemma carousel_activate_target (carouselId : string) (i direction : Z)
    (page : gmap string (list ClassList)) (base : list ClassList) :
  (0 < length base)%nat →
  (img ← arrayGet base
           (if (i + direction <? 0)%Z then (Z.of_nat (length base) - 1)%Z
            else if (Z.of_nat (length base) <=? i + direction)%Z then 0%Z
            else (i + direction)%Z);
   Some (<[carouselId :=
             <[Z.to_nat
                 (if (i + direction <? 0)%Z then (Z.of_nat (length base) - 1)%Z
                  else if (Z.of_nat (length base) <=? i + direction)%Z then 0%Z
                  else (i + direction)%Z) := img ∪ {["active"]}]> base]> page))
  = Some (<[carouselId := activateAt (carouselTarget (length base) i direction) base]> page).
Proof.
  intros Hn.
  assert ((if (i + direction <? 0)%Z then (Z.of_nat (length base) - 1)%Z
           else if (Z.of_nat (length base) <=? i + direction)%Z then 0%Z
           else (i + direction)%Z)
          = Z.of_nat (carouselTarget (length base) i direction)) as ->.
  { unfold carouselTarget. repeat case_match; lia. }
  pose proof (carouselTarget_lt (length base) i direction Hn) as Hlt.
  set (j := carouselTarget (length base) i direction) in *.
  rewrite arrayGet_of_nat, Nat2Z.id.
  destruct (lookup_lt_is_Some_2 base j Hlt) as [bj Hbj].
  rewrite Hbj. cbn [mbind option_bind]. unfold activateAt. rewrite Hbj. reflexivity.
Qed.

(** One call from the canonical form: the active image moves to the
    target, all the rest stays. *)
Lemma moveCarousel_activateAt (carouselId : string) (direction : Z)
    (page : gmap string (list ClassList)) (base : list ClassList) (i : nat) :
  page !! carouselId = Some (activateAt i base) →
  Forall (λ img : ClassList, "active" ∉ img) base → (i < length base)%nat →
  moveCarousel carouselId direction page
  = Some (<[carouselId :=
              activateAt (carouselTarget (length base) (Z.of_nat i) direction) base]> page).
Proof.
  intros Hpage Hclean Hi. unfold moveCarousel. rewrite Hpage.
  rewrite activateAt_length.
  destruct (Z.eqb_spec (Z.of_nat (length base)) 0) as [Hz | _]; [lia |].
  pose proof (activeIndexes_activateAt i base Hclean Hi) as [_ Hall]%activeIndexes_one.
  rewrite (findActive_only _ 0 i).
  2:{ intros k img Hk. rewrite (Hall k img Hk). apply bool_decide_ext. lia. }
  rewrite activateAt_length, bool_decide_eq_true_2 by lia.
  destruct (Z.leb_spec 0 (Z.of_nat i)) as [_ | Hneg]; [| lia].
  destruct (lookup_lt_is_Some_2 base i Hi) as [bi Hbi].
  rewrite arrayGet_of_nat. unfold activateAt at 1 2. rewrite Hbi.
  rewrite list_lookup_insert_eq by exact Hi. cbn [mbind option_bind].
  rewrite Nat2Z.id, list_insert_insert_eq.
  assert ((bi ∪ {["active"]}) ∖ {["active"]} = bi) as ->.
  { rewrite Forall_lookup in Hclean. pose proof (Hclean i bi Hbi). set_solver. }
  rewrite (list_insert_id base i bi Hbi).
  apply carousel_activate_target. lia.
Qed.

(** One call on clean images: the scan finds nothing and starts from -1. *)
Lemma moveCarousel_clean (carouselId : string) (direction : Z)
    (page : gmap string (list ClassList)) (base : list ClassList) :
  page !! carouselId = Some base →
  Forall (λ img : ClassList, "active" ∉ img) base → (0 < length base)%nat →
  moveCarousel carouselId direction page
  = Some (<[carouselId := activateAt (carouselTarget (length base) (-1) direction) base]> page).
Proof.
  intros Hpage Hclean Hn. unfold moveCarousel. rewrite Hpage.
  destruct (Z.eqb_spec (Z.of_nat (length base)) 0) as [Hz | _]; [lia |].
  rewrite findActive_none.
  2:{ intros k img Hk. apply containsActive_false.
      rewrite Forall_lookup in Hclean. exact (Hclean k img Hk). }
  change (0 <=? -1)%Z with false. cbn [mbind option_bind].
  apply carousel_activate_target. exact Hn.
Qed.

(** The scan returns its start value or the index of an image. *)
Lemma findActive_range (images : list ClassList) (index : nat) (currentIndex : Z) :
  findActive index images currentIndex = currentIndex
  ∨ ∃ k : nat, findActive index images currentIndex = Z.of_nat (index + k)
               ∧ (k < length images)%nat.
Proof.
  revert index currentIndex.
  induction images as [| img rest IH]; intros index cur; [left; reflexivity |].
  cbn [findActive length].
  destruct (IH (S index) (if containsActive img then Z.of_nat index else cur))
    as [-> | (k & -> & Hk)].
  - destruct (containsActive img); [| left; reflexivity].
    right. exists 0%nat. split; [f_equal | ]; lia.
  - right. exists (S k). split; [f_equal |]; lia.
Qed.



(** X2: [moveCarousel] never throws, for any integer direction and any
    classes on the images: both indexes it uses are in range.  It leaves
    the other elements, the number of images and every class other than
    [active] as they are, and when there is an image, some image is active
    afterwards. *)
Theorem moveCarousel_never_throws (carouselId : string) (direction : Z)
    (page : gmap string (list ClassList)) :
  ∃ page' : gmap string (list ClassList),
    moveCarousel carouselId direction page = Some page'
    ∧ (∀ id : string, id ≠ carouselId → page' !! id = page !! id)
    ∧ (page !! carouselId = None → page' !! carouselId = None)
    ∧ ∀ images : list ClassList,
        page !! carouselId = Some images →
        ∃ images' : list ClassList,
          page' !! carouselId = Some images'
          ∧ length images' = length images
          ∧ (∀ (k : nat) (img img' : ClassList) (c : string),
               images !! k = Some img → images' !! k = Some img' →
               c ≠ "active" → (c ∈ img' ↔ c ∈ img))
          ∧ (images ≠ [] → activeIndexes images' ≠ []).
Proof.
  unfold moveCarousel. destruct (page !! carouselId) as [images |] eqn:Hpage.
  2:{ exists page. split; [reflexivity |]. split; [reflexivity |].
      split; [auto |]. intros ? [=]. }
  destruct (Z.eqb_spec (Z.of_nat (length images)) 0) as [Hz | Hz].
  { exists page. split; [reflexivity |]. split; [reflexivity |].
    split; [intros [=] |]. intros ? [= <-]. exists images.
    split; [exact Hpage |]. split; [reflexivity |]. split.
    - intros k img img' c H1 H2. rewrite H1 in H2. injection H2 as <-. tauto.
    - intros Hne. destruct images; [congruence | cbn in Hz; lia]. }
  set (cur := findActive 0 images (-1)).
  set (new := if (cur + direction <? 0)%Z then (Z.of_nat (length images) - 1)%Z
              else if (Z.of_nat (length images) <=? cur + direction)%Z then 0%Z
              else (cur + direction)%Z).
  assert (0 ≤ new < Z.of_nat (length images))%Z as Hnew
    by (unfold new; repeat case_match; lia).
  assert (∃ images1 : list ClassList,
            (if (0 <=? cur)%Z
             then img ← arrayGet images cur;
                  Some (<[Z.to_nat cur := img ∖ {["active"]}]> images)
             else Some images) = Some images1
            ∧ length images1 = length images
            ∧ ∀ (k : nat) (img img' : ClassList) (c : string),
                images !! k = Some img → images1 !! k = Some img' →
                c ≠ "active" → (c ∈ img' ↔ c ∈ img)) as (images1 & -> & Hlen1 & Hsame1).
  { destruct (findActive_range images 0 (-1)) as [Hc | (k & Hc & Hk)]; fold cur in Hc.
    - rewrite Hc. exists images. split; [reflexivity |]. split; [reflexivity |].
      intros k img img' c H1 H2. rewrite H1 in H2. injection H2 as <-. tauto.
    - rewrite Hc. cbn [Nat.add]. destruct (Z.leb_spec 0 (Z.of_nat k)) as [_ |]; [| lia].
      rewrite arrayGet_of_nat, Nat2Z.id.
      destruct (lookup_lt_is_Some_2 images k Hk) as [ik Hik]. rewrite Hik.
      cbn [mbind option_bind]. eexists. split; [reflexivity |].
      split; [apply length_insert |].
      intros j img img' c H1 H2 Hc'. destruct (decide (j = k)) as [-> | Hne].
      + rewrite list_lookup_insert_eq in H2 by exact Hk.
        rewrite Hik in H1. injection H1 as <-. injection H2 as <-. set_solver.
      + rewrite list_lookup_insert_ne in H2 by congruence.
        rewrite H1 in H2. injection H2 as <-. tauto. }
  cbn [mbind option_bind].
  assert (Z.to_nat new < length images1)%nat as Hlt by lia.
  destruct (lookup_lt_is_Some_2 images1 (Z.to_nat new) Hlt) as [inew Hinew].
  assert (arrayGet images1 new = Some inew) as ->.
  { rewrite <- (Z2Nat.id new) at 1 by lia. rewrite arrayGet_of_nat. exact Hinew. }
  cbn [mbind option_bind]. eexists. split; [reflexivity |].
  split; [intros id Hid; apply lookup_insert_ne; congruence |].
  split; [intros [=] |]. intros ? [= <-]. eexists.
  split; [apply lookup_insert_eq |]. split; [rewrite length_insert; exact Hlen1 |].
  split.
  - intros k img img' c H1 H2 Hc. destruct (decide (k = Z.to_nat new)) as [-> | Hne].
    + rewrite list_lookup_insert_eq in H2 by exact Hlt. injection H2 as <-.
      rewrite <- (Hsame1 _ img inew c H1 Hinew Hc). set_solver.
    + rewrite list_lookup_insert_ne in H2 by congruence.
      exact (Hsame1 k img img' c H1 H2 Hc).
  - intros _ Hnil.
    pose proof (proj1 (activeIndexes_nil _) Hnil (Z.to_nat new) (inew ∪ {["active"]})) as Hf.
    rewrite list_lookup_insert_eq in Hf by exact Hlt. specialize (Hf eq_refl).
    apply containsActive_false in Hf. set_solver.
Qed.

(** X3: when exactly one image is active, exactly one is active after the
    call: the one [direction] places further, or the other end of the list
    when that is past an end. *)
Theorem moveCarousel_one_active (carouselId : string) (direction : Z)
    (page : gmap string (list ClassList)) (images : list ClassList) (i : nat) :
  page !! carouselId = Some images →
  activeIndexes images = [i] →
  ∃ images' : list ClassList,
    moveCarousel carouselId direction page = Some (<[carouselId := images']> page)
    ∧ length images' = length images
    ∧ activeIndexes images'
      = [if (Z.of_nat i + direction <? 0)%Z then (length images - 1)%nat
         else if (Z.of_nat (length images) <=? Z.of_nat i + direction)%Z then 0%nat
         else Z.to_nat (Z.of_nat i + direction)].
Proof.
  intros Hpage Hone.
  pose proof (activateAt_withoutActive images i Hone) as Hcanon.
  pose proof (proj1 (activeIndexes_one images i) Hone) as [Hi _].
  set (base := withoutActive images) in *.
  assert (length base = length images) as Hlen
    by (unfold base, withoutActive; apply length_fmap).
  rewrite Hcanon in Hpage.
  rewrite (moveCarousel_activateAt _ direction _ base i Hpage
             (withoutActive_clean images)) by lia.
  eexists. split; [reflexivity |]. rewrite activateAt_length.
  split; [exact Hlen |].
  rewrite activeIndexes_activateAt;
    [| apply withoutActive_clean | apply carouselTarget_lt; lia].
  unfold carouselTarget. rewrite Hlen. reflexivity.
Qed.

Lemma moveCarousel_one_active_witness :
  sampleCarousel !! "gallery"
  = Some [ {["carousel-image"]}; {["carousel-image"; "active"]};
           {["carousel-image"; "wide"]} ]
  ∧ activeIndexes [ {["carousel-image"]}; {["carousel-image"; "active"]};
                    {["carousel-image"; "wide"]} ] = [1%nat]
  ∧ ∃ images' : list ClassList,
      moveCarousel "gallery" 2 sampleCarousel
      = Some (<["gallery" := images']> sampleCarousel)
      ∧ length images' = 3%nat
      ∧ activeIndexes images' = [0%nat].
Proof.
  assert (sampleCarousel !! "gallery"
          = Some [ {["carousel-image"]}; {["carousel-image"; "active"]};
                   {["carousel-image"; "wide"]} ]) as Hpage by reflexivity.
  assert (activeIndexes [ {["carousel-image"]}; {["carousel-image"; "active"]};
                          {["carousel-image"; "wide"]} ] = [1%nat]) as Hone
    by (vm_compute; reflexivity).
  split; [exact Hpage |]. split; [exact Hone |].
  exact (moveCarousel_one_active "gallery" 2 sampleCarousel _ 1 Hpage Hone).
Defined.

(** Two calls in a row from the canonical form. *)
Lemma moveCarousel_twice (carouselId : string) (d1 d2 : Z)
    (page : gmap string (list ClassList)) (base : list ClassList) (i : nat) :
  page !! carouselId = Some (activateAt i base) →
  Forall (λ img : ClassList, "active" ∉ img) base → (i < length base)%nat →
  (page ← moveCarousel carouselId d1 page; moveCarousel carouselId d2 page)
  = Some (<[carouselId :=
              activateAt
                (carouselTarget (length base)
                   (Z.of_nat (carouselTarget (length base) (Z.of_nat i) d1)) d2)
                base]> page).
Proof.
  intros Hpage Hclean Hi.
  rewrite (moveCarousel_activateAt _ d1 _ base i Hpage Hclean Hi).
  cbn [mbind option_bind].
  rewrite (moveCarousel_activateAt _ d2 _ base
             (carouselTarget (length base) (Z.of_nat i) d1)).
  - rewrite insert_insert_eq. reflexivity.
  - apply lookup_insert_eq.
  - exact Hclean.
  - apply carouselTarget_lt. lia.
Qed.

(** X4: with exactly one active image, next then previous, and previous
    then next, give back the page as it was, class for class. *)
Theorem moveCarousel_next_previous (carouselId : string)
    (page : gmap string (list ClassList)) (images : list ClassList) (i : nat) :
  page !! carouselId = Some images →
  activeIndexes images = [i] →
  (page ← moveCarousel carouselId 1 page; moveCarousel carouselId (-1) page)
  = Some page
  ∧ (page ← moveCarousel carouselId (-1) page; moveCarousel carouselId 1 page)
    = Some page.
Proof.
  intros Hpage Hone.
  pose proof (activateAt_withoutActive images i Hone) as Hcanon.
  pose proof (proj1 (activeIndexes_one images i) Hone) as [Hi _].
  set (base := withoutActive images) in *.
  assert (length base = length images) as Hlen
    by (unfold base, withoutActive; apply length_fmap).
  pose proof Hpage as Hpage'. rewrite Hcanon in Hpage'.
  rewrite !(moveCarousel_twice _ _ _ _ base i Hpage' (withoutActive_clean images))
    by lia.
  assert (carouselTarget (length base)
            (Z.of_nat (carouselTarget (length base) (Z.of_nat i) 1)) (-1) = i) as ->
    by (rewrite carouselTarget_next, carouselTarget_previous;
        repeat case_decide; lia).
  assert (carouselTarget (length base)
            (Z.of_nat (carouselTarget (length base) (Z.of_nat i) (-1))) 1 = i) as ->
    by (rewrite carouselTarget_previous, carouselTarget_next;
        repeat case_decide; lia).
  rewrite <- Hcanon, (insert_id page carouselId images Hpage). auto.
Qed.

Lemma moveCarousel_next_previous_witness :
  sampleCarousel !! "gallery"
  = Some [ {["carousel-image"]}; {["carousel-image"; "active"]};
           {["carousel-image"; "wide"]} ]
  ∧ activeIndexes [ {["carousel-image"]}; {["carousel-image"; "active"]};
                    {["carousel-image"; "wide"]} ] = [1%nat]
  ∧ (page ← moveCarousel "gallery" 1 sampleCarousel; moveCarousel "gallery" (-1) page)
    = Some sampleCarousel
  ∧ (page ← moveCarousel "gallery" (-1) sampleCarousel; moveCarousel "gallery" 1 page)
    = Some sampleCarousel.
Proof.
  assert (sampleCarousel !! "gallery"
          = Some [ {["carousel-image"]}; {["carousel-image"; "active"]};
                   {["carousel-image"; "wide"]} ]) as Hpage by reflexivity.
  assert (activeIndexes [ {["carousel-image"]}; {["carousel-image"; "active"]};
                          {["carousel-image"; "wide"]} ] = [1%nat]) as Hone
    by (vm_compute; reflexivity).
  split; [exact Hpage |]. split; [exact Hone |].
  exact (moveCarousel_next_previous "gallery" sampleCarousel _ 1 Hpage Hone).
Defined.

(** [k] forward steps from the canonical form advance the active image by
    [k] modulo the number of images. *)
Lemma moveCarouselTimes_forward (k : nat) (carouselId : string)
    (page : gmap string (list ClassList)) (base : list ClassList) (i : nat) :
  page !! carouselId = Some (activateAt i base) →
  Forall (λ img : ClassList, "active" ∉ img) base → (i < length base)%nat →
  moveCarouselTimes k carouselId 1 page
  = Some (<[carouselId := activateAt ((i + k) mod length base) base]> page).
Proof.
  revert page i. induction k as [| k IH]; intros page i Hpage Hclean Hi.
  - cbn [moveCarouselTimes]. rewrite Nat.add_0_r, Nat.mod_small by exact Hi.
    rewrite (insert_id page carouselId _ Hpage). reflexivity.
  - cbn [moveCarouselTimes].
    rewrite (moveCarousel_activateAt _ 1 _ base i Hpage Hclean Hi).
    cbn [mbind option_bind].
    rewrite (IH _ (carouselTarget (length base) (Z.of_nat i) 1)).
    + rewrite insert_insert_eq. do 3 f_equal.
      rewrite carouselTarget_next by exact Hi. case_decide as Hend.
      * replace (i + S k)%nat with (k + 1 * length base)%nat by lia.
        now rewrite Nat.Div0.mod_add.
      * f_equal. lia.
    + apply lookup_insert_eq.
    + exact Hclean.
    + apply carouselTarget_lt. lia.
Qed.

Lemma moveCarouselTimes_backward (k : nat) (carouselId : string)
    (page : gmap string (list ClassList)) (base : list ClassList) (i : nat) :
  page !! carouselId = Some (activateAt i base) →
  Forall (λ img : ClassList, "active" ∉ img) base → (i < length base)%nat →
  moveCarouselTimes k carouselId (-1) page
  = Some (<[carouselId :=
              activateAt ((i + k * (length base - 1)) mod length base) base]> page).
Proof.
  revert page i. induction k as [| k IH]; intros page i Hpage Hclean Hi.
  - cbn [moveCarouselTimes]. rewrite Nat.mul_0_l, Nat.add_0_r, Nat.mod_small by exact Hi.
    rewrite (insert_id page carouselId _ Hpage). reflexivity.
  - cbn [moveCarouselTimes].
    rewrite (moveCarousel_activateAt _ (-1) _ base i Hpage Hclean Hi).
    cbn [mbind option_bind].
    rewrite (IH _ (carouselTarget (length base) (Z.of_nat i) (-1))).
    + rewrite insert_insert_eq. do 3 f_equal.
      rewrite carouselTarget_previous by exact Hi. case_decide as Hstart.
      * f_equal. lia.
      * replace (i + S k * (length base - 1))%nat
          with (i - 1 + k * (length base - 1) + 1 * length base)%nat by lia.
        now rewrite Nat.Div0.mod_add.
    + apply lookup_insert_eq.
    + exact Hclean.
    + apply carouselTarget_lt. lia.
Qed.

(** X5: with exactly one active image among [n], [n] steps forward, and
    [n] steps backward, come back to the page as it was: the carousel is a
    cycle through all its images. *)
Theorem moveCarousel_full_cycle (carouselId : string)
    (page : gmap string (list ClassList)) (images : list ClassList) (i : nat) :
  page !! carouselId = Some images →
  activeIndexes images = [i] →
  moveCarouselTimes (length images) carouselId 1 page = Some page
  ∧ moveCarouselTimes (length images) carouselId (-1) page = Some page
  ∧ ∀ k : nat, (0 < k < length images)%nat →
      ∃ images' : list ClassList,
        moveCarouselTimes k carouselId 1 page = Some (<[carouselId := images']> page)
        ∧ activeIndexes images' = [((i + k) mod length images)%nat]
        ∧ ((i + k) mod length images)%nat ≠ i.
Proof.
  intros Hpage Hone.
  pose proof (activateAt_withoutActive images i Hone) as Hcanon.
  pose proof (proj1 (activeIndexes_one images i) Hone) as [Hi _].
  set (base := withoutActive images) in *.
  assert (length base = length images) as Hlen
    by (unfold base, withoutActive; apply length_fmap).
  pose proof Hpage as Hpage'. rewrite Hcanon in Hpage'.
  assert (Forall (λ img : ClassList, "active" ∉ img) base) as Hclean
    by apply withoutActive_clean.
  split; [| split].
  - rewrite (moveCarouselTimes_forward _ _ _ base i Hpage' Hclean) by lia.
    rewrite Hlen. replace (i + length images)%nat with (i + 1 * length images)%nat by lia.
    rewrite Nat.Div0.mod_add, Nat.mod_small by exact Hi.
    rewrite <- Hcanon, (insert_id page carouselId images Hpage). reflexivity.
  - rewrite (moveCarouselTimes_backward _ _ _ base i Hpage' Hclean) by lia.
    rewrite Hlen.
    replace (i + length images * (length images - 1))%nat
      with (i + (length images - 1) * length images)%nat by lia.
    rewrite Nat.Div0.mod_add, Nat.mod_small by exact Hi.
    rewrite <- Hcanon, (insert_id page carouselId images Hpage). reflexivity.
  - intros k Hk.
    rewrite (moveCarouselTimes_forward _ _ _ base i Hpage' Hclean) by lia.
    eexists. split; [reflexivity |]. rewrite Hlen.
    split.
    + apply activeIndexes_activateAt; [exact Hclean |].
      rewrite Hlen. apply Nat.mod_upper_bound. lia.
    + intros Heq.
      destruct (Nat.lt_ge_cases (i + k) (length images)) as [Hlt | Hge].
      * rewrite Nat.mod_small in Heq by exact Hlt. lia.
      * replace (i + k)%nat with ((i + k - length images) + 1 * length images)%nat
          in Heq by lia.
        rewrite Nat.Div0.mod_add, Nat.mod_small in Heq by lia. lia.
Qed.

Lemma moveCarousel_full_cycle_witness :
  sampleCarousel !! "gallery"
  = Some [ {["carousel-image"]}; {["carousel-image"; "active"]};
           {["carousel-image"; "wide"]} ]
  ∧ activeIndexes [ {["carousel-image"]}; {["carousel-image"; "active"]};
                    {["carousel-image"; "wide"]} ] = [1%nat]
  ∧ moveCarouselTimes 3 "gallery" 1 sampleCarousel = Some sampleCarousel
  ∧ moveCarouselTimes 3 "gallery" (-1) sampleCarousel = Some sampleCarousel
  ∧ ∀ k : nat, (0 < k < 3)%nat →
      ∃ images' : list ClassList,
        moveCarouselTimes k "gallery" 1 sampleCarousel
        = Some (<["gallery" := images']> sampleCarousel)
        ∧ activeIndexes images' = [((1 + k) mod 3)%nat]
        ∧ ((1 + k) mod 3)%nat ≠ 1%nat.
Proof.
  assert (sampleCarousel !! "gallery"
          = Some [ {["carousel-image"]}; {["carousel-image"; "active"]};
                   {["carousel-image"; "wide"]} ]) as Hpage by reflexivity.
  assert (activeIndexes [ {["carousel-image"]}; {["carousel-image"; "active"]};
                          {["carousel-image"; "wide"]} ] = [1%nat]) as Hone
    by (vm_compute; reflexivity).
  split; [exact Hpage |]. split; [exact Hone |].
  exact (moveCarousel_full_cycle "gallery" sampleCarousel _ 1 Hpage Hone).
Defined.

(** X6: when no image is active, [moveCarousel] activates the first image
    for direction 1 and the last one for direction -1, and takes nothing
    off. *)
Theorem moveCarousel_none_active (carouselId : string)
    (page : gmap string (list ClassList)) (images : list ClassList) :
  page !! carouselId = Some images →
  images ≠ [] →
  activeIndexes images = [] →
  moveCarousel carouselId 1 page
  = Some (<[carouselId := activateAt 0 images]> page)
  ∧ activeIndexes (activateAt 0 images) = [0%nat]
  ∧ moveCarousel carouselId (-1) page
    = Some (<[carouselId := activateAt (length images - 1) images]> page)
  ∧ activeIndexes (activateAt (length images - 1) images) = [(length images - 1)%nat].
Proof.
  intros Hpage Hne Hnone.
  assert (0 < length images)%nat as Hn by (destruct images; [congruence | cbn; lia]).
  assert (Forall (λ img : ClassList, "active" ∉ img) images) as Hclean.
  { rewrite (withoutActive_id images Hnone). apply withoutActive_clean. }
  rewrite !(moveCarousel_clean _ _ _ images Hpage Hclean Hn).
  assert (carouselTarget (length images) (-1) 1 = 0%nat) as ->
    by (carousel_cases; lia).
  assert (carouselTarget (length images) (-1) (-1) = (length images - 1)%nat) as ->
    by (carousel_cases; lia).
  repeat split; try reflexivity; apply activeIndexes_activateAt; try assumption; lia.
Qed.

Lemma moveCarousel_none_active_witness :
  ({[ "strip" := [ ({["carousel-image"]} : ClassList); {["carousel-image"]} ] ]}
     : gmap string (list ClassList)) !! "strip"
  = Some [ {["carousel-image"]}; {["carousel-image"]} ]
  ∧ [ ({["carousel-image"]} : ClassList); {["carousel-image"]} ] ≠ []
  ∧ activeIndexes [ {["carousel-image"]}; {["carousel-image"]} ] = []
  ∧ moveCarousel "strip" 1
      {[ "strip" := [ ({["carousel-image"]} : ClassList); {["carousel-image"]} ] ]}
    = Some (<["strip" := activateAt 0 [ {["carousel-image"]}; {["carousel-image"]} ]]>
              {[ "strip" := [ {["carousel-image"]}; {["carousel-image"]} ] ]})
  ∧ activeIndexes (activateAt 0 [ {["carousel-image"]}; {["carousel-image"]} ]) = [0%nat]
  ∧ moveCarousel "strip" (-1)
      {[ "strip" := [ ({["carousel-image"]} : ClassList); {["carousel-image"]} ] ]}
    = Some (<["strip" := activateAt (2 - 1) [ {["carousel-image"]}; {["carousel-image"]} ]]>
              {[ "strip" := [ {["carousel-image"]}; {["carousel-image"]} ] ]})
  ∧ activeIndexes (activateAt (2 - 1) [ {["carousel-image"]}; {["carousel-image"]} ])
    = [(2 - 1)%nat].
Proof.
  assert (({[ "strip" := [ ({["carousel-image"]} : ClassList); {["carousel-image"]} ] ]}
             : gmap string (list ClassList)) !! "strip"
          = Some [ {["carousel-image"]}; {["carousel-image"]} ]) as Hpage
    by reflexivity.
  assert ([ ({["carousel-image"]} : ClassList); {["carousel-image"]} ] ≠ []) as Hne
    by discriminate.
  assert (activeIndexes [ {["carousel-image"]}; {["carousel-image"]} ] = []) as Hnone
    by (vm_compute; reflexivity).
  split; [exact Hpage |]. split; [exact Hne |]. split; [exact Hnone |].
  exact (moveCarousel_none_active "strip" _ _ Hpage Hne Hnone).
Defined.

(** ** The theme toggle *)

Example theme_first_visit_then_click :
  let page := (setupThemeToggle sampleThemePage).1 in
  localStorage page !! "site-theme" = Some "light"
  ∧ let s := themeRun [Click; Wait 500; Click; Wait 1099] (None, page) in
    localStorage s.2 !! "site-theme" = Some "light"
    ∧ bool_decide ("theme-fade" ∈ bodyClasses s.2) = true
    ∧ let s := themeStep (Wait 1) s in
      bool_decide ("theme-fade" ∈ bodyClasses s.2) = false
      ∧ map_to_list (timeouts s.2) = [].
Proof. vm_compute. auto 10. Qed.

(** [applyTheme] leaves the page consistent with the theme it is given,
    whatever the page was before, as soon as there is a button. *)
Lemma applyTheme_synced (isDark : bool) (p : ThemePage) :
  is_Some (toggleBtn p) → themeSynced isDark (applyTheme isDark p).
Proof.
  intros [btn Hbtn]. unfold themeSynced, applyTheme.
  destruct isDark; cbn; rewrite Hbtn; cbn.
  - split; [apply bool_decide_eq_true; set_solver |].
    split; [apply lookup_insert_eq |].
    eexists. split; [reflexivity |]. cbn.
    split; [apply bool_decide_eq_true; set_solver |].
    split; [| apply lookup_insert_eq].
    rewrite lookup_insert_ne by discriminate. apply lookup_insert_eq.
  - split; [apply bool_decide_eq_false; set_solver |].
    split; [apply lookup_insert_eq |].
    eexists. split; [reflexivity |]. cbn.
    split; [apply bool_decide_eq_false; set_solver |].
    split; [| apply lookup_insert_eq].
    rewrite lookup_insert_ne by discriminate. apply lookup_insert_eq.
Qed.

Lemma applyTheme_frame (isDark : bool) (p : ThemePage) :
  timeouts (applyTheme isDark p) = timeouts p
  ∧ nextTimeout (applyTheme isDark p) = nextTimeout p
  ∧ pageTime (applyTheme isDark p) = pageTime p
  ∧ prefersDarkQuery (applyTheme isDark p) = prefersDarkQuery p
  ∧ ("theme-fade" ∈ bodyClasses (applyTheme isDark p) ↔ "theme-fade" ∈ bodyClasses p)
  ∧ (is_Some (toggleBtn (applyTheme isDark p)) ↔ is_Some (toggleBtn p))
  ∧ ∀ key : string, key ≠ "site-theme" →
      localStorage (applyTheme isDark p) !! key = localStorage p !! key.
Proof.
  unfold applyTheme. destruct isDark; cbn.
  all: repeat split; try reflexivity; try set_solver.
  all: try (rewrite !fmap_is_Some; tauto).
  all: intros key Hkey; apply lookup_insert_ne; congruence.
Qed.

Lemma playFade_frame (fadeTimer : option nat) (p : ThemePage) :
  toggleBtn (playFade fadeTimer p).2 = toggleBtn p
  ∧ localStorage (playFade fadeTimer p).2 = localStorage p
  ∧ prefersDarkQuery (playFade fadeTimer p).2 = prefersDarkQuery p
  ∧ bodyClasses (playFade fadeTimer p).2 = bodyClasses p ∪ {["theme-fade"]}
  ∧ pageTime (playFade fadeTimer p).2 = pageTime p.
Proof. unfold playFade. cbn. auto. Qed.

Lemma themeClick_synced (fadeTimer : option nat) (isDark : bool) (p : ThemePage) :
  themeSynced isDark p → themeSynced (negb isDark) (themeClick fadeTimer p).2.
Proof.
  intros (Hbody & _ & btn & Hbtn & _). unfold themeClick.
  destruct (playFade fadeTimer p) as [ft p1] eqn:Hfade.
  pose proof (playFade_frame fadeTimer p) as (Hb1 & _). rewrite Hfade in Hb1.
  cbn [snd] in *. rewrite Hbody. apply applyTheme_synced.
  rewrite Hb1, Hbtn. eauto.
Qed.

Lemma themeWait_synced (dt : Z) (isDark : bool) (p : ThemePage) :
  themeSynced isDark p → themeSynced isDark (themeWait dt p).
Proof.
  intros (Hbody & Hstore & Hbtn). unfold themeSynced, themeWait. cbn.
  split; [| split; assumption]. rewrite <- Hbody. apply bool_decide_ext.
  destruct (bool_decide (filter _ (timeouts p) = ∅)); set_solver.
Qed.

(** X7: [setupThemeToggle] without a button changes nothing and registers
    no listener; with a button it leaves body class, button class,
    [aria-pressed], [aria-label] and the stored value consistent with one
    theme: dark when [dark] is stored, light when any other non-empty value
    is stored, and the system preference (light when [matchMedia] is
    missing) only when nothing or the empty string is stored. *)
Theorem setupThemeToggle_initial (p : ThemePage) :
  (toggleBtn p = None → setupThemeToggle p = (p, None))
  ∧ (is_Some (toggleBtn p) →
     ∃ (p' : ThemePage) (isDark : bool),
       setupThemeToggle p = (p', Some None)
       ∧ themeSynced isDark p'
       ∧ timeouts p' = timeouts p
       ∧ (localStorage p !! "site-theme" = Some "dark" → isDark = true)
       ∧ (∀ s : string, localStorage p !! "site-theme" = Some s →
            s ≠ "" → s ≠ "dark" → isDark = false)
       ∧ (localStorage p !! "site-theme" = None
          ∨ localStorage p !! "site-theme" = Some "" →
          isDark = truthy (prefersDarkQuery p))).
Proof.
  unfold setupThemeToggle. split.
  - intros ->. reflexivity.
  - intros Hbtn. pose proof Hbtn as [btn Hb]. rewrite Hb.
    eexists. eexists. split; [reflexivity |].
    split; [apply applyTheme_synced; exact Hbtn |].
    split; [apply applyTheme_frame |].
    split; [intros ->; reflexivity |]. split.
    + intros s -> Hne Hnd. destruct (String.eqb_spec s "") as [| _]; [congruence |].
      cbn. destruct (String.eqb_spec s "dark"); congruence.
    + intros [-> | ->]; reflexivity.
Qed.

(** X8: after any sequence of clicks and waits the page is still
    consistent, with the theme switched once per click. *)
Theorem themeRun_synced (events : list ThemeEvent) (fadeTimer : option nat)
    (isDark : bool) (p : ThemePage) :
  themeSynced isDark p →
  themeSynced (xorb isDark (Nat.odd (clicks events)))
              (themeRun events (fadeTimer, p)).2.
Proof.
  revert fadeTimer isDark p.
  induction events as [| e events IH]; intros ft d p Hs.
  - cbn. rewrite xorb_false_r. exact Hs.
  - unfold themeRun. cbn [foldl]. fold (themeRun events (themeStep e (ft, p))).
    destruct e as [| dt].
    + change (clicks (Click :: events)) with (S (clicks events)).
      rewrite Nat.odd_succ, <- Nat.negb_odd.
      replace (xorb d (negb (Nat.odd (clicks events))))
        with (xorb (negb d) (Nat.odd (clicks events)))
        by (destruct d, (Nat.odd (clicks events)); reflexivity).
      cbn [themeStep fst snd]. destruct (themeClick ft p) as [ft' p'] eqn:Hc.
      apply IH. pose proof (themeClick_synced ft d p Hs) as Hs'.
      rewrite Hc in Hs'. exact Hs'.
    + change (clicks (Wait dt :: events)) with (clicks events).
      cbn [themeStep fst snd]. apply IH, themeWait_synced, Hs.
Qed.

Lemma sampleThemePage_synced :
  themeSynced false (setupThemeToggle sampleThemePage).1.
Proof.
  unfold themeSynced. split; [vm_compute; reflexivity |].
  split; [vm_compute; reflexivity |].
  eexists. split; [reflexivity |]. vm_compute. auto.
Qed.

Lemma themeRun_synced_one_click_sample :
  themeSynced true (themeRun [Click] (None, (setupThemeToggle sampleThemePage).1)).2.
Proof.
  apply (themeClick_synced None false), sampleThemePage_synced.
Qed.

Lemma themeRun_synced_witness :
  themeSynced false (setupThemeToggle sampleThemePage).1
  ∧ themeSynced (xorb false (Nat.odd (clicks [Click; Wait 200; Click; Click])))
      (themeRun [Click; Wait 200; Click; Click]
         (None, (setupThemeToggle sampleThemePage).1)).2.
Proof.
  split; [exact sampleThemePage_synced |].
  exact (themeRun_synced [Click; Wait 200; Click; Click] None false _
           sampleThemePage_synced).
Defined.

(** X9: the theme survives a reload.  Whatever the new page looks like
    and whatever the system preference is, [setupThemeToggle] on a page
    with a button and the storage left by a consistent page restores the
    same theme. *)
Theorem setupThemeToggle_reload (isDark : bool) (p q : ThemePage) :
  themeSynced isDark p →
  is_Some (toggleBtn q) →
  localStorage q = localStorage p →
  themeSynced isDark (setupThemeToggle q).1.
Proof.
  intros (_ & Hstore & _) Hbtn Hq. unfold setupThemeToggle.
  pose proof Hbtn as [btn ->]. rewrite Hq, Hstore. cbn [fst].
  destruct isDark.
  - exact (applyTheme_synced true q Hbtn).
  - exact (applyTheme_synced false q Hbtn).
Qed.

Lemma setupThemeToggle_reload_witness :
  themeSynced true (themeRun [Click] (None, (setupThemeToggle sampleThemePage).1)).2
  ∧ is_Some (toggleBtn reloadedThemePage)
  ∧ localStorage reloadedThemePage
    = localStorage (themeRun [Click] (None, (setupThemeToggle sampleThemePage).1)).2
  ∧ themeSynced true (setupThemeToggle reloadedThemePage).1.
Proof.
  assert (themeSynced true
            (themeRun [Click] (None, (setupThemeToggle sampleThemePage).1)).2) as Hs
    by exact (themeRun_synced_one_click_sample).
  assert (is_Some (toggleBtn reloadedThemePage)) as Hb by (eexists; reflexivity).
  assert (localStorage reloadedThemePage
          = localStorage
              (themeRun [Click] (None, (setupThemeToggle sampleThemePage).1)).2)
    as Hq by (vm_compute; reflexivity).
  split; [exact Hs |]. split; [exact Hb |]. split; [exact Hq |].
  exact (setupThemeToggle_reload true _ reloadedThemePage Hs Hb Hq).
Defined.

Lemma setupThemeToggle_initial_witness :
  is_Some (toggleBtn sampleThemePage)
  ∧ ∃ (p' : ThemePage) (isDark : bool),
      setupThemeToggle sampleThemePage = (p', Some None)
      ∧ themeSynced isDark p'
      ∧ timeouts p' = timeouts sampleThemePage
      ∧ (localStorage sampleThemePage !! "site-theme" = Some "dark" → isDark = true)
      ∧ (∀ s : string, localStorage sampleThemePage !! "site-theme" = Some s →
           s ≠ "" → s ≠ "dark" → isDark = false)
      ∧ (localStorage sampleThemePage !! "site-theme" = None
         ∨ localStorage sampleThemePage !! "site-theme" = Some "" →
         isDark = truthy (prefersDarkQuery sampleThemePage)).
Proof.
  assert (is_Some (toggleBtn sampleThemePage)) as Hb by (eexists; reflexivity).
  split; [exact Hb |].
  exact (proj2 (setupThemeToggle_initial sampleThemePage) Hb).
Defined.

Lemma themeClick_eq (fadeTimer : option nat) (p : ThemePage) :
  themeClick fadeTimer p
  = ((playFade fadeTimer p).1,
     applyTheme (negb (bool_decide ("theme-dark" ∈ bodyClasses p)))
       (playFade fadeTimer p).2).
Proof. unfold themeClick. destruct (playFade fadeTimer p). reflexivity. Qed.



(** The only timeout that can be pending is the one [fadeTimer] names. *)
Lemma clearTimeout_own (fadeTimer : option nat) (p : ThemePage) :
  (∀ id : nat, is_Some (timeouts p !! id) → fadeTimer = Some id) →
  timeouts (clearTimeout fadeTimer p) = ∅.
Proof.
  intros Hown. unfold clearTimeout. cbn. apply map_empty. intros k.
  destruct fadeTimer as [id |].
  - destruct (decide (id = k)) as [-> | Hne]; [apply lookup_delete_eq |].
    rewrite lookup_delete_ne by exact Hne.
    destruct (timeouts p !! k) eqn:Hk; [| reflexivity].
    assert (Some id = Some k) as [= ->] by (apply Hown; rewrite Hk; eauto).
    congruence.
  - destruct (timeouts p !! k) eqn:Hk; [| reflexivity].
    assert (@None nat = Some k) by (apply Hown; rewrite Hk; eauto). discriminate.
Qed.

Lemma themeClick_timeouts (fadeTimer : option nat) (p : ThemePage) :
  (∀ id : nat, is_Some (timeouts p !! id) → fadeTimer = Some id) →
  (themeClick fadeTimer p).1 = Some (nextTimeout p)
  ∧ timeouts (themeClick fadeTimer p).2 = {[nextTimeout p := (pageTime p + 1100)%Z]}
  ∧ pageTime (themeClick fadeTimer p).2 = pageTime p
  ∧ "theme-fade" ∈ bodyClasses (themeClick fadeTimer p).2.
Proof.
  intros Hown. rewrite themeClick_eq. cbn [fst snd].
  destruct (applyTheme_frame (negb (bool_decide ("theme-dark" ∈ bodyClasses p)))
              (playFade fadeTimer p).2) as (-> & _ & -> & _ & -> & _).
  pose proof (clearTimeout_own fadeTimer p Hown) as Hclear.
  unfold clearTimeout in Hclear. cbn in Hclear.
  unfold playFade. cbn. rewrite Hclear.
  repeat split; try reflexivity. set_solver.
Qed.

Lemma themeStep_own (e : ThemeEvent) (s : option nat * ThemePage) :
  (∀ id : nat, is_Some (timeouts s.2 !! id) → s.1 = Some id) →
  ∀ id : nat, is_Some (timeouts (themeStep e s).2 !! id) → (themeStep e s).1 = Some id.
Proof.
  destruct s as [ft p]. cbn [fst snd]. intros Hown id. destruct e as [| dt].
  - cbn [themeStep fst snd].
    destruct (themeClick_timeouts ft p Hown) as (-> & -> & _).
    intros [dl Hdl]. apply lookup_singleton_Some in Hdl as [-> _]. reflexivity.
  - cbn [themeStep fst snd themeWait timeouts]. intros [dl Hdl].
    apply map_lookup_filter_Some in Hdl as [Hdl _]. apply Hown. eauto.
Qed.

Lemma themeRun_own (events : list ThemeEvent) (s : option nat * ThemePage) :
  (∀ id : nat, is_Some (timeouts s.2 !! id) → s.1 = Some id) →
  ∀ id : nat, is_Some (timeouts (themeRun events s).2 !! id) →
              (themeRun events s).1 = Some id.
Proof.
  revert s. induction events as [| e events IH]; intros s Hown; [exact Hown |].
  unfold themeRun. cbn [foldl]. apply IH, themeStep_own, Hown.
Qed.

(** X11: the fade class stays on the body until 1100 ms after the last
    click, whatever clicks and waits came before: every click cancels the
    timeout of the click before it.  It is on after a wait shorter than
    1100 ms and off, with no timeout left, from 1100 ms on. *)
Theorem themeFade_after_last_click (events : list ThemeEvent)
    (fadeTimer : option nat) (p : ThemePage) (dt : Z) :
  (∀ id : nat, is_Some (timeouts p !! id) → fadeTimer = Some id) →
  let s := themeRun (events ++ [Click; Wait dt]) (fadeTimer, p) in
  ("theme-fade" ∈ bodyClasses s.2 ↔ (dt < 1100)%Z)
  ∧ (timeouts s.2 = ∅ ↔ (1100 ≤ dt)%Z).
Proof.
  intros Hown. cbv zeta. unfold themeRun. rewrite foldl_app.
  fold (themeRun events (fadeTimer, p)).
  pose proof (themeRun_own events (fadeTimer, p) Hown) as Hown'.
  destruct (themeRun events (fadeTimer, p)) as [ft q]. cbn [fst snd] in Hown'.
  cbn [foldl themeStep fst snd].
  destruct (themeClick_timeouts ft q Hown') as (_ & Ht & Htime & Hfade).
  unfold themeWait. cbn [bodyClasses timeouts]. rewrite Ht, Htime.
  rewrite !map_filter_singleton. cbn [snd].
  destruct (decide (pageTime q + 1100 ≤ pageTime q + dt)%Z) as [Hdue | Hnot].
  - rewrite decide_False by tauto.
    rewrite bool_decide_eq_false_2
      by (intros He; apply (f_equal (lookup (nextTimeout q))) in He;
          rewrite lookup_singleton_eq, lookup_empty in He; discriminate).
    split; [set_solver by lia |]. split; [lia | reflexivity].
  - rewrite decide_True by tauto.
    rewrite bool_decide_eq_true_2 by reflexivity.
    split; [split; [lia | intros _; exact Hfade] |].
    split; [| lia]. intros He. apply (f_equal (lookup (nextTimeout q))) in He.
    rewrite lookup_singleton_eq, lookup_empty in He. discriminate.
Qed.

Lemma themeFade_after_last_click_witness :
  (∀ id : nat, is_Some (timeouts (setupThemeToggle sampleThemePage).1 !! id) →
               @None nat = Some id)
  ∧ ("theme-fade"
       ∈ bodyClasses
           (themeRun ([Click; Wait 1000] ++ [Click; Wait 1099])
              (None, (setupThemeToggle sampleThemePage).1)).2
     ↔ (1099 < 1100)%Z)
  ∧ (timeouts
       (themeRun ([Click; Wait 1000] ++ [Click; Wait 1099])
          (None, (setupThemeToggle sampleThemePage).1)).2 = ∅
     ↔ (1100 ≤ 1099)%Z).
Proof.
  assert (∀ id : nat, is_Some (timeouts (setupThemeToggle sampleThemePage).1 !! id) →
                      @None nat = Some id) as Hown.
  { intros id [dl Hdl]. change (timeouts (setupThemeToggle sampleThemePage).1)
      with (∅ : gmap nat Z) in Hdl. rewrite lookup_empty in Hdl. discriminate. }
  split; [exact Hown |].
  exact (themeFade_after_last_click [Click; Wait 1000] None _ 1099 Hown).
Defined.

(** X12: when the click listener of [optimizeThemeToggle] (optimized.js)
    is registered on the same button, its frame callback toggles the body
    class once more: after a click and that frame the body shows the old
    theme again while the storage and the button carry the new one, so the
    page is consistent with neither theme. *)
Theorem themeClick_with_optimized (fadeTimer : option nat) (isDark : bool)
    (p : ThemePage) :
  themeSynced isDark p →
  let p' := optimizedThemeFrame (themeClick fadeTimer p).2 in
  bool_decide ("theme-dark" ∈ bodyClasses p') = isDark
  ∧ localStorage p' !! "site-theme" = Some (if isDark then "light" else "dark")
  ∧ ∀ b : bool, ¬ themeSynced b p'.
Proof.
  intros Hs. cbv zeta.
  pose proof (themeClick_synced fadeTimer isDark p Hs) as (Hbody & Hstore & _).
  set (p1 := (themeClick fadeTimer p).2) in *.
  assert (bool_decide ("theme-dark" ∈ bodyClasses (optimizedThemeFrame p1)) = isDark)
    as Hb.
  { unfold optimizedThemeFrame, setBodyClasses. cbn [bodyClasses]. rewrite Hbody.
    destruct isDark; cbn [negb];
      [apply bool_decide_eq_true | apply bool_decide_eq_false]; set_solver. }
  assert (localStorage (optimizedThemeFrame p1) !! "site-theme"
          = Some (if isDark then "light" else "dark")) as Hl.
  { unfold optimizedThemeFrame, setBodyClasses. cbn [localStorage].
    rewrite Hstore. destruct isDark; reflexivity. }
  split; [exact Hb |]. split; [exact Hl |].
  intros b (Hb' & Hl' & _). rewrite Hb in Hb'. subst b. rewrite Hl in Hl'.
  destruct isDark; discriminate.
Qed.

Lemma themeClick_with_optimized_witness :
  themeSynced false (setupThemeToggle sampleThemePage).1
  ∧ bool_decide
      ("theme-dark"
         ∈ bodyClasses
             (optimizedThemeFrame
                (themeClick None (setupThemeToggle sampleThemePage).1).2)) = false
  ∧ localStorage
      (optimizedThemeFrame (themeClick None (setupThemeToggle sampleThemePage).1).2)
      !! "site-theme" = Some "dark"
  ∧ ∀ b : bool,
      ¬ themeSynced b
          (optimizedThemeFrame (themeClick None (setupThemeToggle sampleThemePage).1).2).
Proof.
  split; [exact sampleThemePage_synced |].
  exact (themeClick_with_optimized None false _ sampleThemePage_synced).
Defined.

(** ** More on the gradient animator *)

Lemma getProperty_writeStyle_ne (el el' name name' value : string)
    (doc : gmap string Style) :
  el ≠ el' ∨ name ≠ name' →
  (writeStyle el' name' value doc !! el ≫= λ st : Style, st !! name)
  = (doc !! el ≫= λ st : Style, st !! name).
Proof.
  intros Hne. unfold writeStyle. rewrite lookup_alter.
  destruct (decide (el' = el)) as [-> |]; [| reflexivity].
  destruct (doc !! el) as [st |]; cbn; [| reflexivity].
  apply lookup_insert_ne. destruct Hne; congruence.
Qed.

Section AnimatorMore.

Variable numberToString : Q → string.
Variable random : nat → Q.
Hypothesis random_range : ∀ n : nat, (0 <= random n)%Q ∧ (random n < 1)%Q.

(** X13: a frame of [animate] writes nothing but [--hero-bg] of the hero
    element and [--topbar-bg] of the navigation bar: every other property
    of every element keeps its value, no element appears or disappears,
    and the clock is not touched. *)
Theorem animate_writes_only_backgrounds (st : Anim) (w : World) :
  wfAnim st →
  ∃ (st' : Anim) (w' : World),
    animate numberToString random st w = Some (st', w')
    ∧ clock w' = clock w
    ∧ (∀ el : string, is_Some (document w' !! el) ↔ is_Some (document w !! el))
    ∧ ∀ el name : string,
        ¬ (wrapper st = Some el ∧ name = "--hero-bg") →
        ¬ (topbar st = Some el ∧ name = "--topbar-bg") →
        getProperty el name w' = getProperty el name w.
Proof.
  intros Hwf.
  destruct (animate_run numberToString random random_range st w Hwf)
    as (c1 & c2 & c3 & _ & _ & _ & Hrun).
  eexists. eexists. split; [exact Hrun |]. split; [reflexivity |].
  set (s := gradientToString _ _). unfold nextWorld, getProperty.
  cbn [document]. unfold frameStyles. split.
  - intros el. destruct (wrapper st) as [h |], (topbar st) as [b |];
      unfold writeStyle; rewrite ?lookup_alter_is_Some; reflexivity.
  - intros el name Hh Hb.
    destruct (wrapper st) as [h |], (topbar st) as [b |];
      rewrite ?getProperty_writeStyle_ne; try reflexivity.
    all: try (destruct (decide (el = b)) as [-> |]; [right | left; assumption];
              intros ->; apply Hb; auto).
    all: destruct (decide (el = h)) as [-> |]; [right | left; assumption];
         intros ->; apply Hh; auto.
Qed.

End AnimatorMore.

Lemma animate_writes_only_backgrounds_witness :
  (∀ n : nat, (0 <= sampleRandom n)%Q ∧ (sampleRandom n < 1)%Q)
  ∧ wfAnim (sampleAnim (1 # 4) 0)
  ∧ ∃ (st' : Anim) (w' : World),
      animate sampleNumberToString sampleRandom (sampleAnim (1 # 4) 0) (sampleWorld 16)
      = Some (st', w')
      ∧ clock w' = clock (sampleWorld 16)
      ∧ (∀ el : string, is_Some (document w' !! el)
                        ↔ is_Some (document (sampleWorld 16) !! el))
      ∧ ∀ el name : string,
          ¬ (wrapper (sampleAnim (1 # 4) 0) = Some el ∧ name = "--hero-bg") →
          ¬ (topbar (sampleAnim (1 # 4) 0) = Some el ∧ name = "--topbar-bg") →
          getProperty el name w' = getProperty el name (sampleWorld 16).
Proof.
  split; [exact sampleRandom_range |]. split; [apply sampleAnim_wf |].
  exact (animate_writes_only_backgrounds sampleNumberToString sampleRandom
           sampleRandom_range _ (sampleWorld 16) (sampleAnim_wf (1 # 4) 0)).
Defined.

(** Between valid colours and for [t] in [0,1], what [lerpColor] returns
    is read back as a valid colour. *)
Lemma lerpColor_valid_string (s1 s2 : option string) (c1 c2 : Color) (t : Q)
    (out : string) :
  parseColor s1 = Some c1 → parseColor s2 = Some c2 →
  validColor c1 → validColor c2 → (0 <= t)%Q → (t <= 1)%Q →
  lerpColor s1 s2 t = Some out → validColorString out.
Proof.
  intros P1 P2 (R1 & G1 & B1 & A1) (R2 & G2 & B2 & A2) Ht0 Ht1 Hout.
  rewrite (lerpColor_parsed _ _ _ _ t P1 P2) in Hout. injection Hout as <-.
  destruct (toFixed2_unit (a c1 + (a c2 - a c1) * t)) as (n & -> & Hn & _);
    [nra | nra |].
  pose proof (channel_range _ _ t R1 R2 Ht0 Ht1) as Hr.
  pose proof (channel_range _ _ t G1 G2 Ht0 Ht1) as Hg.
  pose proof (channel_range _ _ t B1 B2 Ht0 Ht1) as Hb.
  destruct (parseColor_rgba _ _ _ n Hr Hg Hb Hn) as (alpha & Hp & _ & Ea).
  eexists. split; [exact Hp |]. unfold validColor. cbn [r g b a].
  destruct Hn as [Hn0 Hn1]. rewrite Zle_Qle in Hn0, Hn1.
  change (inject_Z 0) with 0%Q in Hn0. change (inject_Z 100) with 100%Q in Hn1.
  repeat split; try lia; rewrite Ea;
    [apply Qle_shift_div_l | apply Qle_shift_div_r]; lra.
Qed.

Section RenderedFrames.

Variable numberToString : Q → string.
Variable random : nat → Q.
Hypothesis random_range : ∀ n : nat, (0 <= random n)%Q ∧ (random n < 1)%Q.

Lemma gradientAt_inWindows (n : nat) : inWindows (gradientAt random n).
Proof.
  unfold inWindows, gradientAt. cbn [pos1X pos1Y pos2X pos2Y pos3X pos3Y].
  pose proof (random_range (3 + n)) as [].
  pose proof (random_range (4 + n)) as [].
  pose proof (random_range (5 + n)) as [].
  pose proof (random_range (6 + n)) as [].
  pose proof (random_range (7 + n)) as [].
  pose proof (random_range (8 + n)) as [].
  repeat split; lra.
Qed.

(** X14: when both gradients have their positions in the windows of the
    generator and the raw progress of the step is in [0,2), the gradient
    that the frame renders is a proper one: every position is inside the
    window of its stop, every colour is read back as a valid colour, and
    the two gradients kept for the next frame are again in the windows. *)
Theorem animate_renders_in_windows (st : Anim) (w : World) :
  wfAnim st →
  inWindows (currentGradient st) → inWindows (targetGradient st) →
  (0 <= rawProgress st w)%Q → (rawProgress st w < 2)%Q →
  ∃ (st' : Anim) (w' : World) (c1 c2 c3 : string),
    animate numberToString random st w = Some (st', w')
    ∧ trace w'
      = (trace w
           ++ frameWrites st (gradientToString numberToString (interpGrad st' c1 c2 c3))
           ++ [RequestAnimationFrame])%list
    ∧ inWindows (interpGrad st' c1 c2 c3)
    ∧ validColorString c1 ∧ validColorString c2 ∧ validColorString c3
    ∧ inWindows (currentGradient st') ∧ inWindows (targetGradient st').
Proof.
  intros Hwf Hcur Htgt Hraw0 Hraw2.
  destruct (animate_run numberToString random random_range st w Hwf)
    as (c1 & c2 & c3 & H1 & H2 & H3 & Hrun).
  cbv zeta in H1, H2, H3.
  destruct (nextAnim_progress random st w Hraw0 Hraw2) as [Hp0 Hp1].
  pose proof (nextAnim_wf random random_range st w Hwf)
    as [(C1 & C2 & C3) (T1 & T2 & T3)].
  assert (inWindows (currentGradient (nextAnim random st w))
          ∧ inWindows (targetGradient (nextAnim random st w))) as [Hcur' Htgt'].
  { unfold nextAnim. destruct (rotates st w); cbn [currentGradient targetGradient];
      split; try assumption. apply gradientAt_inWindows. }
  set (st' := nextAnim random st w) in *.
  exists st'. eexists. exists c1, c2, c3. split; [exact Hrun |].
  split; [reflexivity |]. split.
  { unfold inWindows, interpGrad in *.
    cbn [pos1X pos1Y pos2X pos2Y pos3X pos3Y].
    destruct Hcur' as (? & ? & ? & ? & ? & ? & ? & ? & ? & ? & ? & ?).
    destruct Htgt' as (? & ? & ? & ? & ? & ? & ? & ? & ? & ? & ? & ?).
    repeat split; nra. }
  assert (∀ (x y : option string) (c : string),
            inPalette x → inPalette y →
            lerpColor x y (animationProgress st') = Some c → validColorString c)
    as Hvalid.
  { intros x y c Hx Hy Hc.
    destruct (inPalette_parse x Hx) as (? & kx & _ & _ & Px & Vx & _).
    destruct (inPalette_parse y Hy) as (? & ky & _ & _ & Py & Vy & _).
    apply (lerpColor_valid_string x y kx ky (animationProgress st') c); auto.
    lra. }
  split; [exact (Hvalid _ _ _ C1 T1 H1) |].
  split; [exact (Hvalid _ _ _ C2 T2 H2) |].
  split; [exact (Hvalid _ _ _ C3 T3 H3) |].
  split; assumption.
Qed.

End RenderedFrames.

Lemma sampleGradient_inWindows (i j k : nat) : inWindows (sampleGradient i j k).
Proof. unfold inWindows, sampleGradient. cbn. repeat split; lra. Qed.

Lemma animate_renders_in_windows_witness :
  (∀ n : nat, (0 <= sampleRandom n)%Q ∧ (sampleRandom n < 1)%Q)
  ∧ wfAnim (sampleAnim (1 # 2) 0)
  ∧ inWindows (currentGradient (sampleAnim (1 # 2) 0))
  ∧ inWindows (targetGradient (sampleAnim (1 # 2) 0))
  ∧ (0 <= rawProgress (sampleAnim (1 # 2) 0) (sampleWorld 4000))%Q
  ∧ (rawProgress (sampleAnim (1 # 2) 0) (sampleWorld 4000) < 2)%Q
  ∧ ∃ (st' : Anim) (w' : World) (c1 c2 c3 : string),
      animate sampleNumberToString sampleRandom (sampleAnim (1 # 2) 0) (sampleWorld 4000)
      = Some (st', w')
      ∧ trace w'
        = (trace (sampleWorld 4000)
             ++ frameWrites (sampleAnim (1 # 2) 0)
                  (gradientToString sampleNumberToString (interpGrad st' c1 c2 c3))
             ++ [RequestAnimationFrame])%list
      ∧ inWindows (interpGrad st' c1 c2 c3)
      ∧ validColorString c1 ∧ validColorString c2 ∧ validColorString c3
      ∧ inWindows (currentGradient st') ∧ inWindows (targetGradient st').
Proof.
  assert (0 <= rawProgress (sampleAnim (1 # 2) 0) (sampleWorld 4000))%Q as H0
    by discriminate.
  assert (rawProgress (sampleAnim (1 # 2) 0) (sampleWorld 4000) < 2)%Q as H2
    by reflexivity.
  split; [exact sampleRandom_range |]. split; [apply sampleAnim_wf |].
  split; [apply sampleGradient_inWindows |]. split; [apply sampleGradient_inWindows |].
  split; [exact H0 |]. split; [exact H2 |].
  exact (animate_renders_in_windows sampleNumberToString sampleRandom
           sampleRandom_range _ _ (sampleAnim_wf (1 # 2) 0)
           (sampleGradient_inWindows 0 1 2) (sampleGradient_inWindows 3 0 1) H0 H2).
Defined.

(** X15: printing and parsing agree.  A valid colour printed the way
    [lerpColor] prints is read back by [parseColor] with the same three
    channels and the alpha rounded to the nearest hundredth, and printing
    what was read gives the same string again. *)
Theorem printColor_parseColor (c : Color) :
  validColor c →
  ∃ c' : Color,
    parseColor (Some (printColor c)) = Some c'
    ∧ r c' = r c ∧ g c' = g c ∧ b c' = b c
    ∧ (a c - (1 # 200) <= a c')%Q ∧ (a c' <= a c + (1 # 200))%Q
    ∧ validColor c'
    ∧ printColor c' = printColor c.
Proof.
  intros (Hr & Hg & Hb & Ha0 & Ha1).
  destruct (toFixed2_unit (a c) Ha0 Ha1) as (n & En & Hn & Hlo & Hhi).
  destruct (parseColor_rgba _ _ _ n Hr Hg Hb Hn) as (alpha & Hp & _ & Ea).
  unfold printColor. rewrite En. eexists. split; [exact Hp |]. cbn [r g b a].
  do 3 (split; [reflexivity |]).
  assert (alpha * 100 == inject_Z n) as Hn100 by (rewrite Ea; field).
  split; [lra |]. split; [lra |].
  destruct Hn as [Hn0 Hn1]. pose proof Hn0 as Hq0. pose proof Hn1 as Hq1.
  rewrite Zle_Qle in Hq0, Hq1.
  change (inject_Z 0) with 0%Q in Hq0. change (inject_Z 100) with 100%Q in Hq1.
  assert ((0 <= alpha)%Q ∧ (alpha <= 1)%Q) as [Hal0 Hal1] by (split; lra).
  split; [unfold validColor; cbn [r g b a]; tauto |].
  f_equal. destruct (toFixed2_unit alpha Hal0 Hal1) as (m & -> & _ & Hmlo & Hmhi).
  f_equal.
  assert (inject_Z m < inject_Z (n + 1))%Q as Hm1
    by (rewrite inject_Z_plus; change (inject_Z 1) with 1%Q; lra).
  assert (inject_Z n < inject_Z (m + 1))%Q as Hm2
    by (rewrite inject_Z_plus; change (inject_Z 1) with 1%Q; lra).
  rewrite <- Zlt_Qlt in Hm1, Hm2. lia.
Qed.

Lemma printColor_parseColor_witness :
  validColor {| r := 255; g := 0; b := 7; a := 1 # 3 |}
  ∧ ∃ c' : Color,
      parseColor (Some (printColor {| r := 255; g := 0; b := 7; a := 1 # 3 |})) = Some c'
      ∧ r c' = 255%Z ∧ g c' = 0%Z ∧ b c' = 7%Z
      ∧ ((1 # 3) - (1 # 200) <= a c')%Q ∧ (a c' <= (1 # 3) + (1 # 200))%Q
      ∧ validColor c'
      ∧ printColor c' = printColor {| r := 255; g := 0; b := 7; a := 1 # 3 |}.
Proof.
  assert (validColor {| r := 255; g := 0; b := 7; a := 1 # 3 |}) as Hv
    by (unfold validColor; cbn; repeat split; try lia; lra).
  split; [exact Hv |]. exact (printColor_parseColor _ Hv).
Defined.

(** ** The active navigation link *)

Example navCallback_sample :
  setupActiveNavHighlight sampleNavLinks = Some ["projects"; "about"; "contact"]
  ∧ navCallback ["projects"; "about"; "contact"]
      [("about", true); ("hero", true); ("projects", false)] sampleNavLinks
    = {[ "projects" := {["nav-link"]};
         "about" := {["nav-link"; "active"]};
         "contact" := {["nav-link"; "cta"]} ]}
  ∧ setupActiveNavHighlight ∅ = None.
Proof. vm_compute. auto. Qed.

Lemma find_eqb (x : string) (l : list string) :
  List.find (λ id : string, String.eqb id x) l = if decide (x ∈ l) then Some x else None.
Proof.
  induction l as [| y l IH]; cbn [List.find].
  - rewrite decide_False by apply not_elem_of_nil. reflexivity.
  - destruct (String.eqb_spec y x) as [-> | Hne].
    + rewrite decide_True by apply list_elem_of_here. reflexivity.
    + rewrite IH. destruct (decide (x ∈ l)) as [Hin | Hnin].
      * rewrite decide_True by (apply list_elem_of_further, Hin). reflexivity.
      * rewrite decide_False; [reflexivity |].
        intros [Heq | Hin]%elem_of_cons; congruence.
Qed.

Lemma clearActive_lookup (navLinks : list string) (links : gmap string ClassList)
    (id : string) :
  clearActive navLinks links !! id
  = if decide (id ∈ navLinks)
    then (λ cl : ClassList, cl ∖ {["active"]}) <$> links !! id
    else links !! id.
Proof.
  revert links. induction navLinks as [| x xs IH]; intros links.
  - rewrite decide_False by apply not_elem_of_nil. reflexivity.
  - unfold clearActive. cbn [foldl]. fold (clearActive xs (alter (λ cl : ClassList, cl ∖ {["active"]}) x links)).
    rewrite IH, lookup_alter.
    destruct (decide (id ∈ xs)) as [Hin | Hnin],
             (decide (id ∈ x :: xs)) as [Hin' | Hnin'],
             (decide (x = id)) as [Heq | Hne];
      try subst x; try reflexivity; try (exfalso; set_solver).
    destruct (links !! id) as [cl |]; cbn; [| reflexivity].
    f_equal. set_solver.
Qed.

(** One entry: either nothing changes, or exactly its link is active among
    the navigation links. *)
Lemma navEntry_lookup (navLinks : list string) (entry : string * bool)
    (links : gmap string ClassList) (id : string) :
  navEntry navLinks entry links !! id
  = if decide (entry.2 = true ∧ entry.1 ∈ navLinks)
    then if decide (id ∈ navLinks)
         then (λ cl : ClassList,
                 if decide (id = entry.1) then (cl ∖ {["active"]}) ∪ {["active"]}
                 else cl ∖ {["active"]}) <$> links !! id
         else links !! id
    else links !! id.
Proof.
  unfold navEntry. rewrite find_eqb. destruct entry as [target shown]. cbn [fst snd].
  destruct (decide (target ∈ navLinks)) as [Hin | Hnin].
  - destruct shown.
    + rewrite decide_True by tauto. rewrite lookup_alter.
      destruct (decide (target = id)) as [-> | Hne]; rewrite clearActive_lookup.
      * rewrite !decide_True by assumption.
        destruct (links !! id) as [cl |]; cbn; [| reflexivity].
        rewrite decide_True by reflexivity. reflexivity.
      * destruct (decide (id ∈ navLinks)); [| reflexivity].
        destruct (links !! id) as [cl |]; cbn; [| reflexivity].
        rewrite decide_False by congruence. reflexivity.
    + rewrite decide_False by (intros [? ?]; discriminate). reflexivity.
  - rewrite decide_False by tauto. reflexivity.
Qed.

Lemma lastShown_snoc (navLinks : list string) (entries : list (string * bool))
    (entry : string * bool) :
  lastShown navLinks (entries ++ [entry])
  = if decide (entry.2 = true ∧ entry.1 ∈ navLinks) then Some entry.1
    else lastShown navLinks entries.
Proof.
  unfold lastShown. rewrite List.filter_app, fmap_app, List.filter_app.
  destruct entry as [target shown]. cbn [fst snd List.filter].
  destruct shown; cbn [fmap list_fmap List.filter].
  - case_bool_decide as Hin.
    + rewrite decide_True by tauto. apply last_snoc.
    + rewrite decide_False by tauto. rewrite app_nil_r. reflexivity.
  - rewrite decide_False by (intros [? ?]; discriminate).
    rewrite app_nil_r. reflexivity.
Qed.

(** X16: the observer callback keeps at most one navigation link active.
    After a batch of entries, the link of the last entry that intersects
    and has a link is the only active one among the navigation links; with
    no such entry nothing changes.  No link appears or disappears and no
    class other than [active] changes. *)
Theorem navCallback_one_active (navLinks : list string)
    (entries : list (string * bool)) (links : gmap string ClassList) :
  let links' := navCallback navLinks entries links in
  (∀ id : string, is_Some (links' !! id) ↔ is_Some (links !! id))
  ∧ (∀ (id : string) (cl cl' : ClassList) (c : string),
       links !! id = Some cl → links' !! id = Some cl' →
       c ≠ "active" → (c ∈ cl' ↔ c ∈ cl))
  ∧ match lastShown navLinks entries with
    | Some shown =>
        shown ∈ navLinks
        ∧ ∀ (id : string) (cl' : ClassList),
            id ∈ navLinks → links' !! id = Some cl' → ("active" ∈ cl' ↔ id = shown)
    | None => links' = links
    end.
Proof.
  cbv zeta. induction entries as [| entry entries IH] using rev_ind.
  - cbn. split; [tauto |]. split; [| reflexivity].
    intros id cl cl' c H1 H2. rewrite H1 in H2. injection H2 as <-. tauto.
  - unfold navCallback. rewrite foldl_app. cbn [foldl].
    fold (navCallback navLinks entries links).
    set (mid := navCallback navLinks entries links) in *.
    destruct IH as (Hdom & Hcls & Hlast).
    rewrite lastShown_snoc.
    assert (∀ id : string,
              navEntry navLinks entry mid !! id
              = if decide (entry.2 = true ∧ entry.1 ∈ navLinks)
                then if decide (id ∈ navLinks)
                     then (λ cl : ClassList,
                             if decide (id = entry.1)
                             then (cl ∖ {["active"]}) ∪ {["active"]}
                             else cl ∖ {["active"]}) <$> mid !! id
                     else mid !! id
                else mid !! id) as Hlk by (intros id; apply navEntry_lookup).
    split; [| split].
    + intros id. rewrite Hlk, <- Hdom.
      repeat destruct (decide _); rewrite ?fmap_is_Some; reflexivity.
    + intros id cl cl' c H1 H2 Hc. rewrite Hlk in H2.
      destruct (mid !! id) as [clm |] eqn:Hm.
      2:{ repeat destruct (decide _); discriminate. }
      rewrite <- (Hcls id cl clm c H1 Hm Hc).
      repeat destruct (decide _); cbn in H2; injection H2 as <-; set_solver.
    + destruct (decide (entry.2 = true ∧ entry.1 ∈ navLinks)) as [[_ Hin] | Hno].
      * split; [exact Hin |]. intros id cl' Hid H2. rewrite Hlk in H2.
        rewrite decide_True in H2 by exact Hid.
        destruct (mid !! id) as [clm |]; [| discriminate]. cbn in H2.
        injection H2 as <-. destruct (decide (id = entry.1)); set_solver.
      * assert (navEntry navLinks entry mid = mid) as ->
          by (apply map_eq; intros id; apply Hlk).
        exact Hlast.
Qed.

(** ** The hero parallax *)

Example parallaxRun_sample :
  parallaxRun sampleNumberToString
    [Scroll 1; Frame; Scroll 100; Scroll 300; Frame; Scroll 101; Frame; Scroll 900; Frame]
    parallaxStart
  = {| rafPending := None; lastScrollY := 900;
       bgTransform := Some "translate3d(0, 16.00px, 0)" |}
  ∧ bgTransform
      (parallaxRun sampleNumberToString
         [Scroll 100; Scroll 300; Frame; Scroll 101; Frame] parallaxStart)
    = Some "translate3d(0, 4.00px, 0)".
Proof. vm_compute. auto. Qed.

Section ParallaxFacts.

Variable numberToString : Q → string.


End ParallaxFacts.

(** ** The card tilt *)

Example cardRun_sample :
  (transform <$> cardRun [MouseEnter sampleRect;
                          MouseMove {| clientX := 175; clientY := 50 |};
                          MouseMove {| clientX := 400; clientY := 250 |};
                          AnimationFrame] cardStart)
  = Some (Some "perspective(700px) rotateX(6.00deg) rotateY(-3.00deg)").
Proof. vm_compute. reflexivity. Qed.

Lemma toFixed2_bounded (x : Q) (k : Z) :
  (0 ≤ k)%Z → (- inject_Z k <= x)%Q → (x <= inject_Z k)%Q →
  ∃ n : Z, toFixed2 x = (if Qlt_le_dec x 0 then "-" else "") +:+ hundredths n
           ∧ (0 ≤ n ≤ 100 * k)%Z.
Proof.
  intros Hk Hlo Hhi. unfold toFixed2. eexists. split; [reflexivity |].
  assert (0 <= Qabs x)%Q as Hge by apply Qabs_nonneg.
  assert (Qabs x <= inject_Z k)%Q as Hle by (apply Qabs_Qle_condition; split; assumption).
  split.
  - apply Qfloor_resp_le with (x := 0%Q). lra.
  - assert (Qfloor (Qabs x * 100 + (1 # 2)) < 100 * k + 1)%Z; [| lia].
    rewrite Zlt_Qlt. eapply Qle_lt_trans; [apply Qfloor_le |].
    rewrite inject_Z_plus, inject_Z_mult. change (inject_Z 100) with 100%Q.
    change (inject_Z 1) with 1%Q. lra.
Qed.

(** X18: while the pointer is inside the rectangle taken at [mouseenter]
    (of positive width and height), the two angles are finite and within
    [maxTilt] = 6 degrees: [rx] falls linearly from 6 at the top edge to
    -6 at the bottom edge, [ry] rises from -6 at the left edge to 6 at the
    right edge, and what [toFixed(2)] prints of them is at most 6.00 in
    magnitude. *)
Theorem tiltAngles_within_maxTilt (r : Rect) (e : MouseEvent) :
  (0 < rectWidth r)%Q → (0 < rectHeight r)%Q →
  (rectLeft r <= clientX e)%Q → (clientX e <= rectLeft r + rectWidth r)%Q →
  (rectTop r <= clientY e)%Q → (clientY e <= rectTop r + rectHeight r)%Q →
  ∃ rx ry : Q,
    tiltAngles r e = Some (rx, ry)
    ∧ rx == 6 - 12 * (clientY e - rectTop r) / rectHeight r
    ∧ ry == 12 * (clientX e - rectLeft r) / rectWidth r - 6
    ∧ (- maxTilt <= rx)%Q ∧ (rx <= maxTilt)%Q
    ∧ (- maxTilt <= ry)%Q ∧ (ry <= maxTilt)%Q
    ∧ ∃ n m : Z,
        toFixed2 rx = (if Qlt_le_dec rx 0 then "-" else "") +:+ hundredths n
        ∧ toFixed2 ry = (if Qlt_le_dec ry 0 then "-" else "") +:+ hundredths m
        ∧ (0 ≤ n ≤ 600)%Z ∧ (0 ≤ m ≤ 600)%Z.
Proof.
  intros Hw Hh Hx1 Hx2 Hy1 Hy2. unfold tiltAngles.
  assert (¬ rectWidth r / 2 == 0) as Hcx.
  { intros E. assert (rectWidth r == 0) by (rewrite <- (Qmult_div_r (rectWidth r) 2), E by discriminate; ring). lra. }
  assert (¬ rectHeight r / 2 == 0) as Hcy.
  { intros E. assert (rectHeight r == 0) by (rewrite <- (Qmult_div_r (rectHeight r) 2), E by discriminate; ring). lra. }
  destruct (Qeq_bool (rectWidth r / 2) 0) eqn:E1;
    [apply Qeq_bool_iff in E1; contradiction |].
  destruct (Qeq_bool (rectHeight r / 2) 0) eqn:E2;
    [apply Qeq_bool_iff in E2; contradiction |].
  cbn [orb]. do 2 eexists. split; [reflexivity |].
  assert (¬ rectWidth r == 0) as Hw0 by lra.
  assert (¬ rectHeight r == 0) as Hh0 by lra.
  assert (- ((clientY e - rectTop r - rectHeight r / 2) / (rectHeight r / 2)) * maxTilt
          == 6 - 12 * (clientY e - rectTop r) / rectHeight r) as Erx
    by (unfold maxTilt; field; assumption).
  assert ((clientX e - rectLeft r - rectWidth r / 2) / (rectWidth r / 2) * maxTilt
          == 12 * (clientX e - rectLeft r) / rectWidth r - 6) as Ery
    by (unfold maxTilt; field; assumption).
  assert (0 <= (clientY e - rectTop r) / rectHeight r)%Q as Hy0
    by (apply Qle_shift_div_l; lra).
  assert ((clientY e - rectTop r) / rectHeight r <= 1)%Q as Hy3
    by (apply Qle_shift_div_r; lra).
  assert (0 <= (clientX e - rectLeft r) / rectWidth r)%Q as Hx0
    by (apply Qle_shift_div_l; lra).
  assert ((clientX e - rectLeft r) / rectWidth r <= 1)%Q as Hx3
    by (apply Qle_shift_div_r; lra).
  assert (∀ a b : Q, 12 * a / b == 12 * (a / b)) as Ediv
    by (intros a b; unfold Qdiv; ring).
  rewrite Ediv in Erx, Ery.
  split; [rewrite Erx, Ediv; reflexivity |]. split; [rewrite Ery, Ediv; reflexivity |].
  unfold maxTilt in *.
  split; [rewrite Erx; lra |]. split; [rewrite Erx; lra |].
  split; [rewrite Ery; lra |]. split; [rewrite Ery; lra |].
  destruct (toFixed2_bounded
              (- ((clientY e - rectTop r - rectHeight r / 2) / (rectHeight r / 2)) * 6) 6)
    as (n & En & Hn); [lia | change (inject_Z 6) with 6%Q; rewrite Erx; lra
                      | change (inject_Z 6) with 6%Q; rewrite Erx; lra |].
  destruct (toFixed2_bounded
              ((clientX e - rectLeft r - rectWidth r / 2) / (rectWidth r / 2) * 6) 6)
    as (m & Em & Hm); [lia | change (inject_Z 6) with 6%Q; rewrite Ery; lra
                      | change (inject_Z 6) with 6%Q; rewrite Ery; lra |].
  exists n, m. repeat split; try assumption; lia.
Qed.

Lemma tiltAngles_within_maxTilt_witness :
  ∃ rx ry : Q,
    tiltAngles sampleRect {| clientX := 175; clientY := 50 |} = Some (rx, ry)
    ∧ rx == 6 - 12 * (50 - 50) / 200
    ∧ ry == 12 * (175 - 100) / 300 - 6
    ∧ (- maxTilt <= rx)%Q ∧ (rx <= maxTilt)%Q
    ∧ (- maxTilt <= ry)%Q ∧ (ry <= maxTilt)%Q
    ∧ ∃ n m : Z,
        toFixed2 rx = (if Qlt_le_dec rx 0 then "-" else "") +:+ hundredths n
        ∧ toFixed2 ry = (if Qlt_le_dec ry 0 then "-" else "") +:+ hundredths m
        ∧ (0 ≤ n ≤ 600)%Z ∧ (0 ≤ m ≤ 600)%Z.
Proof.
  apply (tiltAngles_within_maxTilt sampleRect {| clientX := 175; clientY := 50 |});
    cbn; lra.
Defined.

Lemma onMove_throttled (e : MouseEvent) (card : Card) :
  rafId card = true → onMove e card = card.
Proof.
  intros H. unfold onMove. rewrite H, orb_true_r. reflexivity.
Qed.

Lemma cardRun_app (evs1 evs2 : list CardEvent) (card : Card) :
  cardRun (evs1 ++ evs2) card = cardRun evs1 card ≫= cardRun evs2.
Proof.
  unfold cardRun. rewrite foldl_app.
  generalize (foldl (λ acc ev, acc ≫= cardStep ev) (Some card) evs1) as acc.
  intros [c |]; [reflexivity |]. cbn.
  induction evs2 as [| ev evs2 IH]; [reflexivity | exact IH].
Qed.

Lemma cardRun_moves_throttled (es : list MouseEvent) (card : Card) :
  rafId card = true → cardRun (MouseMove <$> es) card = Some card.
Proof.
  intros H. induction es as [| e es IH]; [reflexivity |].
  change (cardRun (MouseMove <$> e :: es) card)
    with (cardRun ([MouseMove e] ++ (MouseMove <$> es)) card).
  rewrite cardRun_app. cbn. rewrite onMove_throttled by exact H. exact IH.
Qed.

(** X19: the frame throttle of [onMove].  Before the first [mouseenter]
    a move does nothing.  After it, of the moves that come before the next
    animation frame only the first is rendered: the later ones are
    dropped, not queued, so the frame shows the oldest pointer position of
    the burst, not the latest. *)
Theorem onMove_first_move_wins (card : Card) (e1 : MouseEvent)
    (es : list MouseEvent) :
  (rect card = None → onMove e1 card = card)
  ∧ (is_Some (rect card) → rafId card = false →
     cardRun (MouseMove e1 :: (MouseMove <$> es) ++ [AnimationFrame])%list card
     = cardRun [MouseMove e1; AnimationFrame] card
     ∧ cardRun [MouseMove e1; AnimationFrame] card
       = tiltFrame {| rect := rect card; rafId := true;
                      tiltFrames := (tiltFrames card ++ [e1])%list;
                      transform := transform card;
                      transition := transition card;
                      willChange := willChange card |}).
Proof.
  split.
  - intros H. unfold onMove. rewrite H. reflexivity.
  - intros [r Hr] Hraf.
    assert (onMove e1 card
            = {| rect := rect card; rafId := true;
                 tiltFrames := (tiltFrames card ++ [e1])%list;
                 transform := transform card; transition := transition card;
                 willChange := willChange card |}) as Hmove
      by (unfold onMove; rewrite Hr, Hraf; reflexivity).
    split.
    + change (MouseMove e1 :: (MouseMove <$> es) ++ [AnimationFrame])%list
        with ([MouseMove e1] ++ ((MouseMove <$> es) ++ [AnimationFrame]))%list.
      rewrite cardRun_app. cbn [cardRun foldl mbind option_bind cardStep].
      rewrite cardRun_app, cardRun_moves_throttled by (rewrite Hmove; reflexivity).
      reflexivity.
    + cbn [cardRun foldl mbind option_bind cardStep]. rewrite Hmove. reflexivity.
Qed.

Lemma onMove_first_move_wins_witness :
  cardRun [MouseMove {| clientX := 175; clientY := 50 |};
           MouseMove {| clientX := 400; clientY := 250 |}; AnimationFrame]
    (onEnter sampleRect cardStart)
  = cardRun [MouseMove {| clientX := 175; clientY := 50 |}; AnimationFrame]
      (onEnter sampleRect cardStart).
Proof.
  apply (proj2 (onMove_first_move_wins (onEnter sampleRect cardStart)
                  {| clientX := 175; clientY := 50 |}
                  [{| clientX := 400; clientY := 250 |}]));
    [eexists; reflexivity | reflexivity].
Defined.

Lemma string_app_In (c : ascii) (s1 s2 : string) :
  In c (list_ascii_of_string (s1 +:+ s2))
  ↔ In c (list_ascii_of_string s1) ∨ In c (list_ascii_of_string s2).
Proof.
  induction s1 as [| d s1 IH]; [cbn; tauto |].
  change (In c (d :: list_ascii_of_string (s1 +:+ s2))
          ↔ In c (d :: list_ascii_of_string s1) ∨ In c (list_ascii_of_string s2)).
  cbn [In]. rewrite IH. tauto.
Qed.

Lemma toFixed2_dot (x : Q) : In "."%char (list_ascii_of_string (toFixed2 x)).
Proof.
  unfold toFixed2, hundredths. rewrite !string_app_In. right. right. left.
  cbn. auto.
Qed.

Lemma tiltTransform_not_reset (rx ry : Q) :
  tiltTransform (toFixed2 rx) (toFixed2 ry)
  ≠ "perspective(700px) rotateX(0deg) rotateY(0deg)".
Proof.
  intros E.
  assert (In "."%char (list_ascii_of_string (tiltTransform (toFixed2 rx) (toFixed2 ry)))) as H.
  { unfold tiltTransform. rewrite !string_app_In. right. left. apply toFixed2_dot. }
  rewrite E in H. cbn in H. intuition discriminate.
Qed.

(** X20: [onLeave] clears [rafId] but does not cancel the frame it names.
    When the pointer moves and leaves before the next animation frame, the
    frame still runs after the reset: the card ends tilted by the angles of
    that last move, with [will-change] back to [auto], and its transform is
    not the neutral one that [onLeave] wrote.  When the frame comes before
    the leave, the card ends neutral. *)
Theorem onLeave_keeps_pending_frame (card : Card) (r : Rect) (e : MouseEvent) :
  rect card = Some r → rafId card = false → tiltFrames card = [] →
  (0 < rectWidth r)%Q → (0 < rectHeight r)%Q →
  ∃ (rx ry : Q) (late early : Card),
    tiltAngles r e = Some (rx, ry)
    ∧ cardRun [MouseMove e; MouseLeave; AnimationFrame] card = Some late
    ∧ transform late = Some (tiltTransform (toFixed2 rx) (toFixed2 ry))
    ∧ transform late ≠ Some "perspective(700px) rotateX(0deg) rotateY(0deg)"
    ∧ willChange late = Some "auto"
    ∧ rafId late = false ∧ tiltFrames late = []
    ∧ cardRun [MouseMove e; AnimationFrame; MouseLeave] card = Some early
    ∧ transform early = Some "perspective(700px) rotateX(0deg) rotateY(0deg)"
    ∧ willChange early = Some "auto"
    ∧ rafId early = false ∧ tiltFrames early = [].
Proof.
  intros Hr Hraf Hfr Hw Hh.
  destruct (tiltAngles r e) as [[rx ry] |] eqn:Ha.
  2:{ exfalso. unfold tiltAngles in Ha.
      destruct (Qeq_bool (rectWidth r / 2) 0) eqn:E1.
      { apply Qeq_bool_iff in E1.
        assert (rectWidth r == 0)
          by (rewrite <- (Qmult_div_r (rectWidth r) 2), E1 by discriminate; ring).
        lra. }
      destruct (Qeq_bool (rectHeight r / 2) 0) eqn:E2.
      { apply Qeq_bool_iff in E2.
        assert (rectHeight r == 0)
          by (rewrite <- (Qmult_div_r (rectHeight r) 2), E2 by discriminate; ring).
        lra. }
      discriminate. }
  exists rx, ry. do 2 eexists. split; [reflexivity |].
  unfold cardRun. cbn [foldl mbind option_bind cardStep].
  unfold onMove. rewrite Hr, Hraf, Hfr. cbn [isNull orb app].
  unfold tiltFrame, onLeave. cbn [tiltFrames rect rafId transform transition willChange foldl mbind option_bind].
  unfold tiltCallback. cbn [rect mbind option_bind].
  rewrite Ha. cbn [mbind option_bind rect rafId tiltFrames transform transition willChange].
  split; [reflexivity |]. cbn [transform willChange rafId tiltFrames].
  split; [reflexivity |].
  split; [intros E; apply (tiltTransform_not_reset rx ry); congruence |].
  split; [reflexivity |]. split; [reflexivity |]. split; [reflexivity |].
  split; [reflexivity |]. cbn [transform willChange rafId tiltFrames]. auto.
Qed.

Lemma onLeave_keeps_pending_frame_witness :
  ∃ (rx ry : Q) (late early : Card),
    tiltAngles sampleRect {| clientX := 175; clientY := 50 |} = Some (rx, ry)
    ∧ cardRun [MouseMove {| clientX := 175; clientY := 50 |}; MouseLeave; AnimationFrame]
        (onEnter sampleRect cardStart) = Some late
    ∧ transform late = Some (tiltTransform (toFixed2 rx) (toFixed2 ry))
    ∧ transform late ≠ Some "perspective(700px) rotateX(0deg) rotateY(0deg)"
    ∧ willChange late = Some "auto"
    ∧ rafId late = false ∧ tiltFrames late = []
    ∧ cardRun [MouseMove {| clientX := 175; clientY := 50 |}; AnimationFrame; MouseLeave]
        (onEnter sampleRect cardStart) = Some early
    ∧ transform early = Some "perspective(700px) rotateX(0deg) rotateY(0deg)"
    ∧ willChange early = Some "auto"
    ∧ rafId early = false ∧ tiltFrames early = [].
Proof.
  apply (onLeave_keeps_pending_frame (onEnter sampleRect cardStart) sampleRect
           {| clientX := 175; clientY := 50 |});
    [reflexivity | reflexivity | reflexivity | cbn; lra | cbn; lra].
Defined.

(** ** The counters *)

Example counterTicks_sample :
  textContent (counterTicks 1 (counterStart (Some 250%Z) "0")) = Assigned (Some 2%Z)
  ∧ textContent (counterTicks 62 (counterStart (Some 250%Z) "0")) = Assigned (Some 124%Z)
  ∧ timer (counterTicks 124 (counterStart (Some 250%Z) "0")) = true
  ∧ counterTicks 126 (counterStart (Some 250%Z) "0")
    = counterTicks 125 (counterStart (Some 250%Z) "0")
  ∧ textContent (counterTicks 126 (counterStart (Some 250%Z) "0")) = Assigned (Some 250%Z)
  ∧ timer (counterTicks 126 (counterStart (Some 250%Z) "0")) = false.
Proof. vm_compute. auto 10. Qed.


Lemma counterTicks_S (k : nat) (c : Counter) :
  counterTicks (S k) c = counterTick (counterTicks k c).
Proof. reflexivity. Qed.


Lemma counterTicks_stopped (c : Counter) (k : nat) :
  timer c = false → counterTicks k c = c.
Proof.
  intros H. induction k as [| k IH]; [reflexivity |].
  rewrite counterTicks_S, IH. unfold counterTick. rewrite H. reflexivity.
Qed.

Lemma counterTicks_add (j k : nat) (c : Counter) :
  counterTicks (j + k) c = counterTicks j (counterTicks k c).
Proof. unfold counterTicks. apply Nat.iter_add. Qed.





Lemma counterTick_target (c : Counter) : target (counterTick c) = target c.
Proof.
  unfold counterTick. destruct c as [tg cur tc tm]. cbn [timer target current].
  destruct tm; [| reflexivity].
  destruct tg, cur; cbn [mbind option_bind]; try reflexivity.
  destruct (Qle_bool _ _); reflexivity.
Qed.

Lemma counterTicks_target (k : nat) (c : Counter) :
  target (counterTicks k c) = target c.
Proof.
  induction k as [| k IH]; [reflexivity |].
  rewrite counterTicks_S, counterTick_target. exact IH.
Qed.

(** X22: a counter whose target is not a positive number never counts.
    With a target that is zero or negative the first tick shows the target
    and clears the interval.  With a target that [parseInt] could not read
    ([NaN]) every tick shows [NaN] and the interval is never cleared. *)
Theorem counterTicks_without_count (target : option Z) (text : string) (k : nat) :
  (∀ t : Z, target = Some t → (t ≤ 0)%Z) → (1 ≤ k)%nat →
  textContent (counterTicks k (counterStart target text)) = Assigned target
  ∧ timer (counterTicks k (counterStart target text))
    = (if target is Some _ then false else true).
Proof.
  intros Ht Hk. destruct k as [| k]; [lia |]. clear Hk.
  destruct target as [t |].
  - specialize (Ht t eq_refl).
    assert (∃ q, counterTicks 1 (counterStart (Some t) text)
                 = {| target := Some t; current := Some q;
                      textContent := Assigned (Some t); timer := false |})
      as (q & E1).
    { eexists. change (counterTicks 1 ?c) with (counterTick c).
      unfold counterTick, counterStart.
      cbn [timer target current mbind option_bind].
      destruct (Qle_bool (inject_Z t) (0 + inject_Z t / (2000 / 16))) eqn:E;
        [reflexivity |].
      exfalso.
      assert (Qle_bool (inject_Z t) (0 + inject_Z t / (2000 / 16)) = true);
        [| congruence].
      apply Qle_bool_iff.
      assert (inject_Z t <= 0)%Q by (change 0%Q with (inject_Z 0); rewrite <- Zle_Qle; lia).
      assert (0 + inject_Z t / (2000 / 16) == inject_Z t * (1 # 125)) as -> by field.
      lra. }
    replace (S k) with (k + 1)%nat by lia.
    rewrite counterTicks_add, E1, counterTicks_stopped by reflexivity.
    split; reflexivity.
  - induction k as [| k IH].
    + split; reflexivity.
    + rewrite counterTicks_S.
      destruct (counterTicks (S k) (counterStart None text)) as [tg cur tc tm] eqn:E.
      cbn [textContent timer] in IH. destruct IH as [-> ->].
      assert (tg = None) as ->.
      { pose proof (counterTicks_target (S k) (counterStart None text)) as H.
        rewrite E in H. exact H. }
      unfold counterTick. cbn [timer target current mbind option_bind].
      destruct cur; split; reflexivity.
Qed.

Lemma counterTicks_without_count_witness :
  textContent (counterTicks 3 (counterStart (Some (-5)%Z) "0")) = Assigned (Some (-5)%Z)
  ∧ timer (counterTicks 3 (counterStart (Some (-5)%Z) "0")) = false.
Proof.
  apply (counterTicks_without_count (Some (-5)%Z) "0" 3); [| lia].
  intros t [= <-]. lia.
Defined.

(** ** The rate limiters *)

Example debounceRun_sample :
  debounceCalls
    (debounceRun 100 [Call "a"; Elapse 60; Call "b"; Elapse 99; Call "c";
                      Elapse 100; Call "d"; Elapse 40] debounce)
  = ["c"]
  ∧ throttleCalls
      (throttleRun 100 [Call "a"; Elapse 60; Call "b"; Elapse 99; Call "c";
                        Elapse 100; Call "d"; Elapse 40] throttle)
    = [(0, "a"); (159, "c"); (259, "d")].
Proof. vm_compute. auto. Qed.

Section LimiterFacts.

Context {A : Type}.

Lemma debounceRun_app (wait : nat) (evs1 evs2 : list (LimiterEvent A)) (d : Debounce A) :
  debounceRun wait (evs1 ++ evs2) d = debounceRun wait evs2 (debounceRun wait evs1 d).
Proof. unfold debounceRun. apply foldl_app. Qed.

Lemma debounce_burst_pending (wait : nat) (calls : list (A * nat)) (d : Debounce A) :
  Forall (λ c : A * nat, (c.2 < wait)%nat) calls →
  debounceCalls (debounceRun wait (burst calls) d) = debounceCalls d.
Proof.
  intros H. revert d. induction H as [| [a g] calls Hg _ IH]; intros d; [reflexivity |].
  change (burst ((a, g) :: calls)) with ([Call a; Elapse g] ++ burst calls)%list.
  rewrite debounceRun_app, IH. cbn in Hg |- *.
  unfold debounceElapse, executedFunction. cbn [timeout debounceNow debounceCalls].
  destruct (Nat.leb_spec (debounceNow d + wait) (debounceNow d + g)); [lia | reflexivity].
Qed.

(** X23: a debounced function runs once per burst, with the arguments of
    the last call.  Calls that follow one another by less than [wait]
    milliseconds do not run [func]; when [wait] milliseconds or more pass
    after the last of them, [func] runs exactly once, with the arguments
    of that last call, and no timer is left.  A timer that was pending
    before the burst is cancelled by its first call. *)
Theorem debounce_burst_runs_last (wait : nat) (calls : list (A * nat)) (last : A)
    (dt : nat) (d : Debounce A) :
  Forall (λ c : A * nat, (c.2 < wait)%nat) calls → (wait ≤ dt)%nat →
  debounceCalls (debounceRun wait (burst calls) d) = debounceCalls d
  ∧ debounceCalls (debounceRun wait (burst calls ++ [Call last]) d) = debounceCalls d
  ∧ debounceCalls (debounceRun wait (burst calls ++ [Call last; Elapse dt]) d)
    = (debounceCalls d ++ [last])%list
  ∧ timeout (debounceRun wait (burst calls ++ [Call last; Elapse dt]) d) = None.
Proof.
  intros Hcalls Hdt. pose proof (debounce_burst_pending wait calls d Hcalls) as Hq.
  split; [exact Hq |]. rewrite !debounceRun_app.
  set (d1 := debounceRun wait (burst calls) d) in *.
  split; [exact Hq |].
  cbn. unfold debounceElapse, executedFunction. cbn [timeout debounceNow debounceCalls].
  destruct (Nat.leb_spec (debounceNow d1 + wait) (debounceNow d1 + dt)); [| lia].
  cbn [timeout debounceCalls]. rewrite Hq. split; reflexivity.
Qed.

Lemma throttleRun_snoc (limit : nat) (evs : list (LimiterEvent A)) (ev : LimiterEvent A)
    (t : Throttle A) :
  throttleRun limit (evs ++ [ev]) t = throttleStep limit ev (throttleRun limit evs t).
Proof. unfold throttleRun. rewrite foldl_app. reflexivity. Qed.

Lemma throttle_invariant (limit : nat) (events : list (LimiterEvent A)) :
  let s := throttleRun limit events throttle in
  (∀ (i t1 t2 : nat) (a1 a2 : A),
     throttleCalls s !! i = Some (t1, a1) → throttleCalls s !! S i = Some (t2, a2) →
     (t1 + limit ≤ t2)%nat)
  ∧ (inThrottle s = true →
     ∃ (t : nat) (a : A), list.last (throttleCalls s) = Some (t, a)
                          ∧ throttleTimers s = [(t + limit)%nat])
  ∧ (inThrottle s = false →
     throttleTimers s = []
     ∧ ∀ (t : nat) (a : A), list.last (throttleCalls s) = Some (t, a) →
                            (t + limit ≤ throttleNow s)%nat).
Proof.
  cbv zeta. induction events as [| ev events IH] using rev_ind.
  - cbn. split; [intros i t1 t2 a1 a2 [=] |]. split; [intros [=] |].
    intros _. split; [reflexivity | intros t a [=]].
  - rewrite throttleRun_snoc. set (s := throttleRun limit events throttle) in *.
    destruct IH as (Hsp & Hon & Hoff). destruct ev as [args | dt]; cbn [throttleStep].
    + unfold throttled. destruct (inThrottle s) eqn:Hin; cbn [negb].
      { rewrite Hin. auto. }
      destruct (Hoff eq_refl) as [Htm Hlast].
      cbn [inThrottle throttleTimers throttleNow throttleCalls].
      split; [| split].
      * intros i t1 t2 a1 a2 H1 H2.
        destruct (decide (S i < length (throttleCalls s))%nat) as [Hlt | Hge].
        -- rewrite lookup_app_l in H1 by lia. rewrite lookup_app_l in H2 by lia.
           eauto.
        -- assert (S i = length (throttleCalls s)) as Hi.
           { apply lookup_lt_Some in H2. rewrite length_app in H2. cbn in H2. lia. }
           rewrite lookup_app_l in H1 by lia.
           rewrite lookup_app_r in H2 by lia.
           rewrite Hi, Nat.sub_diag in H2. injection H2 as <- <-.
           apply (Hlast t1 a1). rewrite last_lookup.
           replace (pred (length (throttleCalls s))) with i by lia. exact H1.
      * intros _. exists (throttleNow s), args. rewrite last_snoc, Htm. auto.
      * intros [=].
    + unfold throttleElapse.
      cbn [inThrottle throttleTimers throttleNow throttleCalls].
      split; [exact Hsp |]. destruct (inThrottle s) eqn:Hin.
      * destruct (Hon eq_refl) as (t & a & Hl & Htm). rewrite Htm.
        destruct (decide (t + limit ≤ throttleNow s + dt)%nat) as [Hdue | Hnot].
        -- rewrite !filter_cons, filter_nil.
           rewrite decide_True by exact Hdue. rewrite decide_False by lia.
           rewrite bool_decide_eq_false_2 by discriminate.
           split; [intros [=] |]. intros _. split; [reflexivity |].
           intros t' a' Hl'. rewrite Hl in Hl'. injection Hl' as <- <-. exact Hdue.
        -- rewrite !filter_cons, filter_nil.
           rewrite decide_False by exact Hnot. rewrite decide_True by exact Hnot.
           rewrite bool_decide_eq_true_2 by reflexivity.
           split; [| intros [=]]. intros _. eauto.
      * destruct (Hoff eq_refl) as [Htm Hlast]. rewrite Htm, !filter_nil.
        assert ((if bool_decide (@nil nat = []) then false else false) = false) as ->
          by (destruct (bool_decide _); reflexivity).
        split; [intros [=] |]. intros _. split; [reflexivity |].
        intros t a Hl. specialize (Hlast t a Hl). lia.
Qed.

(** X24: a throttled function keeps its calls at least [limit]
    milliseconds apart.  Whatever calls and pauses come, a call of [func]
    and the next one are [limit] or more apart; the flag is set exactly
    while one timeout is pending, the one that the last call of [func]
    set; and a call made while the flag is set is dropped: it changes
    nothing and is not made later. *)
Theorem throttle_spacing (limit : nat) (events : list (LimiterEvent A)) (args : A) :
  let s := throttleRun limit events throttle in
  (∀ (i t1 t2 : nat) (a1 a2 : A),
     throttleCalls s !! i = Some (t1, a1) → throttleCalls s !! S i = Some (t2, a2) →
     (t1 + limit ≤ t2)%nat)
  ∧ (if inThrottle s
     then (∃ (t : nat) (a : A), list.last (throttleCalls s) = Some (t, a)
                                ∧ throttleTimers s = [(t + limit)%nat])
          ∧ throttled limit args s = s
     else throttleTimers s = []
          ∧ throttleCalls (throttled limit args s)
            = (throttleCalls s ++ [(throttleNow s, args)])%list).
Proof.
  cbv zeta. destruct (throttle_invariant limit events) as (Hsp & Hon & Hoff).
  split; [exact Hsp |].
  destruct (inThrottle (throttleRun limit events throttle)) eqn:Hin.
  - split; [exact (Hon eq_refl) |]. unfold throttled. rewrite Hin. reflexivity.
  - split; [exact (proj1 (Hoff eq_refl)) |]. unfold throttled. rewrite Hin. reflexivity.
Qed.

End LimiterFacts.

Lemma debounce_burst_runs_last_witness :
  debounceCalls (debounceRun 100 (burst [("a", 60); ("b", 99)]) debounce) = []
  ∧ debounceCalls (debounceRun 100 (burst [("a", 60); ("b", 99)] ++ [Call "c"])%list debounce) = []
  ∧ debounceCalls
      (debounceRun 100 (burst [("a", 60); ("b", 99)] ++ [Call "c"; Elapse 100])%list debounce)
    = ["c"]
  ∧ timeout
      (debounceRun 100 (burst [("a", 60); ("b", 99)] ++ [Call "c"; Elapse 100])%list debounce)
    = None.
Proof.
  apply (debounce_burst_runs_last 100 [("a", 60); ("b", 99)] "c" 100 debounce);
    [repeat constructor; cbn; lia | lia].
Defined.

(** ** The click animation *)

Example clickRun_sample :
  let el := clickRun [Clicked {| clientX := 175; clientY := 50 |} sampleRect; Passed 200;
                      Clicked {| clientX := 400; clientY := 250 |} sampleRect; Passed 300]
              (clickable {["social-card"]} "static") in
  clickClasses el = {["social-card"]}
  ∧ stylePosition el = "relative"
  ∧ ripples el = [(0%nat, (75%Q, 0%Q)); (1%nat, (300%Q, 200%Q))]
  ∧ clickTimers el = [(600, RemoveRipple 0); (800, RemoveRipple 1); (700, RemoveClasses)].
Proof. vm_compute. auto. Qed.

Lemma runClickTimers_spec (timers : list (nat * ClickTimer)) (el : Clickable) :
  let el' := foldl (λ el t, runClickTimer t.2 el) el timers in
  clickTimers el' = clickTimers el ∧ clickNow el' = clickNow el
  ∧ clickCount el' = clickCount el ∧ stylePosition el' = stylePosition el
  ∧ (∀ r : nat * (Q * Q),
       r ∈ ripples el' ↔ r ∈ ripples el ∧ ∀ due : nat, (due, RemoveRipple r.1) ∉ timers)
  ∧ (∀ c : string,
       c ∈ clickClasses el'
       ↔ c ∈ clickClasses el
         ∧ ((∃ due : nat, (due, RemoveClasses) ∈ timers) →
            c ≠ "clicked" ∧ c ≠ "glow-click")).
Proof.
  cbv zeta. revert el. induction timers as [| [due timer] timers IH]; intros el.
  - cbn. repeat split; try tauto; try set_solver.
  - cbn [foldl]. destruct (IH (runClickTimer (due, timer).2 el))
      as (Ht & Hn & Hc & Hp & Hr & Hcl).
    rewrite Ht, Hn, Hc, Hp. cbn [snd].
    split; [destruct timer; reflexivity |]. split; [destruct timer; reflexivity |].
    split; [destruct timer; reflexivity |]. split; [destruct timer; reflexivity |].
    split.
    + intros r. rewrite Hr. destruct timer as [id |]; cbn [snd runClickTimer ripples].
      * rewrite list_elem_of_filter. split.
        -- intros [[Hne Hin] Hno]. split; [exact Hin |]. intros d Hd.
           apply elem_of_cons in Hd as [[= _ E] | Hd]; [congruence | exact (Hno d Hd)].
        -- intros [Hin Hno]. split; [split; [| exact Hin] |].
           ++ intros E. apply (Hno due). rewrite E. left.
           ++ intros d Hd. apply (Hno d). right. exact Hd.
      * split.
        -- intros [Hin Hno]. split; [exact Hin |]. intros d Hd.
           apply elem_of_cons in Hd as [[=] | Hd]. exact (Hno d Hd).
        -- intros [Hin Hno]. split; [exact Hin |]. intros d Hd.
           apply (Hno d). right. exact Hd.
    + intros c. rewrite Hcl. destruct timer as [id |]; cbn [snd runClickTimer clickClasses].
      * split.
        -- intros [Hin Himp]. split; [exact Hin |]. intros [d Hd].
           apply elem_of_cons in Hd as [[=] | Hd]. apply Himp. eauto.
        -- intros [Hin Himp]. split; [exact Hin |]. intros [d Hd].
           apply Himp. exists d. right. exact Hd.
      * split.
        -- intros [Hin Himp]. split; [set_solver |]. intros _. set_solver.
        -- intros [Hin Himp]. destruct Himp as [H1 H2]; [exists due; left |].
           split; [set_solver | auto].
Qed.

Lemma clickRun_snoc (events : list ClickEvent) (ev : ClickEvent) (el : Clickable) :
  clickRun (events ++ [ev]) el = clickStep ev (clickRun events el).
Proof. unfold clickRun. rewrite foldl_app. reflexivity. Qed.

Lemma hasClick_snoc (events : list ClickEvent) (ev : ClickEvent) :
  hasClick (events ++ [ev])
  = hasClick events || (if ev is Clicked _ _ then true else false).
Proof. unfold hasClick. rewrite existsb_app. cbn. rewrite orb_false_r. reflexivity. Qed.

Lemma clickRun_invariant (classes : ClassList) (position : string)
    (events : list ClickEvent) :
  clickInvariant classes (hasClick events) (clickRun events (clickable classes position)).
Proof.
  induction events as [| ev events IH] using rev_ind.
  - cbn. unfold clickInvariant. cbn.
    split; [intros d t H; inversion H |]. split; [intros r H; inversion H |].
    split; [auto |]. split; [tauto | auto].
  - rewrite clickRun_snoc, hasClick_snoc.
    set (el := clickRun events (clickable classes position)) in *.
    destruct IH as (Ha & Hb & Hc & Hoth & He). destruct ev as [e box | dt]; cbn [clickStep].
    + rewrite orb_true_r. unfold clickInvariant, onClick.
      cbn [clickClasses ripples clickTimers clickNow].
      split; [| split; [| split; [| split]]].
      * intros d t H. apply elem_of_app in H as [H | H]; [specialize (Ha d t H); lia |].
        apply elem_of_cons in H as [[= -> _] | H]; [lia |].
        apply list_elem_of_singleton in H as [= -> _]. lia.
      * intros r H. apply elem_of_app in H as [H | H].
        -- destruct (Hb r H) as [d Hd]. exists d. apply elem_of_app. left. exact Hd.
        -- apply list_elem_of_singleton in H as ->. cbn [fst].
           eexists. apply elem_of_app. right. left.
      * intros c _ _. right. eexists. apply elem_of_app. right. right. left.
      * intros c H1 H2. rewrite <- (Hoth c H1 H2). set_solver.
      * intros [=].
    + rewrite orb_false_r. unfold clickElapse.
      set (due := filter (λ t : nat * ClickTimer, (t.1 ≤ clickNow el + dt)%nat) (clickTimers el)).
      set (el0 := {| clickClasses := clickClasses el; stylePosition := stylePosition el;
                     ripples := ripples el;
                     clickTimers := filter (λ t : nat * ClickTimer, ¬ (t.1 ≤ clickNow el + dt)%nat)
                                      (clickTimers el);
                     clickCount := clickCount el; clickNow := (clickNow el + dt)%nat |}).
      destruct (runClickTimers_spec due el0) as (Ht & Hn & _ & _ & Hr & Hcl).
      cbv zeta in Ht, Hn, Hr, Hcl. cbn [el0 clickTimers clickNow ripples clickClasses] in Ht, Hn, Hr, Hcl.
      assert (∀ (d : nat) (t : ClickTimer),
                (d, t) ∈ clickTimers el → (∀ d' : nat, (d', t) ∉ due) →
                (d, t) ∈ filter (λ t : nat * ClickTimer, ¬ (t.1 ≤ clickNow el + dt)%nat)
                          (clickTimers el)) as Hkeep.
      { intros d t Hin Hno. apply list_elem_of_filter. split; [| exact Hin].
        cbn. intros Hle. apply (Hno d). apply list_elem_of_filter. split; assumption. }
      unfold clickInvariant. rewrite Ht, Hn.
      split; [| split; [| split; [| split]]].
      * intros d t H. apply list_elem_of_filter in H as [_ H]. specialize (Ha d t H). lia.
      * intros r H. apply Hr in H as [Hin Hno]. destruct (Hb r Hin) as [d Hd].
        exists d. apply Hkeep; assumption.
      * intros c Hsp H. apply Hcl in H as [Hin Himp].
        destruct (Hc c Hsp Hin) as [Hf | [d Hd]]; [left; exact Hf |].
        right. exists d. apply Hkeep; [exact Hd |]. intros d' Hd'.
        destruct Himp as [H1 H2]; [eauto |]. destruct Hsp; contradiction.
      * intros c H1 H2. rewrite <- (Hoth c H1 H2), Hcl. tauto.
      * intros Hf. destruct (He Hf) as (Ecl & Er & Et).
        assert (due = []) as Edue by (unfold due; rewrite Et; reflexivity).
        split; [| split].
        -- apply set_eq. intros c. rewrite Hcl, Edue, Ecl. split; [tauto |].
           intros H. split; [exact H |]. intros [d Hd]. inversion Hd.
        -- apply elem_of_nil_inv. intros r H. apply Hr in H as [H _].
           rewrite Er in H. inversion H.
        -- rewrite Et. reflexivity.
Qed.

(** X25: the click animation cleans up after itself.  Whatever clicks and
    pauses came before, at every moment each ripple span has its removal
    pending and every pending timeout is due within 600 ms; so once 600 ms
    pass without a click no ripple and no timeout is left, the classes
    [clicked] and [glow-click] are off if there was a click, and the other
    classes are those the element had. *)
Theorem clickRun_cleans_up (classes : ClassList) (position : string)
    (events : list ClickEvent) (dt : nat) :
  (600 ≤ dt)%nat →
  clickInvariant classes (hasClick events) (clickRun events (clickable classes position))
  ∧ let el := clickRun (events ++ [Passed dt]) (clickable classes position) in
    ripples el = [] ∧ clickTimers el = []
    ∧ (∀ c : string, c ≠ "clicked" → c ≠ "glow-click" →
         (c ∈ clickClasses el ↔ c ∈ classes))
    ∧ (hasClick events = true →
         "clicked" ∉ clickClasses el ∧ "glow-click" ∉ clickClasses el)
    ∧ (hasClick events = false → clickClasses el = classes).
Proof.
  intros Hdt. pose proof (clickRun_invariant classes position events) as Hinv.
  split; [exact Hinv |]. cbv zeta.
  pose proof (clickRun_invariant classes position (events ++ [Passed dt])) as Hinv'.
  rewrite hasClick_snoc, orb_false_r in Hinv'.
  destruct Hinv' as (_ & Hb & Hc & Hoth & He).
  assert (clickTimers (clickRun (events ++ [Passed dt]) (clickable classes position)) = [])
    as Et.
  { rewrite clickRun_snoc. cbn [clickStep]. unfold clickElapse.
    match goal with
    | |- clickTimers (foldl _ ?el0 ?due) = _ =>
        destruct (runClickTimers_spec due el0) as (-> & _)
    end.
    cbn [clickTimers]. apply elem_of_nil_inv. intros [d t] H.
    apply list_elem_of_filter in H as [Hlate H]. cbn in Hlate.
    destruct Hinv as (Ha & _). specialize (Ha d t H). lia. }
  rewrite Et in Hb, Hc.
  split; [| split; [exact Et | split; [exact Hoth | split]]].
  - apply elem_of_nil_inv. intros r H. destruct (Hb r H) as [d Hd]. inversion Hd.
  - intros Hclick. split; intros H.
    + destruct (Hc "clicked" (or_introl eq_refl) H) as [Hf | [d Hd]];
        [congruence | inversion Hd].
    + destruct (Hc "glow-click" (or_intror eq_refl) H) as [Hf | [d Hd]];
        [congruence | inversion Hd].
  - intros Hf. exact (proj1 (He Hf)).
Qed.

Lemma clickRun_cleans_up_witness :
  let el := clickRun ([Clicked {| clientX := 175; clientY := 50 |} sampleRect; Passed 200;
                       Clicked {| clientX := 400; clientY := 250 |} sampleRect]
                      ++ [Passed 600])%list
              (clickable {["social-card"]} "static") in
  ripples el = [] ∧ clickTimers el = []
  ∧ (∀ c : string, c ≠ "clicked" → c ≠ "glow-click" →
       (c ∈ clickClasses el ↔ c ∈ ({["social-card"]} : ClassList)))
  ∧ (hasClick [Clicked {| clientX := 175; clientY := 50 |} sampleRect; Passed 200;
               Clicked {| clientX := 400; clientY := 250 |} sampleRect] = true →
       "clicked" ∉ clickClasses el ∧ "glow-click" ∉ clickClasses el)
  ∧ (hasClick [Clicked {| clientX := 175; clientY := 50 |} sampleRect; Passed 200;
               Clicked {| clientX := 400; clientY := 250 |} sampleRect] = false →
       clickClasses el = {["social-card"]}).
Proof.
  apply (clickRun_cleans_up {["social-card"]} "static"
           [Clicked {| clientX := 175; clientY := 50 |} sampleRect; Passed 200;
            Clicked {| clientX := 400; clientY := 250 |} sampleRect] 600).
  lia.
Defined.

(** X26: a second click does not restart the animation classes.  The
    timeout of the first click still runs 500 ms after it and takes
    [clicked] and [glow-click] off, although the second click came less
    than 500 ms ago and its own ripple and timeouts are still there. *)
Theorem onClick_twice_cut_short (classes : ClassList) (position : string)
    (e1 e2 : MouseEvent) (box1 box2 : Rect) (a b : nat) :
  (a < 500)%nat → (b < 500)%nat → (500 ≤ a + b)%nat →
  let el := clickRun [Clicked e1 box1; Passed a; Clicked e2 box2; Passed b]
              (clickable classes position) in
  "clicked" ∉ clickClasses el ∧ "glow-click" ∉ clickClasses el
  ∧ (∃ x y : Q, (1%nat, (x, y)) ∈ ripples el)
  ∧ ((a + 500)%nat, RemoveClasses) ∈ clickTimers el
  ∧ ((a + 600)%nat, RemoveRipple 1) ∈ clickTimers el
  ∧ clickNow el = (a + b)%nat.
Proof.
  intros Ha Hb Hab. cbv zeta.
  change [Clicked e1 box1; Passed a; Clicked e2 box2; Passed b]
    with ([Clicked e1 box1; Passed a; Clicked e2 box2] ++ [Passed b])%list.
  rewrite clickRun_snoc. cbn [clickStep]. unfold clickElapse.
  match goal with
  | |- context [foldl _ ?el0 ?due] =>
      destruct (runClickTimers_spec due el0) as (Ht & Hn & _ & _ & Hr & Hcl)
  end.
  cbv zeta in Ht, Hn, Hr, Hcl. rewrite Ht, Hn. cbn [clickTimers clickNow] in *.
  assert (clickNow (clickRun [Clicked e1 box1; Passed a; Clicked e2 box2]
                      (clickable classes position)) = a) as Enow.
  { change [Clicked e1 box1; Passed a; Clicked e2 box2]
      with ([Clicked e1 box1; Passed a] ++ [Clicked e2 box2])%list.
    rewrite clickRun_snoc. cbn [clickStep onClick clickNow].
    change [Clicked e1 box1; Passed a] with ([Clicked e1 box1] ++ [Passed a])%list.
    rewrite clickRun_snoc. cbn [clickStep]. unfold clickElapse.
    match goal with
    | |- clickNow (foldl _ ?el0 ?due) = _ =>
        destruct (runClickTimers_spec due el0) as (_ & -> & _)
    end.
    reflexivity. }
  assert (clickTimers (clickRun [Clicked e1 box1; Passed a; Clicked e2 box2]
                         (clickable classes position))
          = [(600%nat, RemoveRipple 0); (500%nat, RemoveClasses);
             ((a + 600)%nat, RemoveRipple 1); ((a + 500)%nat, RemoveClasses)]) as Etm.
  { change [Clicked e1 box1; Passed a; Clicked e2 box2]
      with ([Clicked e1 box1; Passed a] ++ [Clicked e2 box2])%list.
    rewrite clickRun_snoc. cbn [clickStep].
    assert (clickRun [Clicked e1 box1; Passed a] (clickable classes position)
            = {| clickClasses := classes ∪ {["clicked"]} ∪ {["glow-click"]};
                 stylePosition := if decide (position = "static") then "relative"
                                  else position;
                 ripples := [(0%nat, ((clientX e1 - rectLeft box1)%Q,
                                      (clientY e1 - rectTop box1)%Q))];
                 clickTimers := [(600%nat, RemoveRipple 0); (500%nat, RemoveClasses)];
                 clickCount := 1; clickNow := a |}) as ->.
    { cbn [clickRun foldl clickStep]. unfold onClick, clickable, clickElapse.
      cbn [clickClasses stylePosition ripples clickTimers clickCount clickNow app Nat.add].
      rewrite !filter_cons, !filter_nil. cbn [fst].
      rewrite (decide_False (P := (600 ≤ a)%nat)) by lia.
      rewrite (decide_False (P := (500 ≤ a)%nat)) by lia.
      rewrite (decide_True (P := ¬ (600 ≤ a)%nat)) by lia.
      rewrite (decide_True (P := ¬ (500 ≤ a)%nat)) by lia.
      reflexivity. }
    unfold onClick. cbn [clickTimers clickNow clickCount app]. reflexivity. }
  rewrite Enow, Etm in *.
  assert (∃ due : nat,
            (due, RemoveClasses)
            ∈ filter (λ t : nat * ClickTimer, (t.1 ≤ a + b)%nat)
                [(600%nat, RemoveRipple 0); (500%nat, RemoveClasses);
                 ((a + 600)%nat, RemoveRipple 1); ((a + 500)%nat, RemoveClasses)]) as Hrc.
  { exists 500%nat. apply list_elem_of_filter. split; [cbn; lia | set_solver]. }
  split; [intros H; apply Hcl in H as [_ H]; destruct (H Hrc); congruence |].
  split; [intros H; apply Hcl in H as [_ H]; destruct (H Hrc); congruence |].
  split.
  { do 2 eexists. apply Hr. split.
    - change [Clicked e1 box1; Passed a; Clicked e2 box2]
        with ([Clicked e1 box1; Passed a] ++ [Clicked e2 box2])%list.
      rewrite clickRun_snoc. cbn [clickStep onClick ripples].
      apply elem_of_app. right.
      assert (clickCount (clickRun [Clicked e1 box1; Passed a] (clickable classes position)) = 1%nat)
        as ->.
      { change [Clicked e1 box1; Passed a] with ([Clicked e1 box1] ++ [Passed a])%list.
        rewrite clickRun_snoc. cbn [clickStep]. unfold clickElapse.
        match goal with
        | |- clickCount (foldl _ ?el0 ?due) = _ =>
            destruct (runClickTimers_spec due el0) as (_ & _ & -> & _)
        end.
        reflexivity. }
      left.
    - intros d Hd. apply list_elem_of_filter in Hd as [Hle Hd]. cbn in Hle.
      rewrite !elem_of_cons, elem_of_nil in Hd.
      destruct Hd as [Hd | [Hd | [Hd | [Hd | []]]]]; inversion Hd; subst; lia. }
  split; [apply list_elem_of_filter; split; [cbn; lia | set_solver] |].
  split; [apply list_elem_of_filter; split; [cbn; lia | set_solver] | reflexivity].
Qed.

Lemma onClick_twice_cut_short_witness :
  let el := clickRun [Clicked {| clientX := 175; clientY := 50 |} sampleRect; Passed 200;
                      Clicked {| clientX := 400; clientY := 250 |} sampleRect; Passed 300]
              (clickable {["social-card"]} "static") in
  "clicked" ∉ clickClasses el ∧ "glow-click" ∉ clickClasses el
  ∧ (∃ x y : Q, (1%nat, (x, y)) ∈ ripples el)
  ∧ ((200 + 500)%nat, RemoveClasses) ∈ clickTimers el
  ∧ ((200 + 600)%nat, RemoveRipple 1) ∈ clickTimers el
  ∧ clickNow el = (200 + 300)%nat.
Proof.
  apply (onClick_twice_cut_short {["social-card"]} "static"
           {| clientX := 175; clientY := 50 |} {| clientX := 400; clientY := 250 |}
           sampleRect sampleRect 200 300); lia.
Defined.

(** ** The card parallax *)

Example cardParallax_sample :
  cardParallax sampleNumberToString 450 900 None = Some "translateY(0.00px)"
  ∧ cardParallax sampleNumberToString (-450) 900 (Some "none") = Some "none"
  ∧ cardParallax sampleNumberToString 900 900 (Some "none") = Some "none"
  ∧ cardParallax sampleNumberToString 0 900 None = Some "translateY(-10.00px)".
Proof. vm_compute. auto. Qed.

